(** * The lifecycle orchestrator of atlas.js

    A shallow embedding of [packages/atlas/src/atlas.mjs]: the [Atlas] class
    with its catalog of hooks, services and actions, and the three lifecycle
    methods [prepare], [start] and [stop].

    An [async] method is a computation that threads the orchestrator and the
    state of the components ("the world"), may throw, and emits the calls it
    makes on its collaborators as a list of events. What the components
    have been asked is read off the components themselves, instrumented so
    that each one writes down the calls it gets.

    - Every call on a component runs to completion before anything else
      happens: an [await] in a loop is sequencing, [Promise.all] over an
      array of calls makes the calls in array order and joins them, and
      what follows an [await] inside an [async] function given to [map]
      runs once [map] has made all its calls.
    - A component reads the orchestrator (its flags and its public
      mappings) but does not call its methods while one of them runs. *)

From stdpp Require Import base gmap strings list.

Local Open Scope string_scope.
Local Open Scope list_scope.

(** ** Thrown values *)

(** What is thrown is any JavaScript value. [FrameworkError] is the class of
    [@atlas.js/errors]; a [ComponentError] is any other truthy value that a
    component throws, an error object as a rule; a [Falsy] value is one of
    [undefined], [null], [false], [0], [NaN] and the empty string. *)
Inductive Error : Type :=
  | FrameworkError (message : string)
  | ComponentError (message : string)
  | Falsy (value : string).

(** JavaScript truthiness of a thrown value: [if (error)]. *)
Definition is_truthy (e : Error) : bool :=
  match e with
  | Falsy _ => false
  | FrameworkError _ | ComponentError _ => true
  end.

Inductive result (A : Type) : Type :=
  | Ok (a : A)
  | Throw (e : Error).
Arguments Ok {A} a.
Arguments Throw {A} e.

Definition failure {A : Type} (r : result A) : option Error :=
  match r with Ok _ => None | Throw e => Some e end.

(** The first rejection among settled promises, in their order. *)
Fixpoint rejection {A : Type} (promises : list (result A)) : option Error :=
  match promises with
  | [] => None
  | Ok _ :: rest => rejection rest
  | Throw e :: _ => Some e
  end.

(** ** Instrumentation *)

Inductive Kind : Type := Hook | Service | Action.
Inductive Phase : Type := Prepare | Start | Stop.
Inductive Level : Type := Debug | Info | Fatal.

Definition Kind_eqb (a b : Kind) : bool :=
  match a, b with
  | Hook, Hook | Service, Service | Action, Action => true
  | _, _ => false
  end.

Definition Phase_eqb (a b : Phase) : bool :=
  match a, b with
  | Prepare, Prepare | Start, Start | Stop, Stop => true
  | _, _ => false
  end.

(** JavaScript truthiness of a possibly undefined string. *)
Definition truthy (o : option string) : bool :=
  match o with
  | None => false
  | Some s => negb (String.eqb s "")
  end.

(** [Object.prototype]: the properties that every plain object inherits,
    the public [services] and [actions] of an orchestrator among them. *)
Class Prototype (Instance : Type) : Type :=
  Object_prototype : string -> option Instance.

Section Orchestrator.

(** The state of the components and the values they publish. *)
Context {World Instance : Type} `{!Prototype Instance}.

(** What a component sees of the orchestrator it belongs to (every
    component holds a reference [atlas] to it): the two flags and the two
    public mappings. *)
Record View : Type := {
  v_prepared : bool;
  v_started : bool;
  v_services : gmap string Instance;
  v_actions : gmap string Instance
}.

(** The static properties of a component class that the orchestrator reads. *)
Record ComponentClass : Type := {
  observes : option string;
  internal : bool
}.

(** A component container.  Its class is [private/component-container], not
    part of the orchestrator: here a container is its [Component] class and
    what its methods do to the world.  [c_start] and [c_stop] receive the
    [instance] option of their argument. *)
Record Container : Type := {
  Component : ComponentClass;
  c_prepare : View -> World -> World * result Instance;
  c_start : View -> option Instance -> World -> World * result unit;
  c_stop : View -> option Instance -> World -> World * result unit;
  c_dispatch : string -> option View -> World -> World * result unit
}.

(** A JavaScript [Map] from aliases to containers, in insertion order. *)
Definition Registry : Type := list (string * Container).

Fixpoint Map_get (alias : string) (m : Registry) : option Container :=
  match m with
  | [] => None
  | (k, c) :: rest => if String.eqb k alias then Some c else Map_get alias rest
  end.

Definition Map_has (alias : string) (m : Registry) : bool :=
  match Map_get alias m with Some _ => true | None => false end.

(** [Map.prototype.set]: a known key keeps its place, a new key goes last. *)
Fixpoint Map_set (alias : string) (c : Container) (m : Registry) : Registry :=
  match m with
  | [] => [(alias, c)]
  | (k, c') :: rest =>
      if String.eqb k alias then (k, c) :: rest
      else (k, c') :: Map_set alias c rest
  end.

Definition keys (m : Registry) : list string := map fst m.

(** The orchestrator: the hidden scope ([env], [root], the flags, the
    catalog, the observers) and the public [services] and [actions]. *)
Record Atlas : Type := {
  env : string;
  root : string;
  prepared : bool;
  started : bool;
  catalog_services : Registry;
  catalog_hooks : Registry;
  catalog_actions : Registry;
  observers : Registry;
  services : gmap string Instance;
  actions : gmap string Instance
}.

(** [object[name]]: the property of that name of the object itself or,
    failing that, the one it inherits. *)
Definition property (object : gmap string Instance) (name : string)
    : option Instance :=
  match object !! name with
  | Some value => Some value
  | None => Object_prototype name
  end.

Definition view (a : Atlas) : View :=
  {| v_prepared := prepared a; v_started := started a;
     v_services := services a; v_actions := actions a |}.

Definition set_prepared (b : bool) (a : Atlas) : Atlas :=
  {| env := env a; root := root a; prepared := b; started := started a;
     catalog_services := catalog_services a; catalog_hooks := catalog_hooks a;
     catalog_actions := catalog_actions a; observers := observers a;
     services := services a; actions := actions a |}.

Definition set_started (b : bool) (a : Atlas) : Atlas :=
  {| env := env a; root := root a; prepared := prepared a; started := b;
     catalog_services := catalog_services a; catalog_hooks := catalog_hooks a;
     catalog_actions := catalog_actions a; observers := observers a;
     services := services a; actions := actions a |}.

Definition set_catalog_services (m : Registry) (a : Atlas) : Atlas :=
  {| env := env a; root := root a; prepared := prepared a; started := started a;
     catalog_services := m; catalog_hooks := catalog_hooks a;
     catalog_actions := catalog_actions a; observers := observers a;
     services := services a; actions := actions a |}.

Definition set_catalog_hooks (m : Registry) (a : Atlas) : Atlas :=
  {| env := env a; root := root a; prepared := prepared a; started := started a;
     catalog_services := catalog_services a; catalog_hooks := m;
     catalog_actions := catalog_actions a; observers := observers a;
     services := services a; actions := actions a |}.

Definition set_catalog_actions (m : Registry) (a : Atlas) : Atlas :=
  {| env := env a; root := root a; prepared := prepared a; started := started a;
     catalog_services := catalog_services a; catalog_hooks := catalog_hooks a;
     catalog_actions := m; observers := observers a;
     services := services a; actions := actions a |}.

Definition set_observers (m : Registry) (a : Atlas) : Atlas :=
  {| env := env a; root := root a; prepared := prepared a; started := started a;
     catalog_services := catalog_services a; catalog_hooks := catalog_hooks a;
     catalog_actions := catalog_actions a; observers := m;
     services := services a; actions := actions a |}.

Definition set_services (m : gmap string Instance) (a : Atlas) : Atlas :=
  {| env := env a; root := root a; prepared := prepared a; started := started a;
     catalog_services := catalog_services a; catalog_hooks := catalog_hooks a;
     catalog_actions := catalog_actions a; observers := observers a;
     services := m; actions := actions a |}.

Definition set_actions (m : gmap string Instance) (a : Atlas) : Atlas :=
  {| env := env a; root := root a; prepared := prepared a; started := started a;
     catalog_services := catalog_services a; catalog_hooks := catalog_hooks a;
     catalog_actions := catalog_actions a; observers := observers a;
     services := services a; actions := m |}.

(** What the instrumented collaborators record: a call of a container's
    lifecycle method (with what the component could see of the orchestrator
    when it was called, and the error it threw, if any), the delivery of a
    lifecycle event to a hook, and a line of the log. *)
Inductive Event : Type :=
  | Invoked (p : Phase) (k : Kind) (alias : string) (v : View) (err : option Error)
  | Dispatched (event : string) (alias : string) (err : option Error)
  | Logged (l : Level) (msg : string) (err : option Error).

(** ** Asynchronous methods *)

Record State : Type := { atlas : Atlas; world : World }.

Record Run (A : Type) : Type := {
  final : State;
  events : list Event;
  outcome : result A
}.
Arguments final {A} r.
Arguments events {A} r.
Arguments outcome {A} r.

Definition M (A : Type) : Type := State -> Run A.

Definition ret {A : Type} (a : A) : M A :=
  fun s => {| final := s; events := []; outcome := Ok a |}.

Definition throw {A : Type} (e : Error) : M A :=
  fun s => {| final := s; events := []; outcome := Throw e |}.

Definition bind {A B : Type} (m : M A) (f : A -> M B) : M B :=
  fun s =>
    let r := m s in
    match outcome r with
    | Ok a =>
        let r' := f a (final r) in
        {| final := final r'; events := events r ++ events r';
           outcome := outcome r' |}
    | Throw e => {| final := final r; events := events r; outcome := Throw e |}
    end.

(** [try { m } catch (err) { h err }] *)
Definition try_catch {A : Type} (m : M A) (h : Error -> M A) : M A :=
  fun s =>
    let r := m s in
    match outcome r with
    | Ok a => r
    | Throw e =>
        let r' := h e (final r) in
        {| final := final r'; events := events r ++ events r';
           outcome := outcome r' |}
    end.

Definition this : M Atlas :=
  fun s => {| final := s; events := []; outcome := Ok (atlas s) |}.

Definition modify (f : Atlas -> Atlas) : M unit :=
  fun s => {| final := {| atlas := f (atlas s); world := world s |};
              events := []; outcome := Ok tt |}.

Definition log (l : Level) (err : option Error) (msg : string) : M unit :=
  fun s => {| final := s; events := [Logged l msg err]; outcome := Ok tt |}.

Notation "'let*' x ':=' c1 'in' c2" := (bind c1 (fun x => c2))
  (at level 10, x pattern, c1 at level 100, c2 at level 200).
Notation "c1 ';;' c2" := (bind c1 (fun _ => c2))
  (at level 100, c2 at level 200, right associativity).

(** [for (const x of l) { body x }] *)
Fixpoint for_of {A : Type} (l : list A) (body : A -> M unit) : M unit :=
  match l with
  | [] => ret tt
  | x :: rest => body x ;; for_of rest body
  end.

(** [await Promise.all(calls)], the calls having been made by [Array.map]:
    every call is made, in array order, whatever the others do; the join
    resolves with all the values or rejects with the first rejection. *)
Fixpoint Promise_all {A : Type} (calls : list (M A)) : M (list A) :=
  match calls with
  | [] => ret []
  | call :: rest =>
      fun s =>
        let r := call s in
        let r' := Promise_all rest (final r) in
        {| final := final r'; events := events r ++ events r';
           outcome :=
             match outcome r, outcome r' with
             | Ok a, Ok l => Ok (a :: l)
             | Ok _, Throw e => Throw e
             | Throw e, _ => Throw e
             end |}
  end.

(** The promise that a call returns, once settled: resolved with a value
    or rejected with what was thrown. *)
Definition settled {A : Type} (call : M A) : M (result A) :=
  fun s =>
    let r := call s in
    {| final := final r; events := events r; outcome := Ok (outcome r) |}.

(** [await promise] *)
Definition await {A : Type} (promise : result A) : M A :=
  match promise with
  | Ok a => ret a
  | Throw e => throw e
  end.

(** [array.map(f)] *)
Fixpoint Array_map {X A : Type} (f : X -> M A) (l : list X) : M (list A) :=
  match l with
  | [] => ret []
  | x :: rest =>
      let* a := f x in
      let* l' := Array_map f rest in
      ret (a :: l')
  end.

(** A call of a lifecycle method of the container registered as [alias] in
    the registry [k]. *)
Definition invoke {A : Type} (p : Phase) (k : Kind) (alias : string)
    (method : View -> World -> World * result A) : M A :=
  fun s =>
    let wr := method (view (atlas s)) (world s) in
    {| final := {| atlas := atlas s; world := fst wr |};
       events := [Invoked p k alias (view (atlas s)) (failure (snd wr))];
       outcome := snd wr |}.

(** ** The helpers of [./private] *)

(** Modelled from the spec: [private/dispatch], called as
    [registry::dispatch(event, subject)]. The lifecycle event is delivered
    to the hooks of the registry in registration order, each one awaited
    before the next; a hook that throws ends the dispatch. *)
Fixpoint dispatch (event : string) (subject : option View) (registry : Registry)
    : M unit :=
  match registry with
  | [] => ret tt
  | (alias, container) :: rest =>
      (fun s =>
         let wr := c_dispatch container event subject (world s) in
         {| final := {| atlas := atlas s; world := fst wr |};
            events := [Dispatched event alias (failure (snd wr))];
            outcome := snd wr |}) ;;
      dispatch event subject rest
  end.

Definition subject_this : M (option View) :=
  fun s => {| final := s; events := []; outcome := Ok (Some (view (atlas s))) |}.

Definition registry_of (collection : Kind) (a : Atlas) : Registry :=
  match collection with
  | Hook => catalog_hooks a
  | Service => catalog_services a
  | Action => catalog_actions a
  end.

(** Whether the definition of the component registered under [alias] in the
    collection is marked internal. *)
Definition marked_internal (collection : Kind) (alias : string) (a : Atlas)
    : bool :=
  match Map_get alias (registry_of collection a) with
  | Some container => internal (Component container)
  | None => false
  end.

(** Modelled from the spec: [private/expose], called as
    [this::expose(collection, alias, instance)]. The instance is published
    on the public mapping of the collection under its alias, unless the
    definition of the component is marked internal. *)
Definition exposed (collection : Kind) (alias : string) (returns : Instance)
    (a : Atlas) : Atlas :=
  if marked_internal collection alias a then a
  else
    match collection with
    | Service => set_services (<[alias := returns]> (services a)) a
    | Action => set_actions (<[alias := returns]> (actions a)) a
    | Hook => a
    end.

(** [this::expose(collection, alias, returns)] *)
Definition expose (collection : Kind) (alias : string) (returns : Instance)
    : M unit :=
  modify (exposed collection alias returns).

(** Modelled from the spec: [private/component], called as
    [this::component(info, catalog)]. Registering an alias twice in one
    registry is a configuration error; otherwise the new container is stored
    last. *)
Definition component (alias : string) (container : Container)
    (catalog : Registry) : result Registry :=
  if Map_has alias catalog
  then Throw (FrameworkError ("Component with alias " +:+ alias +:+ " already used"))
  else Ok (catalog ++ [(alias, container)])%list.

(** ** Construction and registration *)

Definition constructor (options_env NODE_ENV options_root : option string)
    : result Atlas :=
  match (if truthy options_env then options_env else NODE_ENV) with
  | Some e =>
      if negb (truthy (Some e)) then
        Throw (FrameworkError "env not specified and NODE_ENV was not set")
      else
        match options_root with
        | Some r =>
            Ok {| env := e; root := r; prepared := false; started := false;
                  catalog_services := []; catalog_hooks := [];
                  catalog_actions := []; observers := [];
                  services := ∅; actions := ∅ |}
        | None =>
            Throw (FrameworkError
                     "root must be explicitly specified, got undefined")
        end
  | None => Throw (FrameworkError "env not specified and NODE_ENV was not set")
  end.

Definition service (alias : string) (container : Container) : M Atlas :=
  let* a := this in
  match component alias container (catalog_services a) with
  | Ok m => modify (set_catalog_services m) ;; this
  | Throw e => throw e
  end.

Definition hook (alias : string) (container : Container) : M Atlas :=
  let* a := this in
  match component alias container (catalog_hooks a) with
  | Ok m => modify (set_catalog_hooks m) ;; this
  | Throw e => throw e
  end.

Definition action (alias : string) (container : Container) : M Atlas :=
  let* a := this in
  match component alias container (catalog_actions a) with
  | Ok m => modify (set_catalog_actions m) ;; this
  | Throw e => throw e
  end.

(** ** prepare *)

(** [container.Component.observes === 'atlas'] *)
Definition observes_atlas (container : Container) : bool :=
  match observes (Component container) with
  | Some target => String.eqb target "atlas"
  | None => false
  end.

Definition hook_error (alias : string) : Error :=
  FrameworkError
    ("Hook " +:+ alias +:+ " does not have static 'observes' property").

(** The loop over the hooks at the head of [prepare]. *)
Definition scan (alias_container : string * Container) : M unit :=
  let (alias, container) := alias_container in
  if negb (truthy (observes (Component container))) then
    throw (hook_error alias)
  else if observes_atlas container then
    modify (fun a => set_observers (Map_set alias container (observers a)) a)
  else ret tt.

Definition prepare_hook (alias_container : string * Container) : M Instance :=
  invoke Prepare Hook (fst alias_container) (c_prepare (snd alias_container)).

(** The arrow function [async ([alias, container]) => this::expose(collection,
    alias, await container.prepare({ hooks }))]: the call it makes when
    [map] applies it, and what it does once its [await] gives way. *)
Definition prepare_container (collection : Kind)
    (alias_container : string * Container) : M Instance :=
  invoke Prepare collection (fst alias_container)
    (c_prepare (snd alias_container)).

Definition expose_awaited (collection : Kind)
    (alias_container : string * Container) (promise : result Instance)
    : M unit :=
  let* returns := await promise in
  expose collection (fst alias_container) returns.

(** [await Promise.all(Array.from(registry).map(async ...))] for that arrow
    function: [map] calls [prepare] on every container of the registry; the
    instances are published after [map] has returned, in array order. *)
Definition prepare_exposed (collection : Kind) (registry : Registry)
    : M (list unit) :=
  let* promises :=
    Array_map (fun x => settled (prepare_container collection x)) registry in
  Promise_all (zip_with (expose_awaited collection) registry promises).

Definition prepare : M Atlas :=
  let* a := this in
  if prepared a then this
  else
    let services := catalog_services a in
    let actions := catalog_actions a in
    let hooks := catalog_hooks a in
    for_of hooks scan ;;
    Promise_all (map prepare_hook hooks) ;;
    prepare_exposed Action actions ;;
    prepare_exposed Service services ;;
    modify (set_prepared true) ;;
    (* [observers] is the Map that the loop above has filled *)
    let* a' := this in
    let* subject := subject_this in
    dispatch "afterPrepare" subject (observers a') ;;
    this.

(** ** stop *)

Definition stop_container (k : Kind) (alias_container : string * Container)
    : M unit :=
  invoke Stop k (fst alias_container)
    (fun v => c_stop (snd alias_container) v None).

(** One turn of the loop over the services, in [stop]: [error] is the local
    variable of that name. *)
Definition stop_service (alias_container : string * Container)
    (error : option Error) : M (option Error) :=
  let (alias, container) := alias_container in
  try_catch
    (let* a := this in
     let instance := property (services a) alias in
     modify (fun a => set_services (delete alias (services a)) a) ;;
     invoke Stop Service alias (fun v => c_stop container v instance) ;;
     ret error)
    (fun err => ret (Some err)).

Fixpoint stop_services (l : Registry) (error : option Error)
    : M (option Error) :=
  match l with
  | [] => ret error
  | x :: rest =>
      let* error' := stop_service x error in
      stop_services rest error'
  end.

Definition unregister_action (alias_container : string * Container) : M unit :=
  modify (fun a => set_actions (delete (fst alias_container) (actions a)) a).

Definition stop : M Atlas :=
  let* a := this in
  let services := catalog_services a in
  let actions := catalog_actions a in
  let hooks := catalog_hooks a in
  let* subject := subject_this in
  dispatch "beforeStop" subject (observers a) ;;
  (* [...hooks, ...actions].map(stop): the registry a container comes from
     is kept for the record *)
  Promise_all (map (stop_container Hook) hooks
               ++ map (stop_container Action) actions) ;;
  let* error := stop_services (rev services) None in
  for_of actions unregister_action ;;
  modify (set_started false) ;;
  modify (set_prepared false) ;;
  dispatch "afterStop" None hooks ;;
  log Info None "atlas:stopped" ;;
  match error with
  | Some err => if is_truthy err then throw err else this
  | None => this
  end.

(** ** start *)

Definition start_container (k : Kind) (alias_container : string * Container)
    : M unit :=
  invoke Start k (fst alias_container)
    (fun v => c_start (snd alias_container) v None).

(** One turn of the loop over the services, in [start]. *)
Definition start_service (alias_container : string * Container) : M unit :=
  let (alias, container) := alias_container in
  try_catch
    (let* a := this in
     invoke Start Service alias
       (fun v => c_start container v (property (services a) alias)))
    (fun err =>
       try_catch (stop ;; ret tt)
         (fun stopErr => log Fatal (Some stopErr) "atlas:start:rollback-failure") ;;
       throw err).

Definition start : M Atlas :=
  let* a := this in
  let actions := catalog_actions a in
  let services := catalog_services a in
  let hooks := catalog_hooks a in
  prepare ;;
  (* [observers] is the Map that [prepare] has filled *)
  let* a' := this in
  let* subject := subject_this in
  dispatch "beforeStart" subject (observers a') ;;
  Promise_all (map (start_container Hook) hooks
               ++ map (start_container Action) actions) ;;
  for_of services start_service ;;
  modify (set_started true) ;;
  let* subject' := subject_this in
  dispatch "afterStart" subject' (observers a') ;;
  log Info None "atlas:ready" ;;
  this.

(** ** init *)

(** [Atlas.init]: a new orchestrator, then the hooks, the services and the
    actions of the modules found at the given locations, registered in the
    order of [Object.entries]. What [atlas.require] has loaded from the
    disk is given: the entries of the three modules, each component with
    the aliases that the [aliases] module binds to it (a module that is not
    there has no entry). *)
Definition register_module (register : string -> Container -> M Atlas)
    (module : Registry) : M unit :=
  for_of module (fun entry => register (fst entry) (snd entry) ;; ret tt).

Definition init (options_env NODE_ENV options_root : option string)
    (modules_hooks modules_services modules_actions : Registry) (w : World)
    : result (Run Atlas) :=
  match constructor options_env NODE_ENV options_root with
  | Throw e => Throw e
  | Ok atlas =>
      Ok ((log Debug None "atlas:init" ;;
           register_module hook modules_hooks ;;
           register_module service modules_services ;;
           register_module action modules_actions ;;
           this) {| atlas := atlas; world := w |})
  end.

(** ** Reading the record of a run *)

Definition is_ok {A : Type} (r : Run A) : bool :=
  match outcome r with Ok _ => true | Throw _ => false end.

(** The aliases of the containers of registry [k] whose method [p] was
    called, in the order of the calls. *)
Definition invoked (p : Phase) (k : Kind) (evs : list Event) : list string :=
  flat_map (fun e =>
    match e with
    | Invoked p' k' alias _ _ =>
        if Phase_eqb p p' && Kind_eqb k k' then [alias] else []
    | _ => []
    end) evs.

(** The aliases of the hooks that were handed the lifecycle event, in the
    order of the deliveries. *)
Definition delivered (event : string) (evs : list Event) : list string :=
  flat_map (fun e =>
    match e with
    | Dispatched event' alias _ =>
        if String.eqb event event' then [alias] else []
    | _ => []
    end) evs.

(** The errors thrown by the calls of method [p] on registry [k], in the
    order of the calls. *)
Definition thrown (p : Phase) (k : Kind) (evs : list Event) : list Error :=
  flat_map (fun e =>
    match e with
    | Invoked p' k' _ _ (Some err) =>
        if Phase_eqb p p' && Kind_eqb k k' then [err] else []
    | _ => []
    end) evs.

(** The errors thrown by the hooks that were handed the lifecycle event. *)
Definition rejected (event : string) (evs : list Event) : list Error :=
  flat_map (fun e =>
    match e with
    | Dispatched event' _ (Some err) =>
        if String.eqb event event' then [err] else []
    | _ => []
    end) evs.

(** A run of [stop] gets to its loop over the services exactly when no
    observer of [beforeStop] and no [stop] of a hook or an action has
    thrown. *)
Definition completes_stop (evs : list Event) : Prop :=
  rejected "beforeStop" evs = [] /\ thrown Stop Hook evs = []
  /\ thrown Stop Action evs = [].

(** The orchestrator once [stop] has gone through its loops: every alias of
    the catalog is off the public mappings and both flags are down. *)
Definition unpublish (aliases : list string) (m : gmap string Instance)
    : gmap string Instance :=
  foldl (fun m alias => delete alias m) m aliases.

Definition stopped (a : Atlas) : Atlas :=
  set_prepared false
    (set_started false
       (set_actions (unpublish (keys (catalog_actions a)) (actions a))
          (set_services
             (unpublish (rev (keys (catalog_services a))) (services a)) a))).

(** The end of [stop]: [if (error) { throw error }] and [return this],
    [kept] being what the loop over the services has left in [error]. *)
Definition rethrown (kept : option Error) (a : Atlas) : result Atlas :=
  match kept with
  | Some err => if is_truthy err then Throw err else Ok a
  | None => Ok a
  end.

(** The public mappings hold nothing but what the catalog has an alias
    for. *)
Definition within_catalog (a : Atlas) : Prop :=
  (forall alias, is_Some (services a !! alias) ->
                 In alias (keys (catalog_services a)))
  /\ (forall alias, is_Some (actions a !! alias) ->
                 In alias (keys (catalog_actions a))).

(** The registry of observers never lists an alias twice, and it lists
    nothing but hooks whose [observes] is ['atlas']. *)
Definition observers_sound (a : Atlas) : Prop :=
  NoDup (keys (observers a))
  /\ forall alias c, In (alias, c) (observers a) ->
                     observes (Component c) = Some "atlas".

(** The orchestrators a program can get: a new one, then registrations and
    lifecycle calls, the components living their lives in between. *)
Inductive reachable : State -> Prop :=
  | reach_new (e n r : option string) (a : Atlas) (w : World) :
      constructor e n r = Ok a -> reachable {| atlas := a; world := w |}
  | reach_world (s : State) (w : World) :
      reachable s -> reachable {| atlas := atlas s; world := w |}
  | reach_service (s : State) (alias : string) (c : Container) :
      reachable s -> reachable (final (service alias c s))
  | reach_hook (s : State) (alias : string) (c : Container) :
      reachable s -> reachable (final (hook alias c s))
  | reach_action (s : State) (alias : string) (c : Container) :
      reachable s -> reachable (final (action alias c s))
  | reach_prepare (s : State) :
      reachable s -> reachable (final (prepare s))
  | reach_start (s : State) :
      reachable s -> reachable (final (start s))
  | reach_stop (s : State) :
      reachable s -> reachable (final (stop s)).

(** The four stretches of a run of [stop]: the dispatch of [beforeStop],
    the joined [stop] of the hooks and the actions, the loop over the
    services, and the dispatch of [afterStop]. *)
Definition stop_beforeStop (s : State) : Run unit :=
  dispatch "beforeStop" (Some (view (atlas s))) (observers (atlas s)) s.

Definition stop_components (s : State) : Run (list unit) :=
  Promise_all (map (stop_container Hook) (catalog_hooks (atlas s))
               ++ map (stop_container Action) (catalog_actions (atlas s)))
    (final (stop_beforeStop s)).

Definition stop_loop (s : State) : Run (option Error) :=
  stop_services (rev (catalog_services (atlas s))) None
    (final (stop_components s)).

Definition stop_afterStop (s : State) : Run unit :=
  dispatch "afterStop" None (catalog_hooks (atlas s))
    {| atlas := stopped (atlas s); world := world (final (stop_loop s)) |}.

Definition stop_hooks (s : State) : Run (list unit) :=
  Promise_all (map (stop_container Hook) (catalog_hooks (atlas s)))
    (final (stop_beforeStop s)).

Definition stop_actions (s : State) : Run (list unit) :=
  Promise_all (map (stop_container Action) (catalog_actions (atlas s)))
    (final (stop_hooks s)).

(** The stretches of a run of [prepare] that does not return at once: the
    loop over the hooks, the three joined preparations, the dispatch of
    [afterPrepare]. *)
Definition prepare_scan (s : State) : Run unit :=
  for_of (catalog_hooks (atlas s)) scan s.

Definition prepare_hooks (s : State) : Run (list Instance) :=
  Promise_all (map prepare_hook (catalog_hooks (atlas s)))
    (final (prepare_scan s)).

Definition prepare_actions (s : State) : Run (list unit) :=
  prepare_exposed Action (catalog_actions (atlas s)) (final (prepare_hooks s)).

Definition prepare_services (s : State) : Run (list unit) :=
  prepare_exposed Service (catalog_services (atlas s))
    (final (prepare_actions s)).

Definition prepare_afterPrepare (s : State) : Run unit :=
  let a' := set_prepared true (atlas (final (prepare_services s))) in
  dispatch "afterPrepare" (Some (view a')) (observers a')
    {| atlas := a'; world := world (final (prepare_services s)) |}.

(** The stretches of a run of [start] after its [prepare]: the dispatch of
    [beforeStart], the joined [start] of the hooks and of the actions, the
    loop over the services, the dispatch of [afterStart]. *)
Definition start_beforeStart (s : State) : Run unit :=
  let s' := final (prepare s) in
  dispatch "beforeStart" (Some (view (atlas s'))) (observers (atlas s')) s'.

Definition start_hooks (s : State) : Run (list unit) :=
  Promise_all (map (start_container Hook) (catalog_hooks (atlas s)))
    (final (start_beforeStart s)).

Definition start_actions (s : State) : Run (list unit) :=
  Promise_all (map (start_container Action) (catalog_actions (atlas s)))
    (final (start_hooks s)).

Definition start_components (s : State) : Run (list unit) :=
  Promise_all (map (start_container Hook) (catalog_hooks (atlas s))
               ++ map (start_container Action) (catalog_actions (atlas s)))
    (final (start_beforeStart s)).

Definition start_loop (s : State) : Run unit :=
  for_of (catalog_services (atlas s)) start_service (final (start_actions s)).

Definition start_afterStart (s : State) : Run unit :=
  let a' := set_started true (atlas (final (start_loop s))) in
  dispatch "afterStart" (Some (view a')) (observers (atlas (final (prepare s))))
    {| atlas := a'; world := world (final (start_loop s)) |}.

(** What the rollback of [start] adds to the log. *)
Definition rollback_log {A : Type} (r : Run A) : list Event :=
  match outcome r with
  | Ok _ => []
  | Throw stopErr => [Logged Fatal "atlas:start:rollback-failure" (Some stopErr)]
  end.

(** Kinds of events. *)
Definition is_call (p : Phase) (k : Kind) (e : Event) : bool :=
  match e with
  | Invoked p' k' _ _ _ => Phase_eqb p p' && Kind_eqb k k'
  | _ => false
  end.

Definition is_delivery (event : string) (e : Event) : bool :=
  match e with
  | Dispatched event' _ _ => String.eqb event event'
  | _ => false
  end.

(** What a run of [stop] can leave on record. *)
Definition of_stop (e : Event) : bool :=
  match e with
  | Invoked Stop _ _ _ _ => true
  | Invoked _ _ _ _ _ => false
  | Dispatched event _ _ =>
      String.eqb "beforeStop" event || String.eqb "afterStop" event
  | Logged _ _ _ => true
  end.

(** What a run of [prepare] can leave on record. *)
Definition of_prepare (e : Event) : bool :=
  match e with
  | Invoked Prepare _ _ _ _ => true
  | Invoked _ _ _ _ _ => false
  | Dispatched event _ _ => String.eqb "afterPrepare" event
  | Logged _ _ _ => false
  end.

(** Two orchestrators with the same catalog. *)
Definition same_catalog (a a' : Atlas) : Prop :=
  catalog_services a' = catalog_services a
  /\ catalog_hooks a' = catalog_hooks a
  /\ catalog_actions a' = catalog_actions a.

(** A call of one method on one container, and nothing else on record. *)
Definition one_call {A : Type} (p : Phase) (k : Kind)
    (f : string * Container -> M A) : Prop :=
  forall x s,
    events (f x s)
    = [Invoked p k (fst x) (view (atlas s)) (failure (outcome (f x s)))].

(** Every event of every run of [m] satisfies [Q]. *)
Definition emits {A : Type} (Q : Event -> Prop) (m : M A) : Prop :=
  forall s, Forall Q (events (m s)).

(** No run of [m] takes the orchestrator out of [P]. *)
Definition preserves {A : Type} (P : Atlas -> Prop) (m : M A) : Prop :=
  forall s, P (atlas s) -> P (atlas (final (m s))).

(** The hook of a registry that the loop at the head of [prepare] stops at. *)
Fixpoint unobserving (hooks : Registry) : option string :=
  match hooks with
  | [] => None
  | (alias, container) :: rest =>
      if truthy (observes (Component container)) then unobserving rest
      else Some alias
  end.

End Orchestrator.

Arguments final {World Instance A} r.
Arguments events {World Instance A} r.
Arguments outcome {World Instance A} r.
Arguments View : clear implicits.
Arguments Container : clear implicits.
Arguments Registry : clear implicits.
Arguments Atlas : clear implicits.
Arguments Event : clear implicits.
Arguments State : clear implicits.

(** ** Instrumented components

    The orchestrator's own record of a run tells what it has asked of its
    collaborators. What the components have been asked is read off the
    components: each one is wrapped so that, when one of its methods is
    called, it adds the call to a journal kept in the world, and then does
    what it does. *)
Section Instrumented.

Context {World Instance : Type}.

(** A method that writes [entry] down once it has run. *)
Definition recorded {A : Type} (entry : option Error -> Event Instance)
    (method : World -> World * result A)
    (w : World * list (Event Instance))
    : (World * list (Event Instance)) * result A :=
  let wr := method (fst w) in
  ((fst wr, snd w ++ [entry (failure (snd wr))]), snd wr).

(** The container [c], registered as [alias] in the registry [k], with its
    methods instrumented. *)
Definition recording (k : Kind) (alias : string) (c : Container World Instance)
    : Container (World * list (Event Instance)) Instance :=
  {| Component := Component c;
     c_prepare := fun v => recorded (Invoked Prepare k alias v) (c_prepare c v);
     c_start := fun v instance =>
       recorded (Invoked Start k alias v) (c_start c v instance);
     c_stop := fun v instance =>
       recorded (Invoked Stop k alias v) (c_stop c v instance);
     c_dispatch := fun event subject =>
       recorded (Dispatched event alias) (c_dispatch c event subject) |}.

Definition recording_registry (k : Kind) (l : Registry World Instance)
    : Registry (World * list (Event Instance)) Instance :=
  map (fun x => (fst x, recording k (fst x) (snd x))) l.

Definition instrumented_atlas (a : Atlas World Instance)
    : Atlas (World * list (Event Instance)) Instance :=
  {| env := env a; root := root a;
     prepared := prepared a; started := started a;
     catalog_services := recording_registry Service (catalog_services a);
     catalog_hooks := recording_registry Hook (catalog_hooks a);
     catalog_actions := recording_registry Action (catalog_actions a);
     observers := recording_registry Hook (observers a);
     services := services a; actions := actions a |}.

(** The state [s] with every component instrumented, the journal holding
    [entries]. *)
Definition instrumented (s : State World Instance)
    (entries : list (Event Instance))
    : State (World * list (Event Instance)) Instance :=
  {| atlas := instrumented_atlas (atlas s); world := (world s, entries) |}.

(** What the components have written down during a run of [m] from [s]. *)
Definition journal {A : Type}
    (m : M (World := World * list (Event Instance)) (Instance := Instance) A)
    (s : State World Instance) : list (Event Instance) :=
  snd (world (final (m (instrumented s [])))).

(** The part of a record that is about the components: the log is the
    orchestrator's own. *)
Definition about_components (evs : list (Event Instance))
    : list (Event Instance) :=
  List.filter (fun e => match e with Logged _ _ _ => false | _ => true end)
    evs.

(** The outcomes of a run and of the same run on instrumented components. *)
Definition same_outcome {A A' : Type} (R : A -> A' -> Prop)
    (r : result A) (r' : result A') : Prop :=
  match r, r' with
  | Ok a, Ok a' => R a a'
  | Throw e, Throw e' => e = e'
  | _, _ => False
  end.

(** [m'] does on instrumented components what [m] does on the components
    themselves, and the journal gets what [m] has on record of them. *)
Definition simulates {A A' : Type} (R : A -> A' -> Prop)
    (m : M (World := World) (Instance := Instance) A)
    (m' : M (World := World * list (Event Instance)) (Instance := Instance) A')
    : Prop :=
  forall s entries,
    final (m' (instrumented s entries))
    = instrumented (final (m s)) (entries ++ about_components (events (m s)))
    /\ events (m' (instrumented s entries)) = events (m s)
    /\ same_outcome R (outcome (m s)) (outcome (m' (instrumented s entries))).

End Instrumented.

(** ** A small application, for testing

    The world is the journal the components write, the instances are
    names. *)
Module Sample.

Definition Journal : Type := list string.

(** What the objects of the sample inherit. *)
#[global] Instance inherited : Prototype string :=
  fun name =>
    if String.eqb name "toString" then Some "Object.prototype.toString"
    else if String.eqb name "constructor" then Some "Object"
    else None.

Definition note (line : string) (r : result unit) (w : Journal)
    : Journal * result unit :=
  ((w ++ [line])%list, r).

(** A component that does what it is asked and writes it down. *)
Definition plain (name : string) (target : option string)
    : Container Journal string :=
  {| Component := {| observes := target; internal := false |};
     c_prepare := fun _ w => ((w ++ [name +:+ ".prepare"])%list, Ok name);
     c_start := fun _ _ => note (name +:+ ".start") (Ok tt);
     c_stop := fun _ _ => note (name +:+ ".stop") (Ok tt);
     c_dispatch := fun event _ => note (name +:+ "." +:+ event) (Ok tt) |}.

(** A component whose [start] throws. *)
Definition no_start (name : string) : Container Journal string :=
  {| Component := {| observes := None; internal := false |};
     c_prepare := fun _ w => ((w ++ [name +:+ ".prepare"])%list, Ok name);
     c_start := fun _ _ =>
       note (name +:+ ".start") (Throw (ComponentError (name +:+ " cannot start")));
     c_stop := fun _ _ => note (name +:+ ".stop") (Ok tt);
     c_dispatch := fun event _ => note (name +:+ "." +:+ event) (Ok tt) |}.

(** A component whose [stop] throws. *)
Definition no_stop (name : string) (target : option string)
    : Container Journal string :=
  {| Component := {| observes := target; internal := false |};
     c_prepare := fun _ w => ((w ++ [name +:+ ".prepare"])%list, Ok name);
     c_start := fun _ _ => note (name +:+ ".start") (Ok tt);
     c_stop := fun _ _ =>
       note (name +:+ ".stop") (Throw (ComponentError (name +:+ " cannot stop")));
     c_dispatch := fun event _ => note (name +:+ "." +:+ event) (Ok tt) |}.

Definition fresh : Atlas Journal string :=
  {| env := "test"; root := "/srv/app"; prepared := false; started := false;
     catalog_services := []; catalog_hooks := []; catalog_actions := [];
     observers := []; services := ∅; actions := ∅ |}.

Definition boot : State Journal string := {| atlas := fresh; world := [] |}.

Definition after {A : Type} (m : M (World := Journal) (Instance := string) A)
    (s : State Journal string) : State Journal string :=
  final (m s).

(** Hooks [watch] (an observer of the orchestrator) and [audit] (an
    observer of a service), services [db] then [http], action [mail]. *)
Definition app : State Journal string :=
  after (action "mail" (plain "mail" None))
    (after (service "http" (plain "http" None))
       (after (service "db" (plain "db" None))
          (after (hook "audit" (plain "audit" (Some "service:db")))
             (after (hook "watch" (plain "watch" (Some "atlas"))) boot)))).


(** The same with a second service that cannot be started. *)
Definition broken : State Journal string :=
  after (service "queue" (plain "queue" None))
    (after (service "http" (no_start "http"))
       (after (service "db" (plain "db" None))
          (after (hook "watch" (plain "watch" (Some "atlas"))) boot))).

(** A hook without [observes], registered after a service. *)
Definition careless : State Journal string :=
  after (hook "blind" (plain "blind" None))
    (after (hook "watch" (plain "watch" (Some "atlas")))
       (after (service "db" (plain "db" None)) boot)).

(** A component that throws when it is asked what [fails] tells. *)
Definition faulty (name : string) (target : option string)
    (fails : string -> bool) : Container Journal string :=
  let answer (what : string) : result unit :=
    if fails what then Throw (ComponentError (name +:+ " fails at " +:+ what))
    else Ok tt in
  {| Component := {| observes := target; internal := false |};
     c_prepare := fun _ w => ((w ++ [name +:+ ".prepare"])%list, Ok name);
     c_start := fun _ _ => note (name +:+ ".start") (answer "start");
     c_stop := fun _ _ => note (name +:+ ".stop") (answer "stop");
     c_dispatch := fun event _ => note (name +:+ "." +:+ event) (answer event) |}.

(** An observer [watch] that fails at one thing, a hook [audit], services
    [db] then [http], an action [mail]. *)
Definition touchy (what : string) : State Journal string :=
  after (action "mail" (plain "mail" None))
    (after (service "http" (plain "http" None))
       (after (service "db" (plain "db" None))
          (after (hook "audit" (plain "audit" (Some "service:db")))
             (after (hook "watch"
                       (faulty "watch" (Some "atlas") (String.eqb what)))
                boot)))).

(** The applications once started. *)
Definition running : State Journal string := after start app.


Definition running_touchy (what : string) : State Journal string :=
  after start (touchy what).

(** Services that cannot be stopped and a hook that fails at [afterStop]. *)
Definition doomed : State Journal string :=
  after (service "http" (no_stop "http" None))
    (after (service "db" (no_stop "db" None))
       (after (hook "watch"
                 (faulty "watch" (Some "atlas") (String.eqb "afterStop")))
          boot)).

Definition running_doomed : State Journal string := after start doomed.




(** The application once prepared. *)
Definition ready : State Journal string := after prepare app.

(** The modules of an application, as [init] gets them. *)
Definition module_hooks : Registry Journal string :=
  [("watch", plain "watch" (Some "atlas"));
   ("audit", plain "audit" (Some "service:db"))].

Definition module_services : Registry Journal string :=
  [("db", plain "db" None); ("http", plain "http" None)].

Definition module_actions : Registry Journal string :=
  [("mail", plain "mail" None)].

End Sample.

(** * Verification *)

Section Verification.

Context {World Instance : Type} `{!Prototype Instance}.

Implicit Types (s : State World Instance) (a : Atlas World Instance).
Implicit Types (evs : list (Event Instance)) (l : Registry World Instance).

Local Abbreviation Comp := (@M World Instance).

(** ** Records of runs *)

Lemma invoked_app p k evs evs' :
  invoked p k (evs ++ evs') = invoked p k evs ++ invoked p k evs'.
Proof. apply flat_map_app. Qed.

Lemma delivered_app event evs evs' :
  delivered event (evs ++ evs') = delivered event evs ++ delivered event evs'.
Proof. apply flat_map_app. Qed.

Lemma thrown_app p k evs evs' :
  thrown p k (evs ++ evs') = thrown p k evs ++ thrown p k evs'.
Proof. apply flat_map_app. Qed.

Lemma rejected_app event evs evs' :
  rejected event (evs ++ evs') = rejected event evs ++ rejected event evs'.
Proof. apply flat_map_app. Qed.

Lemma flat_map_nil {A B : Type} (f : A -> list B) (xs : list A) :
  Forall (fun x => f x = []) xs -> flat_map f xs = [].
Proof.
  induction 1 as [|x xs Hx _ IH]; simpl; [reflexivity|].
  now rewrite Hx, IH.
Qed.

Lemma quiet_invoked p k evs (Q : Event Instance -> bool) :
  Forall (fun e => Q e = true) evs ->
  (forall alias v err, Q (Invoked p k alias v err) = false) ->
  invoked p k evs = [].
Proof.
  intros HQ Hp. apply flat_map_nil. eapply Forall_impl; [exact HQ|].
  intros [p' k' alias v err| |] He; simpl; try reflexivity.
  destruct (Phase_eqb p p' && Kind_eqb k k') eqn:E; [|reflexivity].
  destruct p, p'; try discriminate; destruct k, k'; try discriminate;
    now rewrite Hp in He.
Qed.

Lemma quiet_thrown p k evs (Q : Event Instance -> bool) :
  Forall (fun e => Q e = true) evs ->
  (forall alias v err, Q (Invoked p k alias v err) = false) ->
  thrown p k evs = [].
Proof.
  intros HQ Hp. apply flat_map_nil. eapply Forall_impl; [exact HQ|].
  intros [p' k' alias v [err|]| |] He; simpl; try reflexivity.
  destruct (Phase_eqb p p' && Kind_eqb k k') eqn:E; [|reflexivity].
  destruct p, p'; try discriminate; destruct k, k'; try discriminate;
    now rewrite Hp in He.
Qed.

Lemma quiet_delivered event evs (Q : Event Instance -> bool) :
  Forall (fun e => Q e = true) evs ->
  (forall alias err, Q (Dispatched event alias err) = false) ->
  delivered event evs = [].
Proof.
  intros HQ Hp. apply flat_map_nil. eapply Forall_impl; [exact HQ|].
  intros [|event' alias err|] He; simpl; try reflexivity.
  destruct (String.eqb event event') eqn:E; [|reflexivity].
  apply String.eqb_eq in E; subst. now rewrite Hp in He.
Qed.

Lemma quiet_rejected event evs (Q : Event Instance -> bool) :
  Forall (fun e => Q e = true) evs ->
  (forall alias err, Q (Dispatched event alias err) = false) ->
  rejected event evs = [].
Proof.
  intros HQ Hp. apply flat_map_nil. eapply Forall_impl; [exact HQ|].
  intros [|event' alias [err|]|] He; simpl; try reflexivity.
  destruct (String.eqb event event') eqn:E; [|reflexivity].
  apply String.eqb_eq in E; subst. now rewrite Hp in He.
Qed.

(** ** The two generic properties of computations *)

Lemma bind_ok {A B : Type} (m : Comp A) (f : A -> Comp B) s x :
  outcome (m s) = Ok x ->
  bind m f s
  = {| final := final (f x (final (m s)));
       events := events (m s) ++ events (f x (final (m s)));
       outcome := outcome (f x (final (m s))) |}.
Proof. intros H. unfold bind. now rewrite H. Qed.

Lemma bind_throw {A B : Type} (m : Comp A) (f : A -> Comp B) s e :
  outcome (m s) = Throw e ->
  bind m f s
  = {| final := final (m s); events := events (m s); outcome := Throw e |}.
Proof. intros H. unfold bind. now rewrite H. Qed.

Lemma bind_this {B : Type} (f : _ -> Comp B) s : bind this f s = f (atlas s) s.
Proof. unfold bind; simpl. now destruct (f (atlas s) s). Qed.

Lemma bind_subject_this {B : Type} (f : _ -> Comp B) s :
  bind subject_this f s = f (Some (view (atlas s))) s.
Proof. unfold bind; simpl. now destruct (f _ s). Qed.

Lemma bind_modify {B : Type} g (f : _ -> Comp B) s :
  bind (modify g) f s = f tt {| atlas := g (atlas s); world := world s |}.
Proof. unfold bind; simpl. now destruct (f tt _). Qed.

Lemma bind_ret {A B : Type} (x : A) (f : A -> Comp B) s : bind (ret x) f s = f x s.
Proof. unfold bind; simpl. now destruct (f x s). Qed.

Lemma bind_silent {A B : Type} (m : Comp A) (f : A -> Comp B) s s' x :
  m s = {| final := s'; events := []; outcome := Ok x |} ->
  bind m f s = f x s'.
Proof. intros H. unfold bind. rewrite H; simpl. now destruct (f x s'). Qed.

Lemma bind_log {B : Type} lvl err msg (f : _ -> Comp B) s :
  bind (log lvl err msg) f s
  = {| final := final (f tt s); events := Logged lvl msg err :: events (f tt s);
       outcome := outcome (f tt s) |}.
Proof. reflexivity. Qed.

Lemma emits_weaken {A : Type} (Q Q' : Event Instance -> Prop) (m : Comp A) :
  (forall e, Q e -> Q' e) -> emits Q m -> emits Q' m.
Proof. intros HQ Hm s. eapply Forall_impl; [apply Hm | exact HQ]. Qed.

Lemma emits_ret {A : Type} Q (x : A) : emits Q (ret x : Comp A).
Proof. intros s. constructor. Qed.

Lemma emits_throw {A : Type} Q e : emits Q (throw e : Comp A).
Proof. intros s. constructor. Qed.

Lemma emits_this Q : emits Q (this : Comp _).
Proof. intros s. constructor. Qed.

Lemma emits_subject_this Q : emits Q (subject_this : Comp _).
Proof. intros s. constructor. Qed.

Lemma emits_modify Q f : emits Q (modify f : Comp _).
Proof. intros s. constructor. Qed.

Lemma emits_log (Q : Event Instance -> Prop) lvl err msg :
  Q (Logged lvl msg err) -> emits Q (log lvl err msg : Comp _).
Proof. intros H s. simpl. repeat constructor. exact H. Qed.

Lemma emits_bind {A B : Type} Q (m : Comp A) (f : A -> Comp B) :
  emits Q m -> (forall x, emits Q (f x)) -> emits Q (bind m f).
Proof.
  intros Hm Hf s. unfold bind. specialize (Hm s).
  destruct (outcome (m s)); simpl; [|exact Hm].
  apply Forall_app. split; [exact Hm | apply Hf].
Qed.

Lemma emits_try_catch {A : Type} Q (m : Comp A) h :
  emits Q m -> (forall e, emits Q (h e)) -> emits Q (try_catch m h).
Proof.
  intros Hm Hh s. unfold try_catch. specialize (Hm s).
  destruct (outcome (m s)); simpl; [exact Hm|].
  apply Forall_app. split; [exact Hm | apply Hh].
Qed.

Lemma emits_for_of {A : Type} Q (xs : list A) body :
  (forall x, emits Q (body x)) -> emits Q (for_of xs body : Comp _).
Proof.
  intros Hb. induction xs as [|x xs IH]; simpl.
  - apply emits_ret.
  - apply emits_bind; [apply Hb | intros _; exact IH].
Qed.

Lemma emits_Promise_all {A : Type} Q (calls : list (Comp A)) :
  Forall (emits Q) calls -> emits Q (Promise_all calls).
Proof.
  induction 1 as [|c calls Hc _ IH]; intros s; simpl.
  - constructor.
  - apply Forall_app. split; [apply Hc | apply IH].
Qed.

Lemma emits_Promise_all_map {A B : Type} Q (f : B -> Comp A) (xs : list B) :
  (forall x, emits Q (f x)) -> emits Q (Promise_all (map f xs)).
Proof.
  intros Hf. apply emits_Promise_all. apply Forall_map.
  apply Forall_forall. intros x _. apply Hf.
Qed.

Lemma emits_invoke {A : Type} (Q : Event Instance -> Prop) p k alias
    (method : View Instance -> World -> World * result A) :
  (forall v err, Q (Invoked p k alias v err)) -> emits Q (invoke p k alias method).
Proof. intros H s. simpl. repeat constructor. apply H. Qed.

Lemma emits_dispatch (Q : Event Instance -> Prop) event subject l :
  (forall alias err, Q (Dispatched event alias err)) ->
  emits Q (dispatch event subject l : Comp _).
Proof.
  intros H. induction l as [|[alias c] l IH]; simpl.
  - apply emits_ret.
  - apply emits_bind; [|intros _; exact IH].
    intros s. simpl. repeat constructor. apply H.
Qed.

Lemma preserves_ret {A : Type} P (x : A) : preserves P (ret x : Comp A).
Proof. intros s H. exact H. Qed.

Lemma preserves_throw {A : Type} P e : preserves P (throw e : Comp A).
Proof. intros s H. exact H. Qed.

Lemma preserves_this P : preserves P (this : Comp _).
Proof. intros s H. exact H. Qed.

Lemma preserves_subject_this P : preserves P (subject_this : Comp _).
Proof. intros s H. exact H. Qed.

Lemma preserves_log P lvl err msg : preserves P (log lvl err msg : Comp _).
Proof. intros s H. exact H. Qed.

Lemma preserves_modify (P : Atlas World Instance -> Prop) f :
  (forall a, P a -> P (f a)) -> preserves P (modify f : Comp _).
Proof. intros Hf s H. simpl. apply Hf, H. Qed.

Lemma preserves_bind {A B : Type} P (m : Comp A) (f : A -> Comp B) :
  preserves P m -> (forall x, preserves P (f x)) -> preserves P (bind m f).
Proof.
  intros Hm Hf s H. unfold bind. specialize (Hm s H).
  destruct (outcome (m s)); simpl; [apply Hf, Hm | exact Hm].
Qed.

Lemma preserves_try_catch {A : Type} P (m : Comp A) h :
  preserves P m -> (forall e, preserves P (h e)) -> preserves P (try_catch m h).
Proof.
  intros Hm Hh s H. unfold try_catch. specialize (Hm s H).
  destruct (outcome (m s)); simpl; [exact Hm | apply Hh, Hm].
Qed.

Lemma preserves_for_of {A : Type} P (xs : list A) body :
  (forall x, preserves P (body x)) -> preserves P (for_of xs body : Comp _).
Proof.
  intros Hb. induction xs as [|x xs IH]; simpl.
  - apply preserves_ret.
  - apply preserves_bind; [apply Hb | intros _; exact IH].
Qed.

Lemma preserves_for_of_in {A : Type} P (xs : list A) body :
  (forall x, In x xs -> preserves P (body x)) ->
  preserves P (for_of xs body : Comp _).
Proof.
  intros H. induction xs as [|x xs IH]; simpl; [apply preserves_ret|].
  apply preserves_bind; [apply H; now left | intros _].
  apply IH. intros y Hy. apply H. now right.
Qed.

Lemma preserves_Promise_all {A : Type} P (calls : list (Comp A)) :
  Forall (preserves P) calls -> preserves P (Promise_all calls).
Proof.
  induction 1 as [|c calls Hc _ IH]; intros s H; simpl.
  - exact H.
  - apply IH, Hc, H.
Qed.

Lemma preserves_Promise_all_map {A B : Type} P (f : B -> Comp A) (xs : list B) :
  (forall x, preserves P (f x)) -> preserves P (Promise_all (map f xs)).
Proof.
  intros Hf. apply preserves_Promise_all. apply Forall_map.
  apply Forall_forall. intros x _. apply Hf.
Qed.

Lemma preserves_invoke {A : Type} P p k alias
    (method : View Instance -> World -> World * result A) :
  preserves P (invoke p k alias method).
Proof. intros s H. exact H. Qed.

Lemma preserves_dispatch P event subject l :
  preserves P (dispatch event subject l : Comp _).
Proof.
  induction l as [|[alias c] l IH]; simpl.
  - apply preserves_ret.
  - apply preserves_bind; [|intros _; exact IH].
    intros s H. exact H.
Qed.

(** ** Dispatch *)

Lemma dispatch_atlas event subject l s :
  atlas (final (dispatch event subject l s)) = atlas s.
Proof. now apply (preserves_dispatch (fun a => a = atlas s)). Qed.

Lemma dispatch_record event subject l s :
  match outcome (dispatch event subject l s) with
  | Ok _ =>
      delivered event (events (dispatch event subject l s)) = keys l
      /\ rejected event (events (dispatch event subject l s)) = []
  | Throw e => rejected event (events (dispatch event subject l s)) = [e]
  end.
Proof.
  revert s. induction l as [|[alias c] l IH]; intros s; simpl.
  - split; reflexivity.
  - unfold bind; simpl.
    destruct (c_dispatch c event subject (world s)) as [w [[]|e]]; simpl.
    + rewrite String.eqb_refl.
      match goal with |- context [dispatch event subject l ?s'] =>
        specialize (IH s'); destruct (outcome (dispatch event subject l s'))
      end; simpl.
      * destruct IH as [-> ->]. split; reflexivity.
      * exact IH.
    + now rewrite String.eqb_refl.
Qed.

Lemma dispatch_resolved event subject l s :
  is_ok (dispatch event subject l s) = true ->
  delivered event (events (dispatch event subject l s)) = keys l
  /\ rejected event (events (dispatch event subject l s)) = [].
Proof.
  unfold is_ok. pose proof (dispatch_record event subject l s) as H.
  destruct (outcome (dispatch event subject l s)); [intros _; exact H | discriminate].
Qed.

Lemma dispatch_prefix event subject l s :
  delivered event (events (dispatch event subject l s)) `prefix_of` keys l.
Proof.
  revert s. induction l as [|[alias c] l IH]; intros s; simpl.
  - reflexivity.
  - unfold bind; simpl.
    destruct (c_dispatch c event subject (world s)) as [w [[]|e]]; simpl;
      rewrite String.eqb_refl; simpl.
    + apply prefix_cons, IH.
    + apply prefix_cons, prefix_nil.
Qed.

Lemma dispatch_nil event subject s :
  dispatch event subject [] s
  = {| final := s; events := []; outcome := Ok tt |}.
Proof. reflexivity. Qed.

(** ** Joined calls *)

Lemma one_call_stop_container k :
  one_call (World := World) (Instance := Instance) Stop k (stop_container k).
Proof. intros [alias c] s. reflexivity. Qed.

Lemma one_call_start_container k :
  one_call (World := World) (Instance := Instance) Start k (start_container k).
Proof. intros [alias c] s. reflexivity. Qed.

Lemma one_call_prepare_hook :
  one_call (World := World) (Instance := Instance) Prepare Hook prepare_hook.
Proof. intros [alias c] s. reflexivity. Qed.

Lemma one_call_prepare_container k :
  one_call (World := World) (Instance := Instance) Prepare k
    (prepare_container k).
Proof. intros [alias c] s. reflexivity. Qed.

Lemma Promise_all_invoked {A : Type} p k (f : _ -> Comp A) l s :
  one_call p k f ->
  invoked p k (events (Promise_all (map f l) s)) = keys l.
Proof.
  intros Hf. revert s. induction l as [|x l IH]; intros s; simpl; [reflexivity|].
  rewrite invoked_app, IH, (Hf x s). simpl.
  destruct p, k; reflexivity.
Qed.

Lemma Promise_all_thrown {A : Type} p k (f : _ -> Comp A) l s :
  one_call p k f ->
  match outcome (Promise_all (map f l) s) with
  | Ok _ => thrown p k (events (Promise_all (map f l) s)) = []
  | Throw e => exists rest, thrown p k (events (Promise_all (map f l) s)) = e :: rest
  end.
Proof.
  intros Hf. revert s. induction l as [|x l IH]; intros s; simpl; [reflexivity|].
  rewrite thrown_app, (Hf x s). specialize (IH (final (f x s))).
  destruct (outcome (f x s)) as [v|e]; simpl.
  - destruct (outcome (Promise_all (map f l) (final (f x s)))); exact IH.
  - replace (Phase_eqb p p && Kind_eqb k k) with true by (destruct p, k; reflexivity).
    simpl. eauto.
Qed.

Lemma Promise_all_app {A : Type} (c1 c2 : list (Comp A)) s :
  final (Promise_all (c1 ++ c2) s)
  = final (Promise_all c2 (final (Promise_all c1 s)))
  /\ events (Promise_all (c1 ++ c2) s)
     = events (Promise_all c1 s)
       ++ events (Promise_all c2 (final (Promise_all c1 s)))
  /\ failure (outcome (Promise_all (c1 ++ c2) s))
     = match failure (outcome (Promise_all c1 s)) with
       | Some e => Some e
       | None => failure (outcome (Promise_all c2 (final (Promise_all c1 s))))
       end.
Proof.
  revert s. induction c1 as [|c c1 IH]; intros s; simpl.
  - repeat split; reflexivity.
  - destruct (IH (final (c s))) as (-> & -> & Hf). repeat split.
    + now rewrite app_assoc.
    + destruct (outcome (c s)); simpl; [|reflexivity].
      destruct (outcome (Promise_all (c1 ++ c2) (final (c s))));
        destruct (outcome (Promise_all c1 (final (c s)))); simpl in *;
        try congruence;
        destruct (outcome (Promise_all c2 _)); simpl in *; congruence.
Qed.

(** ** The joined preparations that publish *)

(** The calls that [map] makes are the calls of a join, and the promises
    it gets are their outcomes. *)
Lemma Array_map_settled {X A : Type} (f : X -> Comp A) (xs : list X) s :
  exists promises,
    Array_map (fun x => settled (f x)) xs s
    = {| final := final (Promise_all (map f xs) s);
         events := events (Promise_all (map f xs) s);
         outcome := Ok promises |}
    /\ length promises = length xs
    /\ rejection promises = failure (outcome (Promise_all (map f xs) s)).
Proof.
  revert s. induction xs as [|x xs IH]; intros s.
  - exists []. repeat split.
  - destruct (IH (final (f x s))) as (promises & E & Hl & Hr).
    exists (outcome (f x s) :: promises).
    cbn [Array_map map Promise_all length].
    rewrite (bind_ok _ _ _ (outcome (f x s))) by reflexivity.
    cbn [settled final events outcome].
    rewrite (bind_ok _ _ _ promises) by now rewrite E.
    rewrite E. cbn [final events outcome ret]. rewrite app_nil_r.
    repeat split; [now rewrite Hl|].
    cbn [rejection]. destruct (outcome (f x s)); [|reflexivity].
    rewrite Hr. now destruct (outcome (Promise_all (map f xs) (final (f x s)))).
Qed.

Lemma expose_awaited_ok k x i s :
  expose_awaited k x (Ok i) s
  = {| final := {| atlas := exposed k (fst x) i (atlas s); world := world s |};
       events := []; outcome := Ok tt |}.
Proof. unfold expose_awaited. cbn [await]. now rewrite bind_ret. Qed.

Lemma expose_awaited_throw k x e s :
  expose_awaited k x (Throw e) s
  = {| final := s; events := []; outcome := Throw e |}.
Proof. reflexivity. Qed.

(** What follows the [await]s: the instances are published, nothing is
    called, and the join rejects with the first rejection. *)
Lemma expose_awaited_run (P : Atlas World Instance -> Prop) k l promises s :
  length promises = length l ->
  events (Promise_all (zip_with (expose_awaited k) l promises) s) = []
  /\ world (final (Promise_all (zip_with (expose_awaited k) l promises) s))
     = world s
  /\ failure (outcome (Promise_all (zip_with (expose_awaited k) l promises) s))
     = rejection promises
  /\ ((forall a alias i, In alias (keys l) -> P a -> P (exposed k alias i a)) ->
      P (atlas s) ->
      P (atlas (final (Promise_all (zip_with (expose_awaited k) l promises) s)))).
Proof.
  revert promises s.
  induction l as [|[alias c] l IH]; intros [|promise promises] s Hl;
    try discriminate; [now repeat split|].
  injection Hl as Hl. cbn [zip_with Promise_all rejection].
  destruct promise as [i|e].
  - rewrite expose_awaited_ok. cbn [fst final events outcome app].
    destruct (IH promises
                {| atlas := exposed k alias i (atlas s); world := world s |} Hl)
      as (-> & -> & Hf & HP).
    repeat split.
    + destruct (outcome (Promise_all _ _)); exact Hf.
    + intros Hc Hs. apply HP.
      * intros a x j Hx. apply Hc. now right.
      * apply Hc; [now left | exact Hs].
  - rewrite expose_awaited_throw. cbn [final events outcome app].
    destruct (IH promises s Hl) as (-> & -> & _ & HP).
    repeat split. intros Hc Hs. apply HP; [|exact Hs].
    intros a x j Hx. apply Hc. now right.
Qed.

Lemma prepare_exposed_run k l s :
  events (prepare_exposed k l s)
  = events (Promise_all (map (prepare_container k) l) s)
  /\ world (final (prepare_exposed k l s))
     = world (final (Promise_all (map (prepare_container k) l) s))
  /\ failure (outcome (prepare_exposed k l s))
     = failure (outcome (Promise_all (map (prepare_container k) l) s)).
Proof.
  unfold prepare_exposed.
  destruct (Array_map_settled (prepare_container k) l s)
    as (promises & E & Hl & Hr).
  rewrite (bind_ok _ _ _ promises) by now rewrite E.
  rewrite E. cbn [final events outcome].
  destruct (expose_awaited_run (fun _ => True) k l promises
              (final (Promise_all (map (prepare_container k) l) s)) Hl)
    as (-> & -> & -> & _).
  rewrite app_nil_r. now repeat split.
Qed.

Lemma prepare_exposed_keeps (P : Atlas World Instance -> Prop) k l s :
  (forall a alias i, In alias (keys l) -> P a -> P (exposed k alias i a)) ->
  P (atlas s) -> P (atlas (final (prepare_exposed k l s))).
Proof.
  intros Hc Hs. unfold prepare_exposed.
  destruct (Array_map_settled (prepare_container k) l s)
    as (promises & E & Hl & Hr).
  rewrite (bind_ok _ _ _ promises) by now rewrite E.
  rewrite E. cbn [final events outcome].
  apply expose_awaited_run; [exact Hl | exact Hc |].
  apply (preserves_Promise_all_map P); [|exact Hs].
  intros x. apply preserves_invoke.
Qed.

Lemma prepare_exposed_invoked k l s :
  invoked Prepare k (events (prepare_exposed k l s)) = keys l.
Proof.
  destruct (prepare_exposed_run k l s) as (-> & _).
  apply Promise_all_invoked, one_call_prepare_container.
Qed.

Lemma prepare_exposed_thrown k l s :
  match outcome (prepare_exposed k l s) with
  | Ok _ => thrown Prepare k (events (prepare_exposed k l s)) = []
  | Throw e =>
      exists rest, thrown Prepare k (events (prepare_exposed k l s)) = e :: rest
  end.
Proof.
  destruct (prepare_exposed_run k l s) as (-> & _ & Hf).
  pose proof (Promise_all_thrown Prepare k (prepare_container k) l s
                (one_call_prepare_container k)) as H.
  destruct (outcome (prepare_exposed k l s));
    destruct (outcome (Promise_all _ _)); cbn in Hf; try discriminate;
    [exact H | now injection Hf as ->].
Qed.

Lemma emits_prepare_exposed (Q : Event Instance -> Prop) k l :
  (forall alias v err, Q (Invoked Prepare k alias v err)) ->
  emits Q (prepare_exposed k l : Comp _).
Proof.
  intros H s. destruct (prepare_exposed_run k l s) as (-> & _).
  apply emits_Promise_all_map. intros x. now apply emits_invoke.
Qed.

(** ** The loops of [stop] *)

Lemma set_services_id a : set_services (services a) a = a.
Proof. now destruct a. Qed.

Lemma set_actions_id a : set_actions (actions a) a = a.
Proof. now destruct a. Qed.

Lemma stop_service_run alias c err s :
  stop_service (alias, c) err s
  = let a' := set_services (delete alias (services (atlas s))) (atlas s) in
    let wr := c_stop c (view a') (property (services (atlas s)) alias) (world s) in
    {| final := {| atlas := a'; world := fst wr |};
       events := [Invoked Stop Service alias (view a') (failure (snd wr))];
       outcome := Ok (match snd wr with Ok _ => err | Throw e => Some e end) |}.
Proof.
  unfold stop_service, try_catch, bind, this, modify, invoke, ret; simpl.
  destruct (c_stop c _ _ (world s)) as [w [[]|e]]; reflexivity.
Qed.

Lemma stop_services_cons alias c l err s :
  stop_services ((alias, c) :: l) err s
  = let r := stop_service (alias, c) err s in
    let r' :=
      stop_services l
        (match outcome r with Ok e => e | Throw _ => None end) (final r) in
    {| final := final r'; events := events r ++ events r';
       outcome := outcome r' |}.
Proof.
  cbn [stop_services]. unfold bind. rewrite stop_service_run. reflexivity.
Qed.

Lemma stop_services_run l err s :
  atlas (final (stop_services l err s))
  = set_services (unpublish (keys l) (services (atlas s))) (atlas s)
  /\ invoked Stop Service (events (stop_services l err s)) = keys l
  /\ outcome (stop_services l err s)
     = Ok (match last (thrown Stop Service (events (stop_services l err s))) with
           | Some e => Some e
           | None => err
           end).
Proof.
  revert err s. induction l as [|[alias c] l IH]; intros err s.
  - simpl. rewrite set_services_id. auto.
  - rewrite stop_services_cons, stop_service_run. cbv zeta.
    cbn [final events outcome].
    match goal with |- context [stop_services l ?e ?s'] =>
      destruct (IH e s') as (Ha & Hi & Ho)
    end.
    rewrite Ha, Ho. cbn [atlas]. repeat split.
    + rewrite invoked_app, Hi. reflexivity.
    + rewrite thrown_app.
      destruct (c_stop c _ _ (world s)) as [w [[]|e]];
        cbn [snd failure thrown flat_map app].
      * reflexivity.
      * cbn [Phase_eqb Kind_eqb andb app].
        rewrite last_cons. now destruct (last _).
Qed.

Lemma stop_services_emits (Q : Event Instance -> Prop) l err :
  (forall alias v e, v_services v !! alias = None ->
                     Q (Invoked Stop Service alias v e)) ->
  emits Q (stop_services l err : Comp _).
Proof.
  intros HQ. revert err.
  induction l as [|[alias c] l IH]; intros err; cbn [stop_services].
  - apply emits_ret.
  - apply emits_bind; [|intros e; apply IH].
    intros s. rewrite stop_service_run. cbn [events].
    repeat constructor. apply HQ. cbn. apply lookup_delete_eq.
Qed.

Lemma unregister_run l s :
  for_of l unregister_action s
  = {| final := {| atlas := set_actions (unpublish (keys l) (actions (atlas s)))
                              (atlas s);
                   world := world s |};
       events := []; outcome := Ok tt |}.
Proof.
  revert s. induction l as [|[alias c] l IH]; intros s.
  - simpl. rewrite set_actions_id. now destruct s.
  - cbn [for_of]. unfold bind at 1. simpl. now rewrite IH.
Qed.

(** ** The shape of a run of [stop] *)

Lemma stop_components_atlas s : atlas (final (stop_components s)) = atlas s.
Proof.
  transitivity (atlas (final (stop_beforeStop s)));
    [|apply dispatch_atlas].
  unfold stop_components.
  apply (preserves_Promise_all (fun a => a = _)); [|reflexivity].
  apply Forall_app; split; apply Forall_map, Forall_forall;
    intros x _ s' H; exact H.
Qed.

Lemma stop_loop_atlas s :
  atlas (final (stop_loop s))
  = set_services (unpublish (rev (keys (catalog_services (atlas s))))
                    (services (atlas s))) (atlas s).
Proof.
  unfold stop_loop.
  destruct (stop_services_run (rev (catalog_services (atlas s))) None
              (final (stop_components s))) as (-> & _).
  rewrite stop_components_atlas. unfold keys. now rewrite map_rev.
Qed.

Lemma stop_run s :
  stop s =
  match outcome (stop_beforeStop s) with
  | Throw e =>
      {| final := final (stop_beforeStop s);
         events := events (stop_beforeStop s); outcome := Throw e |}
  | Ok _ =>
      match outcome (stop_components s) with
      | Throw e =>
          {| final := final (stop_components s);
             events := events (stop_beforeStop s) ++ events (stop_components s);
             outcome := Throw e |}
      | Ok _ =>
          match outcome (stop_afterStop s) with
          | Throw e =>
              {| final := final (stop_afterStop s);
                 events := events (stop_beforeStop s)
                           ++ events (stop_components s)
                           ++ events (stop_loop s) ++ events (stop_afterStop s);
                 outcome := Throw e |}
          | Ok _ =>
              {| final := final (stop_afterStop s);
                 events := events (stop_beforeStop s)
                           ++ events (stop_components s)
                           ++ events (stop_loop s) ++ events (stop_afterStop s)
                           ++ [Logged Info "atlas:stopped" None];
                 outcome :=
                   rethrown (last (thrown Stop Service (events (stop_loop s))))
                     (stopped (atlas s)) |}
          end
      end
  end.
Proof.
  unfold stop. rewrite bind_this, bind_subject_this.
  pose proof (stop_loop_atlas s) as Hloop.
  pose proof (stop_services_run (rev (catalog_services (atlas s))) None
                (final (stop_components s))) as (_ & _ & E3).
  fold (stop_loop s) in E3.
  unfold stop_afterStop.
  destruct (outcome (stop_beforeStop s)) as [[]|e1] eqn:E1;
    unfold stop_beforeStop in E1;
    [rewrite (bind_ok _ _ _ _ E1) | now rewrite (bind_throw _ _ _ _ E1)].
  destruct (outcome (stop_components s)) as [u|e2] eqn:E2;
    unfold stop_components, stop_beforeStop in E2;
    [rewrite (bind_ok _ _ _ _ E2) | now rewrite (bind_throw _ _ _ _ E2)].
  unfold stop_loop, stop_components, stop_beforeStop in E3.
  rewrite (bind_ok _ _ _ _ E3). cbn [final events outcome].
  rewrite (bind_silent _ _ _ _ _ (unregister_run _ _)).
  rewrite !bind_modify. cbn [atlas world].
  fold (stop_beforeStop s). fold (stop_components s). fold (stop_loop s).
  rewrite Hloop.
  change (set_prepared false _) with (stopped (atlas s)).
  set (s5 := {| atlas := stopped (atlas s); world := world (final (stop_loop s)) |}).
  destruct (outcome (dispatch "afterStop" None (catalog_hooks (atlas s)) s5))
    as [[]|e4] eqn:E4;
    [rewrite (bind_ok _ _ _ _ E4) | now rewrite (bind_throw _ _ _ _ E4)].
  rewrite bind_log. cbn [final events outcome].
  assert (Ha : atlas (final (dispatch "afterStop" None (catalog_hooks (atlas s)) s5))
               = stopped (atlas s)) by apply dispatch_atlas.
  unfold rethrown.
  destruct (last (thrown Stop Service (events (stop_loop s)))) as [e|];
    [destruct (is_truthy e)|];
    cbn [throw this final events outcome]; rewrite ?Ha, ?app_nil_r; reflexivity.
Qed.

(** ** What each stretch of [stop] leaves on record *)

Lemma dispatch_kind event subject l s :
  Forall (fun e => is_delivery event e = true)
    (events (dispatch event subject l s)).
Proof. apply emits_dispatch. intros; simpl. apply String.eqb_refl. Qed.

Lemma Promise_all_kind {A : Type} p k (f : _ -> Comp A) l s :
  one_call p k f ->
  Forall (fun e => is_call p k e = true) (events (Promise_all (map f l) s)).
Proof.
  intros Hf. apply emits_Promise_all_map. intros x s'. rewrite (Hf x s').
  repeat constructor. simpl. destruct p, k; reflexivity.
Qed.

Lemma stop_services_kind l err s :
  Forall (fun e => is_call Stop Service e = true)
    (events (stop_services l err s)).
Proof. apply stop_services_emits. reflexivity. Qed.

Lemma stop_beforeStop_kind s :
  Forall (fun e => is_delivery "beforeStop" e = true) (events (stop_beforeStop s)).
Proof. apply dispatch_kind. Qed.

Lemma stop_hooks_kind s :
  Forall (fun e => is_call Stop Hook e = true) (events (stop_hooks s)).
Proof. apply Promise_all_kind, one_call_stop_container. Qed.

Lemma stop_actions_kind s :
  Forall (fun e => is_call Stop Action e = true) (events (stop_actions s)).
Proof. apply Promise_all_kind, one_call_stop_container. Qed.

Lemma stop_loop_kind s :
  Forall (fun e => is_call Stop Service e = true) (events (stop_loop s)).
Proof. apply stop_services_kind. Qed.

Lemma stop_afterStop_kind s :
  Forall (fun e => is_delivery "afterStop" e = true) (events (stop_afterStop s)).
Proof. apply dispatch_kind. Qed.

Lemma stop_components_split s :
  final (stop_components s) = final (stop_actions s)
  /\ events (stop_components s) = events (stop_hooks s) ++ events (stop_actions s)
  /\ failure (outcome (stop_components s))
     = match failure (outcome (stop_hooks s)) with
       | Some e => Some e
       | None => failure (outcome (stop_actions s))
       end.
Proof. apply Promise_all_app. Qed.

End Verification.

(** Projections of the record of a stretch that cannot hold what is looked
    for are rewritten to the empty list. *)
Ltac kind_of r k :=
  lazymatch r with
  | stop_beforeStop ?s => k (stop_beforeStop_kind s)
  | stop_hooks ?s => k (stop_hooks_kind s)
  | stop_actions ?s => k (stop_actions_kind s)
  | stop_loop ?s => k (stop_loop_kind s)
  | stop_afterStop ?s => k (stop_afterStop_kind s)
  | dispatch ?e ?sub ?l ?s => k (dispatch_kind e sub l s)
  | stop_services ?l ?e ?s => k (stop_services_kind l e s)
  end.

Ltac kind_fact r k :=
  first [ match goal with H : Forall _ (events r) |- _ => k H end
        | kind_of r k ].

Ltac quiet :=
  repeat match goal with
  | |- context [invoked ?p ?k (events ?r)] =>
      kind_fact r ltac:(fun H =>
        rewrite (quiet_invoked p k (events r) _ H) by (intros; reflexivity))
  | |- context [thrown ?p ?k (events ?r)] =>
      kind_fact r ltac:(fun H =>
        rewrite (quiet_thrown p k (events r) _ H) by (intros; reflexivity))
  | |- context [delivered ?ev (events ?r)] =>
      kind_fact r ltac:(fun H =>
        rewrite (quiet_delivered ev (events r) _ H) by (intros; reflexivity))
  | |- context [rejected ?ev (events ?r)] =>
      kind_fact r ltac:(fun H =>
        rewrite (quiet_rejected ev (events r) _ H) by (intros; reflexivity))
  end.

Ltac project :=
  rewrite ?invoked_app, ?thrown_app, ?delivered_app, ?rejected_app;
  quiet; cbn [app]; rewrite ?app_nil_r.

Section Stop.

Context {World Instance : Type} `{!Prototype Instance}.

Implicit Types (s : State World Instance) (a : Atlas World Instance).
Implicit Types (evs : list (Event Instance)) (l : Registry World Instance).

Lemma stop_hooks_record s :
  invoked Stop Hook (events (stop_hooks s)) = keys (catalog_hooks (atlas s))
  /\ match outcome (stop_hooks s) with
     | Ok _ => thrown Stop Hook (events (stop_hooks s)) = []
     | Throw e => exists rest, thrown Stop Hook (events (stop_hooks s)) = e :: rest
     end.
Proof.
  split; [apply Promise_all_invoked | apply Promise_all_thrown];
    apply one_call_stop_container.
Qed.

Lemma stop_actions_record s :
  invoked Stop Action (events (stop_actions s)) = keys (catalog_actions (atlas s))
  /\ match outcome (stop_actions s) with
     | Ok _ => thrown Stop Action (events (stop_actions s)) = []
     | Throw e => exists rest, thrown Stop Action (events (stop_actions s)) = e :: rest
     end.
Proof.
  split; [apply Promise_all_invoked | apply Promise_all_thrown];
    apply one_call_stop_container.
Qed.

Lemma stop_loop_record s :
  invoked Stop Service (events (stop_loop s))
  = rev (keys (catalog_services (atlas s))).
Proof.
  unfold stop_loop.
  destruct (stop_services_run (rev (catalog_services (atlas s))) None
              (final (stop_components s))) as (_ & -> & _).
  unfold keys. now rewrite map_rev.
Qed.

(** A run of [stop] that gets to the loop over the services. *)
Lemma stop_completed s :
  completes_stop (events (stop s)) ->
  final (stop s) = final (stop_afterStop s)
  /\ events (stop s)
     = events (stop_beforeStop s) ++ events (stop_hooks s)
       ++ events (stop_actions s) ++ events (stop_loop s)
       ++ events (stop_afterStop s)
       ++ (if is_ok (stop_afterStop s)
           then [Logged Info "atlas:stopped" None] else [])
  /\ outcome (stop s)
     = match outcome (stop_afterStop s) with
       | Throw e => Throw e
       | Ok _ =>
           rethrown (last (thrown Stop Service (events (stop_loop s))))
             (stopped (atlas s))
       end
  /\ is_ok (stop_beforeStop s) = true
  /\ is_ok (stop_hooks s) = true /\ is_ok (stop_actions s) = true.
Proof.
  unfold completes_stop. rewrite stop_run. unfold is_ok.
  pose proof (dispatch_record "beforeStop" (Some (view (atlas s)))
                (observers (atlas s)) s) as H1.
  fold (stop_beforeStop s) in H1.
  destruct (stop_components_split s) as (Hf & He & Ho).
  destruct (stop_hooks_record s) as (_ & Hh).
  destruct (stop_actions_record s) as (_ & Ha).
  destruct (outcome (stop_beforeStop s)) as [[]|e1]; cbn [events].
  2:{ rewrite H1. intros (? & _); discriminate. }
  destruct (outcome (stop_components s)) as [u|e2]; cbn [events].
  2:{ rewrite He. project. intros (_ & Hth & Hta).
      rewrite Hth, Hta in *. cbn in Ho.
      destruct (outcome (stop_hooks s)); [|destruct Hh; discriminate].
      destruct (outcome (stop_actions s)); [discriminate|destruct Ha; discriminate]. }
  cbn in Ho.
  destruct (outcome (stop_hooks s)); [|discriminate].
  destruct (outcome (stop_actions s)); [|discriminate].
  intros _. rewrite He.
  destruct (outcome (stop_afterStop s)) as [[]|e4]; cbn [events final outcome];
    rewrite <- ?app_assoc, ?app_nil_r; auto 10.
Qed.

Lemma stop_completed_record s :
  completes_stop (events (stop s)) ->
  atlas (final (stop s)) = stopped (atlas s)
  /\ invoked Stop Hook (events (stop s)) = keys (catalog_hooks (atlas s))
  /\ invoked Stop Action (events (stop s)) = keys (catalog_actions (atlas s))
  /\ invoked Stop Service (events (stop s))
     = rev (keys (catalog_services (atlas s)))
  /\ delivered "beforeStop" (events (stop s)) = keys (observers (atlas s))
  /\ thrown Stop Service (events (stop s))
     = thrown Stop Service (events (stop_loop s))
  /\ rejected "afterStop" (events (stop s))
     = rejected "afterStop" (events (stop_afterStop s))
  /\ delivered "afterStop" (events (stop s))
     = delivered "afterStop" (events (stop_afterStop s)).
Proof.
  intros H. destruct (stop_completed s H) as (Hf & He & _ & H1 & _).
  rewrite Hf, He.
  destruct (stop_hooks_record s) as (Hh & _).
  destruct (stop_actions_record s) as (Ha & _).
  pose proof (stop_loop_record s) as Hl.
  pose proof (dispatch_resolved "beforeStop" (Some (view (atlas s)))
                (observers (atlas s)) s H1) as (Hd & _).
  fold (stop_beforeStop s) in Hd.
  split; [apply dispatch_atlas|].
  destruct (is_ok (stop_afterStop s)); project; auto 10.
Qed.

(** A run of [stop] is cut short by an observer of [beforeStop] or by the
    [stop] of a hook or an action, or it gets to the loop. *)
Lemma stop_cases s :
  completes_stop (events (stop s))
  \/ (atlas (final (stop s)) = atlas s
      /\ Forall (fun e => is_delivery "beforeStop" e || is_call Stop Hook e
                          || is_call Stop Action e = true) (events (stop s))
      /\ exists e, outcome (stop s) = Throw e
           /\ In e (rejected "beforeStop" (events (stop s))
                    ++ thrown Stop Hook (events (stop s))
                    ++ thrown Stop Action (events (stop s)))).
Proof.
  unfold completes_stop. rewrite stop_run.
  pose proof (dispatch_record "beforeStop" (Some (view (atlas s)))
                (observers (atlas s)) s) as H1.
  fold (stop_beforeStop s) in H1.
  destruct (stop_components_split s) as (Hf & He & Ho).
  destruct (stop_hooks_record s) as (_ & Hh).
  destruct (stop_actions_record s) as (_ & Ha).
  assert (K1 : Forall (fun e : Event Instance =>
                 is_delivery "beforeStop" e || is_call Stop Hook e
                 || is_call Stop Action e = true) (events (stop_beforeStop s))).
  { eapply Forall_impl; [apply stop_beforeStop_kind|].
    intros e ->. reflexivity. }
  assert (K2 : Forall (fun e : Event Instance =>
                 is_delivery "beforeStop" e || is_call Stop Hook e
                 || is_call Stop Action e = true) (events (stop_components s))).
  { rewrite He. apply Forall_app. split.
    - eapply Forall_impl; [apply stop_hooks_kind|].
      intros e ->. now rewrite orb_true_r.
    - eapply Forall_impl; [apply stop_actions_kind|].
      intros e ->. now rewrite orb_true_r. }
  destruct (outcome (stop_beforeStop s)) as [[]|e1]; cbn [events final outcome].
  2:{ right. split; [apply dispatch_atlas|]. split; [exact K1|].
      exists e1. split; [reflexivity|]. rewrite H1. now left. }
  destruct H1 as (_ & H1).
  destruct (outcome (stop_components s)) as [u|e2]; cbn [events final outcome].
  2:{ right. split; [apply stop_components_atlas|]. split.
      - apply Forall_app. auto.
      - exists e2. split; [reflexivity|]. rewrite He. project.
        rewrite H1. cbn in Ho |- *.
        destruct (outcome (stop_hooks s)) as [?|eh].
        + destruct (outcome (stop_actions s)) as [?|ea]; [discriminate|].
          destruct Ha as (rest & ->). injection Ho as ->.
          apply in_or_app. right. now left.
        + destruct Hh as (rest & ->). injection Ho as ->. now left. }
  left. cbn in Ho.
  destruct (outcome (stop_hooks s)); [|discriminate].
  destruct (outcome (stop_actions s)); [|discriminate].
  rewrite He.
  destruct (outcome (stop_afterStop s)); cbn [events]; project; auto.
Qed.

Lemma stop_resolved_completes s :
  is_ok (stop s) = true -> completes_stop (events (stop s)).
Proof.
  intros H. destruct (stop_cases s) as [Hc | (_ & _ & e & He & _)]; [exact Hc|].
  unfold is_ok in H. now rewrite He in H.
Qed.

Lemma stop_attempt_completes s alias v err :
  In (Invoked Stop Service alias v err) (events (stop s)) ->
  completes_stop (events (stop s)).
Proof.
  intros H. destruct (stop_cases s) as [Hc | (_ & Hk & _)]; [exact Hc|].
  rewrite Forall_forall in Hk. apply list_elem_of_In in H.
  specialize (Hk _ H). discriminate.
Qed.

(** Whatever holds of the calls, deliveries and log lines that [stop]
    makes holds of the record of its runs. *)
Lemma stop_emits (Q : Event Instance -> Prop) :
  (forall alias v err, Q (Invoked Stop Hook alias v err)) ->
  (forall alias v err, Q (Invoked Stop Action alias v err)) ->
  (forall alias v err, v_services v !! alias = None ->
                       Q (Invoked Stop Service alias v err)) ->
  (forall alias err, Q (Dispatched "beforeStop" alias err)) ->
  (forall alias err, Q (Dispatched "afterStop" alias err)) ->
  Q (Logged Info "atlas:stopped" None) ->
  emits Q (stop (World := World)).
Proof.
  intros Hh Ha Hs Hb Hf Hl. unfold stop.
  apply emits_bind; [apply emits_this | intros a].
  apply emits_bind; [apply emits_subject_this | intros subject].
  apply emits_bind; [now apply emits_dispatch | intros _].
  apply emits_bind; [|intros _].
  { apply emits_Promise_all, Forall_app; split;
      apply Forall_map, Forall_forall; intros x _;
      now apply emits_invoke. }
  apply emits_bind; [now apply stop_services_emits | intros error].
  apply emits_bind; [|intros _].
  { apply emits_for_of. intros x. apply emits_modify. }
  apply emits_bind; [apply emits_modify | intros _].
  apply emits_bind; [apply emits_modify | intros _].
  apply emits_bind; [now apply emits_dispatch | intros _].
  apply emits_bind; [now apply emits_log | intros _].
  destruct error as [e|]; [destruct (is_truthy e)|];
    first [apply emits_throw | apply emits_this].
Qed.

Lemma stop_kind s : Forall (fun e => of_stop e = true) (events (stop s)).
Proof. apply stop_emits; reflexivity. Qed.

(** Whatever the changes that [stop] makes to the orchestrator keep is kept
    by its runs. *)
Lemma stop_preserves (P : Atlas World Instance -> Prop) :
  (forall a alias, P a -> P (set_services (delete alias (services a)) a)) ->
  (forall a alias, P a -> P (set_actions (delete alias (actions a)) a)) ->
  (forall a b, P a -> P (set_started b a)) ->
  (forall a b, P a -> P (set_prepared b a)) ->
  preserves P stop.
Proof.
  intros Hs Ha Hst Hpr. unfold stop.
  apply preserves_bind; [apply preserves_this | intros a].
  apply preserves_bind; [apply preserves_subject_this | intros subject].
  apply preserves_bind; [apply preserves_dispatch | intros _].
  apply preserves_bind; [|intros _].
  { apply preserves_Promise_all, Forall_app; split;
      apply Forall_map, Forall_forall; intros x _;
      apply preserves_invoke. }
  apply preserves_bind; [|intros error].
  { generalize (@None Error). induction (rev (catalog_services a)) as [|[alias c] l IH];
      intros err; cbn [stop_services]; [apply preserves_ret|].
    apply preserves_bind; [|intros e; apply IH].
    intros s H. rewrite stop_service_run. cbn. now apply Hs. }
  apply preserves_bind; [|intros _].
  { apply preserves_for_of. intros x. apply preserves_modify. intros a0. apply Ha. }
  apply preserves_bind; [apply preserves_modify; intros a0; apply Hst | intros _].
  apply preserves_bind; [apply preserves_modify; intros a0; apply Hpr | intros _].
  apply preserves_bind; [apply preserves_dispatch | intros _].
  apply preserves_bind; [apply preserves_log | intros _].
  destruct error as [e|]; [destruct (is_truthy e)|];
    first [apply preserves_throw | apply preserves_this].
Qed.

End Stop.

Section Prepare.

Context {World Instance : Type} `{!Prototype Instance}.

Implicit Types (s : State World Instance) (a : Atlas World Instance).
Implicit Types (evs : list (Event Instance)) (l : Registry World Instance).

Lemma set_observers_id a : set_observers (observers a) a = a.
Proof. now destruct a. Qed.

(** The loop over the hooks touches nothing but the observers, calls
    nothing, and throws at the first hook without [observes]. *)
Lemma scan_run l s :
  events (for_of l scan s) = []
  /\ world (final (for_of l scan s)) = world s
  /\ (exists obs, atlas (final (for_of l scan s)) = set_observers obs (atlas s))
  /\ outcome (for_of l scan s)
     = match unobserving l with
       | Some alias => Throw (hook_error alias)
       | None => Ok tt
       end.
Proof.
  revert s. induction l as [|[alias c] l IH]; intros s.
  - simpl. repeat split; try reflexivity.
    exists (observers (atlas s)). now rewrite set_observers_id.
  - cbn [for_of unobserving]. unfold scan at 1 3 5 7.
    destruct (truthy (observes (Component c))); cbn [negb].
    2:{ rewrite (bind_throw _ _ _ (hook_error alias)) by reflexivity.
        cbn. repeat split; try reflexivity.
        exists (observers (atlas s)). now rewrite set_observers_id. }
    destruct (observes_atlas c).
    + rewrite bind_modify.
      match goal with |- context [for_of l scan ?s'] =>
        destruct (IH s') as (-> & -> & (obs & ->) & ->)
      end.
      cbn. repeat split; try reflexivity. now exists obs.
    + rewrite bind_ret. apply IH.
Qed.

Lemma prepare_scan_frame s :
  exists obs, atlas (final (prepare_scan s)) = set_observers obs (atlas s).
Proof. apply scan_run. Qed.

Lemma prepare_run s :
  prepare s =
  if prepared (atlas s) then
    {| final := s; events := []; outcome := Ok (atlas s) |}
  else
    match outcome (prepare_scan s) with
    | Throw e =>
        {| final := final (prepare_scan s); events := [];
           outcome := Throw e |}
    | Ok _ =>
    match outcome (prepare_hooks s) with
    | Throw e =>
        {| final := final (prepare_hooks s);
           events := events (prepare_hooks s); outcome := Throw e |}
    | Ok _ =>
    match outcome (prepare_actions s) with
    | Throw e =>
        {| final := final (prepare_actions s);
           events := events (prepare_hooks s) ++ events (prepare_actions s);
           outcome := Throw e |}
    | Ok _ =>
    match outcome (prepare_services s) with
    | Throw e =>
        {| final := final (prepare_services s);
           events := events (prepare_hooks s) ++ events (prepare_actions s)
                     ++ events (prepare_services s);
           outcome := Throw e |}
    | Ok _ =>
        {| final := final (prepare_afterPrepare s);
           events := events (prepare_hooks s) ++ events (prepare_actions s)
                     ++ events (prepare_services s)
                     ++ events (prepare_afterPrepare s);
           outcome :=
             match outcome (prepare_afterPrepare s) with
             | Throw e => Throw e
             | Ok _ => Ok (atlas (final (prepare_afterPrepare s)))
             end |}
    end end end end.
Proof.
  unfold prepare. rewrite bind_this.
  destruct (prepared (atlas s)); [reflexivity|].
  destruct (scan_run (catalog_hooks (atlas s)) s) as (Hev & _).
  fold (prepare_scan s) in Hev.
  destruct (outcome (prepare_scan s)) as [[]|e0] eqn:E0;
    unfold prepare_scan in E0;
    [rewrite (bind_ok _ _ _ _ E0) | rewrite (bind_throw _ _ _ _ E0)];
    fold (prepare_scan s); rewrite Hev; [|reflexivity].
  cbn [app].
  destruct (outcome (prepare_hooks s)) as [u1|e1] eqn:E1;
    unfold prepare_hooks in E1;
    [rewrite (bind_ok _ _ _ _ E1) | now rewrite (bind_throw _ _ _ _ E1)].
  cbn [final events outcome]. fold (prepare_hooks s).
  destruct (outcome (prepare_actions s)) as [u2|e2] eqn:E2;
    unfold prepare_actions in E2;
    [rewrite (bind_ok _ _ _ _ E2) | now rewrite (bind_throw _ _ _ _ E2)].
  cbn [final events outcome]. fold (prepare_actions s).
  destruct (outcome (prepare_services s)) as [u3|e3] eqn:E3;
    unfold prepare_services in E3;
    [rewrite (bind_ok _ _ _ _ E3) | now rewrite (bind_throw _ _ _ _ E3)].
  cbn [final events outcome]. fold (prepare_services s).
  rewrite bind_modify, bind_this, bind_subject_this. cbn [atlas].
  fold (prepare_afterPrepare s).
  destruct (outcome (prepare_afterPrepare s)) as [[]|e4] eqn:E4;
    unfold prepare_afterPrepare in E4; cbv zeta in E4;
    [rewrite (bind_ok _ _ _ _ E4) | rewrite (bind_throw _ _ _ _ E4)];
    fold (prepare_afterPrepare s); cbn; rewrite ?app_nil_r; reflexivity.
Qed.

Lemma prepare_emits (Q : Event Instance -> Prop) :
  (forall k alias v err, Q (Invoked Prepare k alias v err)) ->
  (forall alias err, Q (Dispatched "afterPrepare" alias err)) ->
  emits Q (prepare (World := World)).
Proof.
  intros Hp Hd. unfold prepare.
  apply emits_bind; [apply emits_this | intros a].
  destruct (prepared a); [apply emits_this|].
  apply emits_bind; [|intros _].
  { apply emits_for_of. intros [alias c]. unfold scan.
    destruct (negb _); [apply emits_throw|].
    destruct (observes_atlas c); [apply emits_modify | apply emits_ret]. }
  apply emits_bind; [|intros _].
  { apply emits_Promise_all_map. intros x. now apply emits_invoke. }
  apply emits_bind; [now apply emits_prepare_exposed | intros _].
  apply emits_bind; [now apply emits_prepare_exposed | intros _].
  apply emits_bind; [apply emits_modify | intros _].
  apply emits_bind; [apply emits_this | intros a'].
  apply emits_bind; [apply emits_subject_this | intros subject].
  apply emits_bind; [now apply emits_dispatch | intros _].
  apply emits_this.
Qed.

Lemma prepare_kind s : Forall (fun e => of_prepare e = true) (events (prepare s)).
Proof. apply prepare_emits; reflexivity. Qed.

Lemma exposed_catalog k alias i a : same_catalog a (exposed k alias i a).
Proof.
  unfold exposed, same_catalog.
  destruct (marked_internal k alias a); [auto|]. destruct k; auto.
Qed.

Lemma exposed_flags k alias (i : Instance) a :
  prepared (exposed k alias i a) = prepared a
  /\ started (exposed k alias i a) = started a
  /\ observers (exposed k alias i a) = observers a.
Proof.
  unfold exposed. destruct (marked_internal k alias a); [auto|].
  now destruct k.
Qed.

Lemma registry_of_same k a a' :
  same_catalog a a' -> registry_of k a' = registry_of k a.
Proof. intros (H1 & H2 & H3). now destruct k. Qed.

(** A property that the writes of [prepare] keep is kept by [prepare]; the
    hooks that it makes observers and the aliases that it publishes are
    those of the catalog. *)
Lemma prepare_keeps_in (P : Atlas World Instance -> Prop) s :
  (forall a alias c,
     In (alias, c) (catalog_hooks (atlas s)) -> observes_atlas c = true ->
     P a -> P (set_observers (Map_set alias c (observers a)) a)) ->
  (forall a k alias i,
     In alias (keys (registry_of k (atlas s))) -> P a ->
     P (exposed k alias i a)) ->
  (forall a, P a -> P (set_prepared true a)) ->
  P (atlas s) -> P (atlas (final (prepare s))).
Proof.
  intros Hobs Hexp Hpr Hs. unfold prepare. rewrite bind_this.
  remember (atlas s) as a0 eqn:Ea.
  assert (Hs' : P (atlas s)) by now rewrite <- Ea.
  clear Ea Hs. revert Hs'.
  match goal with
  | |- _ -> P (atlas (final (?m s))) => enough (Hb : preserves P m) by apply Hb
  end.
  destruct (prepared a0); [apply preserves_this|].
  apply preserves_bind; [|intros _].
  { apply preserves_for_of_in. intros [alias c] Hin. unfold scan.
    destruct (negb _); [apply preserves_throw|].
    destruct (observes_atlas c) eqn:Hc; [|apply preserves_ret].
    apply preserves_modify. intros a1. now apply Hobs. }
  apply preserves_bind; [|intros _].
  { apply preserves_Promise_all_map. intros x. apply preserves_invoke. }
  apply preserves_bind; [|intros _].
  { intros s'. apply prepare_exposed_keeps. intros a alias i.
    apply (Hexp a Action). }
  apply preserves_bind; [|intros _].
  { intros s'. apply prepare_exposed_keeps. intros a alias i.
    apply (Hexp a Service). }
  apply preserves_bind; [apply preserves_modify; exact Hpr | intros _].
  apply preserves_bind; [apply preserves_this | intros a'].
  apply preserves_bind; [apply preserves_subject_this | intros subject].
  apply preserves_bind; [apply preserves_dispatch | intros _].
  apply preserves_this.
Qed.

Lemma prepare_keeps (P : Atlas World Instance -> Prop) :
  (forall a alias c,
     In (alias, c) (catalog_hooks a) -> observes_atlas c = true ->
     P a -> P (set_observers (Map_set alias c (observers a)) a)) ->
  (forall a k alias i,
     In alias (keys (registry_of k a)) -> P a -> P (exposed k alias i a)) ->
  (forall a, P a -> P (set_prepared true a)) ->
  preserves P prepare.
Proof.
  intros Hobs Hexp Hpr s Hs.
  apply (prepare_keeps_in (fun a => P a /\ same_catalog (atlas s) a) s).
  - intros a alias c Hin Hc (Ha & Hsame). split.
    + apply Hobs; [|exact Hc|exact Ha].
      destruct Hsame as (_ & -> & _). exact Hin.
    + exact Hsame.
  - intros a k alias i Hin (Ha & Hsame). split.
    + apply Hexp; [|exact Ha]. now rewrite (registry_of_same k _ _ Hsame).
    + destruct Hsame as (H1 & H2 & H3).
      destruct (exposed_catalog k alias i a) as (E1 & E2 & E3).
      unfold same_catalog. now rewrite E1, E2, E3.
  - intros a (Ha & Hsame). split; [now apply Hpr | exact Hsame].
  - split; [exact Hs | now unfold same_catalog].
Qed.

Lemma prepare_preserves (P : Atlas World Instance -> Prop) :
  (forall a obs, P a -> P (set_observers obs a)) ->
  (forall a k alias i, P a -> P (exposed k alias i a)) ->
  (forall a, P a -> P (set_prepared true a)) ->
  preserves P prepare.
Proof. intros Hobs Hexp Hpr. apply prepare_keeps; auto. Qed.

Lemma prepare_catalog s : same_catalog (atlas s) (atlas (final (prepare s))).
Proof.
  apply (prepare_preserves (same_catalog (atlas s))).
  - intros a obs H. exact H.
  - intros a k alias i (H1 & H2 & H3).
    destruct (exposed_catalog k alias i a) as (E1 & E2 & E3).
    unfold same_catalog. now rewrite E1, E2, E3.
  - intros a H. exact H.
  - unfold same_catalog. auto.
Qed.

End Prepare.

Section Start.

Context {World Instance : Type} `{!Prototype Instance}.

Implicit Types (s : State World Instance) (a : Atlas World Instance).
Implicit Types (evs : list (Event Instance)) (l : Registry World Instance).

(** One turn of the loop of [start]: the service starts, or the whole
    orchestrator is stopped and the error of the service thrown again. *)
Lemma start_service_run alias c s :
  start_service (alias, c) s
  = let wr := c_start c (view (atlas s)) (property (services (atlas s)) alias) (world s) in
    let s1 := {| atlas := atlas s; world := fst wr |} in
    match snd wr with
    | Ok _ =>
        {| final := s1;
           events := [Invoked Start Service alias (view (atlas s)) None];
           outcome := Ok tt |}
    | Throw err =>
        {| final := final (stop s1);
           events := Invoked Start Service alias (view (atlas s)) (Some err)
                     :: events (stop s1) ++ rollback_log (stop s1);
           outcome := Throw err |}
    end.
Proof.
  unfold start_service, try_catch at 1. rewrite bind_this.
  unfold invoke; cbn [outcome final events]. cbv zeta.
  destruct (c_start c (view (atlas s)) (property (services (atlas s)) alias) (world s))
    as [w [[]|err]]; cbn [fst snd failure]; [reflexivity|].
  set (s1 := {| atlas := atlas s; world := w |}).
  unfold try_catch, bind, rollback_log. cbn [outcome final events ret throw log].
  destruct (outcome (stop s1)); cbn [outcome final events app];
    rewrite ?app_nil_r; reflexivity.
Qed.

Lemma start_keeps (P : Atlas World Instance -> Prop) :
  (forall a alias c,
     In (alias, c) (catalog_hooks a) -> observes_atlas c = true ->
     P a -> P (set_observers (Map_set alias c (observers a)) a)) ->
  (forall a k alias i,
     In alias (keys (registry_of k a)) -> P a -> P (exposed k alias i a)) ->
  (forall a alias, P a -> P (set_services (delete alias (services a)) a)) ->
  (forall a alias, P a -> P (set_actions (delete alias (actions a)) a)) ->
  (forall a b, P a -> P (set_started b a)) ->
  (forall a b, P a -> P (set_prepared b a)) ->
  preserves P start.
Proof.
  intros Hobs Hexp Hs Ha Hst Hpr. unfold start.
  apply preserves_bind; [apply preserves_this | intros a].
  apply preserves_bind; [apply prepare_keeps; auto | intros _].
  apply preserves_bind; [apply preserves_this | intros a'].
  apply preserves_bind; [apply preserves_subject_this | intros subject].
  apply preserves_bind; [apply preserves_dispatch | intros _].
  apply preserves_bind; [|intros _].
  { apply preserves_Promise_all, Forall_app; split;
      apply Forall_map, Forall_forall; intros x _;
      apply preserves_invoke. }
  apply preserves_bind; [|intros _].
  { apply preserves_for_of. intros [alias c]. unfold start_service.
    apply preserves_try_catch.
    - apply preserves_bind; [apply preserves_this | intros a0].
      apply preserves_invoke.
    - intros err. apply preserves_bind; [|intros _; apply preserves_throw].
      apply preserves_try_catch; [|intros e; apply preserves_log].
      apply preserves_bind; [now apply stop_preserves | intros _].
      apply preserves_ret. }
  apply preserves_bind; [apply preserves_modify; intros a0; apply Hst | intros _].
  apply preserves_bind; [apply preserves_subject_this | intros subject'].
  apply preserves_bind; [apply preserves_dispatch | intros _].
  apply preserves_bind; [apply preserves_log | intros _].
  apply preserves_this.
Qed.

Lemma start_preserves (P : Atlas World Instance -> Prop) :
  (forall a obs, P a -> P (set_observers obs a)) ->
  (forall a k alias i, P a -> P (exposed k alias i a)) ->
  (forall a alias, P a -> P (set_services (delete alias (services a)) a)) ->
  (forall a alias, P a -> P (set_actions (delete alias (actions a)) a)) ->
  (forall a b, P a -> P (set_started b a)) ->
  (forall a b, P a -> P (set_prepared b a)) ->
  preserves P start.
Proof. intros Hobs Hexp Hs Ha Hst Hpr. apply start_keeps; auto. Qed.

(** The loop of [start]: the services start one after the other, in the
    order of the registry, until one throws; then [stop] runs and the loop
    is over. *)
Lemma start_services_run l s :
  match outcome (for_of l start_service s) with
  | Ok _ =>
      atlas (final (for_of l start_service s)) = atlas s
      /\ events (for_of l start_service s)
         = map (fun x => Invoked Start Service (fst x) (view (atlas s)) None) l
  | Throw err =>
      exists pre alias c post s1,
        l = pre ++ (alias, c) :: post
        /\ atlas s1 = atlas s
        /\ events (for_of l start_service s)
           = map (fun x => Invoked Start Service (fst x) (view (atlas s)) None) pre
             ++ Invoked Start Service alias (view (atlas s)) (Some err)
                :: events (stop s1) ++ rollback_log (stop s1)
        /\ final (for_of l start_service s) = final (stop s1)
  end.
Proof.
  revert s. induction l as [|[alias c] l IH]; intros s.
  - simpl. auto.
  - cbn [for_of]. unfold bind. rewrite start_service_run. cbv zeta.
    destruct (c_start c (view (atlas s)) (property (services (atlas s)) alias) (world s))
      as [w [[]|err]]; cbn [fst snd outcome final events].
    + match goal with |- context [for_of l start_service ?s'] =>
        specialize (IH s'); destruct (outcome (for_of l start_service s'))
      end; cbn [atlas] in IH.
      * destruct IH as (-> & ->). split; reflexivity.
      * destruct IH as (pre & alias' & c' & post & s1 & -> & H1 & -> & ->).
        exists ((alias, c) :: pre), alias', c', post, s1. auto.
    + exists [], alias, c, l, {| atlas := atlas s; world := w |}.
      repeat split; reflexivity.
Qed.

Lemma start_components_split s :
  final (start_components s) = final (start_actions s)
  /\ events (start_components s)
     = events (start_hooks s) ++ events (start_actions s)
  /\ failure (outcome (start_components s))
     = match failure (outcome (start_hooks s)) with
       | Some e => Some e
       | None => failure (outcome (start_actions s))
       end.
Proof. apply Promise_all_app. Qed.

Lemma start_run s :
  start s =
  match outcome (prepare s) with
  | Throw e =>
      {| final := final (prepare s); events := events (prepare s);
         outcome := Throw e |}
  | Ok _ =>
  match outcome (start_beforeStart s) with
  | Throw e =>
      {| final := final (start_beforeStart s);
         events := events (prepare s) ++ events (start_beforeStart s);
         outcome := Throw e |}
  | Ok _ =>
  match outcome (start_components s) with
  | Throw e =>
      {| final := final (start_components s);
         events := events (prepare s) ++ events (start_beforeStart s)
                   ++ events (start_components s);
         outcome := Throw e |}
  | Ok _ =>
  match outcome (start_loop s) with
  | Throw e =>
      {| final := final (start_loop s);
         events := events (prepare s) ++ events (start_beforeStart s)
                   ++ events (start_components s) ++ events (start_loop s);
         outcome := Throw e |}
  | Ok _ =>
  match outcome (start_afterStart s) with
  | Throw e =>
      {| final := final (start_afterStart s);
         events := events (prepare s) ++ events (start_beforeStart s)
                   ++ events (start_components s) ++ events (start_loop s)
                   ++ events (start_afterStart s);
         outcome := Throw e |}
  | Ok _ =>
      {| final := final (start_afterStart s);
         events := events (prepare s) ++ events (start_beforeStart s)
                   ++ events (start_components s) ++ events (start_loop s)
                   ++ events (start_afterStart s)
                   ++ [Logged Info "atlas:ready" None];
         outcome := Ok (atlas (final (start_afterStart s))) |}
  end end end end end.
Proof.
  unfold start. rewrite bind_this.
  destruct (outcome (prepare s)) as [a0|e0] eqn:E0;
    [rewrite (bind_ok _ _ _ _ E0) | now rewrite (bind_throw _ _ _ _ E0)].
  rewrite bind_this, bind_subject_this. fold (start_beforeStart s).
  destruct (outcome (start_beforeStart s)) as [[]|e1] eqn:E1;
    unfold start_beforeStart in E1; cbv zeta in E1;
    [rewrite (bind_ok _ _ _ _ E1) | now rewrite (bind_throw _ _ _ _ E1)].
  fold (start_beforeStart s). cbn [final events outcome].
  destruct (outcome (start_components s)) as [u2|e2] eqn:E2;
    unfold start_components in E2;
    [rewrite (bind_ok _ _ _ _ E2) | now rewrite (bind_throw _ _ _ _ E2)].
  fold (start_components s). cbn [final events outcome].
  assert (Hl : for_of (catalog_services (atlas s)) start_service
                 (final (start_components s)) = start_loop s).
  { unfold start_loop. now destruct (start_components_split s) as (-> & _). }
  destruct (outcome (start_loop s)) as [[]|e3] eqn:E3; rewrite <- Hl in E3;
    [rewrite (bind_ok _ _ _ _ E3) | now rewrite (bind_throw _ _ _ _ E3), Hl].
  rewrite Hl. cbn [final events outcome].
  rewrite bind_modify, bind_subject_this. cbn [atlas].
  fold (start_afterStart s).
  destruct (outcome (start_afterStart s)) as [[]|e4] eqn:E4;
    unfold start_afterStart in E4; cbv zeta in E4;
    [rewrite (bind_ok _ _ _ _ E4) | now rewrite (bind_throw _ _ _ _ E4)].
  fold (start_afterStart s). rewrite bind_log.
  cbn [this final events outcome]. reflexivity.
Qed.

End Start.

Section Kinds.

Context {World Instance : Type} `{!Prototype Instance}.

Implicit Types (s : State World Instance).

Lemma prepare_hooks_kind s :
  Forall (fun e => is_call Prepare Hook e = true) (events (prepare_hooks s)).
Proof. apply Promise_all_kind, one_call_prepare_hook. Qed.

Lemma prepare_actions_kind s :
  Forall (fun e => is_call Prepare Action e = true) (events (prepare_actions s)).
Proof. apply emits_prepare_exposed. reflexivity. Qed.

Lemma prepare_services_kind s :
  Forall (fun e => is_call Prepare Service e = true) (events (prepare_services s)).
Proof. apply emits_prepare_exposed. reflexivity. Qed.

Lemma prepare_afterPrepare_kind s :
  Forall (fun e => is_delivery "afterPrepare" e = true)
    (events (prepare_afterPrepare s)).
Proof. apply dispatch_kind. Qed.

Lemma start_beforeStart_kind s :
  Forall (fun e => is_delivery "beforeStart" e = true)
    (events (start_beforeStart s)).
Proof. apply dispatch_kind. Qed.

Lemma start_hooks_kind s :
  Forall (fun e => is_call Start Hook e = true) (events (start_hooks s)).
Proof. apply Promise_all_kind, one_call_start_container. Qed.

Lemma start_actions_kind s :
  Forall (fun e => is_call Start Action e = true) (events (start_actions s)).
Proof. apply Promise_all_kind, one_call_start_container. Qed.

Lemma start_afterStart_kind s :
  Forall (fun e => is_delivery "afterStart" e = true)
    (events (start_afterStart s)).
Proof. apply dispatch_kind. Qed.

Lemma rollback_log_kind {A : Type} (r : Run (World := World) (Instance := Instance) A) :
  Forall (fun e => of_stop e = true) (rollback_log r).
Proof. unfold rollback_log. destruct (outcome r); repeat constructor. Qed.

End Kinds.

Ltac kind_of r k ::=
  lazymatch r with
  | stop_beforeStop ?s => k (stop_beforeStop_kind s)
  | stop_hooks ?s => k (stop_hooks_kind s)
  | stop_actions ?s => k (stop_actions_kind s)
  | stop_loop ?s => k (stop_loop_kind s)
  | stop_afterStop ?s => k (stop_afterStop_kind s)
  | stop ?s => k (stop_kind s)
  | prepare ?s => k (prepare_kind s)
  | prepare_hooks ?s => k (prepare_hooks_kind s)
  | prepare_actions ?s => k (prepare_actions_kind s)
  | prepare_services ?s => k (prepare_services_kind s)
  | prepare_afterPrepare ?s => k (prepare_afterPrepare_kind s)
  | start_beforeStart ?s => k (start_beforeStart_kind s)
  | start_hooks ?s => k (start_hooks_kind s)
  | start_actions ?s => k (start_actions_kind s)
  | start_afterStart ?s => k (start_afterStart_kind s)
  | dispatch ?e ?sub ?l ?s => k (dispatch_kind e sub l s)
  | stop_services ?l ?e ?s => k (stop_services_kind l e s)
  end.

(** * Runs on instrumented components *)

Section Simulation.

Context {World Instance : Type} `{!Prototype Instance}.

Implicit Types (s : State World Instance).
Implicit Types (evs : list (Event Instance)) (l : Registry World Instance).

Local Abbreviation Comp := (@M World Instance).
Local Abbreviation Comp' := (@M (World * list (Event Instance)) Instance).

Lemma about_components_app evs evs' :
  about_components (evs ++ evs')
  = about_components evs ++ about_components evs'.
Proof. apply List.filter_app. Qed.

Lemma view_instrumented (a : Atlas World Instance) :
  view (instrumented_atlas a) = view a.
Proof. reflexivity. Qed.

Lemma simulates_weaken {A A' : Type} (R R' : A -> A' -> Prop)
    (m : Comp A) (m' : Comp' A') :
  (forall x x', R x x' -> R' x x') -> simulates R m m' -> simulates R' m m'.
Proof.
  intros HR H s j. destruct (H s j) as (Hf & He & Ho).
  repeat split; [exact Hf | exact He |].
  unfold same_outcome in *.
  destruct (outcome (m s)), (outcome (m' _)); auto.
Qed.

Lemma simulates_ret {A A' : Type} (R : A -> A' -> Prop) x x' :
  R x x' -> simulates R (ret x : Comp A) (ret x' : Comp' A').
Proof. intros H s j. cbn. now rewrite app_nil_r. Qed.

Lemma simulates_throw {A A' : Type} (R : A -> A' -> Prop) e :
  simulates R (throw e : Comp A) (throw e : Comp' A').
Proof. intros s j. cbn. now rewrite app_nil_r. Qed.

Lemma simulates_bind {A A' B B' : Type} (R : A -> A' -> Prop)
    (R2 : B -> B' -> Prop) (m : Comp A) (m' : Comp' A') f f' :
  simulates R m m' ->
  (forall x x', R x x' -> simulates R2 (f x) (f' x')) ->
  simulates R2 (bind m f) (bind m' f').
Proof.
  intros Hm Hf s j. destruct (Hm s j) as (E1 & E2 & E3). unfold bind.
  unfold same_outcome in E3.
  destruct (outcome (m s)) as [x|e], (outcome (m' (instrumented s j))) as [x'|e'];
    try contradiction; cbn [final events outcome].
  - rewrite E1, E2.
    destruct (Hf x x' E3 (final (m s)) (j ++ about_components (events (m s))))
      as (F1 & F2 & F3).
    rewrite F1, F2, about_components_app, app_assoc. auto.
  - subst e'. rewrite E1, E2. repeat split.
Qed.

Lemma simulates_try_catch {A A' : Type} (R : A -> A' -> Prop)
    (m : Comp A) (m' : Comp' A') h h' :
  simulates R m m' ->
  (forall e, simulates R (h e) (h' e)) ->
  simulates R (try_catch m h) (try_catch m' h').
Proof.
  intros Hm Hh s j. destruct (Hm s j) as (E1 & E2 & E3). unfold try_catch.
  unfold same_outcome in E3.
  destruct (outcome (m s)) as [x|e] eqn:Eo,
           (outcome (m' (instrumented s j))) as [x'|e'] eqn:Eo';
    try contradiction; cbn [final events outcome].
  - rewrite E1, E2, Eo, Eo'. auto.
  - subst e'. rewrite E1, E2.
    destruct (Hh e (final (m s)) (j ++ about_components (events (m s))))
      as (F1 & F2 & F3).
    rewrite F1, F2, about_components_app, app_assoc. auto.
Qed.

Lemma simulates_this :
  simulates (fun a a' => a' = instrumented_atlas a) (this : Comp _) this.
Proof. intros s j. cbn. now rewrite app_nil_r. Qed.

Lemma simulates_subject_this :
  simulates eq (subject_this : Comp _) (subject_this : Comp' _).
Proof. intros s j. cbn. now rewrite app_nil_r. Qed.

Lemma simulates_modify f f' :
  (forall a, f' (instrumented_atlas a) = instrumented_atlas (f a)) ->
  simulates eq (modify f : Comp _) (modify f').
Proof. intros H s j. cbn. rewrite app_nil_r, H. now repeat split. Qed.

Lemma simulates_log lvl err msg :
  simulates eq (log lvl err msg : Comp _) (log lvl err msg).
Proof. intros s j. cbn. now rewrite app_nil_r. Qed.

Lemma simulates_for_of {X X' : Type} (g : X -> X') xs body body' :
  (forall x, simulates eq (body x) (body' (g x))) ->
  simulates eq (for_of xs body : Comp _) (for_of (map g xs) body').
Proof.
  intros H. induction xs as [|x xs IH]; cbn [for_of map].
  - now apply simulates_ret.
  - apply (simulates_bind eq); [apply H | intros _ _ _; exact IH].
Qed.

Lemma simulates_Promise_all {X X' A A' : Type} (R : A -> A' -> Prop)
    (g : X -> X') (f : X -> Comp A) (f' : X' -> Comp' A') xs :
  (forall x, simulates R (f x) (f' (g x))) ->
  simulates (Forall2 R) (Promise_all (map f xs))
    (Promise_all (map f' (map g xs))).
Proof.
  intros H. induction xs as [|x xs IH]; cbn [Promise_all map].
  - apply simulates_ret. constructor.
  - intros s j. destruct (H x s j) as (E1 & E2 & E3).
    cbn [final events outcome]. rewrite E1, E2.
    destruct (IH (final (f x s)) (j ++ about_components (events (f x s))))
      as (F1 & F2 & F3).
    rewrite F1, F2, about_components_app, app_assoc.
    repeat split. unfold same_outcome in *.
    destruct (outcome (f x s)), (outcome (f' (g x) _)); try contradiction;
      destruct (outcome (Promise_all (map f xs) _)),
               (outcome (Promise_all (map f' (map g xs)) _));
      try contradiction; auto.
Qed.

Lemma simulates_invoke {A : Type} p k alias
    (method : View Instance -> World -> World * result A) :
  simulates eq (invoke p k alias method : Comp _)
    (invoke p k alias
       (fun v => recorded (Invoked p k alias v) (method v))).
Proof.
  intros s j. unfold invoke, recorded. cbn. rewrite view_instrumented.
  now destruct (method (view (atlas s)) (world s)) as [w []].
Qed.

Lemma simulates_dispatch event subject l :
  simulates eq (dispatch event subject l : Comp _)
    (dispatch event subject (recording_registry Hook l)).
Proof.
  induction l as [|[alias c] l IH]; cbn [dispatch recording_registry map].
  - now apply simulates_ret.
  - apply (simulates_bind eq); [|intros _ _ _; exact IH].
    intros s j. unfold recorded. cbn.
    now destruct (c_dispatch c event subject (world s)) as [w []].
Qed.


Local Abbreviation wrap k :=
  (fun x : string * Container World Instance =>
     (fst x, recording k (fst x) (snd x))).

Lemma simulates_any {A A' : Type} (R : A -> A' -> Prop)
    (m : Comp A) (m' : Comp' A') :
  simulates R m m' -> simulates (fun _ _ => True) m m'.
Proof. apply simulates_weaken. auto. Qed.

Lemma simulates_then {A A' B B' : Type} (R : A -> A' -> Prop)
    (R2 : B -> B' -> Prop) (m : Comp A) (m' : Comp' A') f f' :
  simulates R m m' -> simulates R2 f f' ->
  simulates R2 (bind m (fun _ => f)) (bind m' (fun _ => f')).
Proof. intros Hm Hf. apply (simulates_bind R); auto. Qed.

Lemma same_outcome_eq {A : Type} (r r' : result A) :
  same_outcome eq r r' -> r = r'.
Proof. destruct r, r'; cbn; congruence || contradiction. Qed.

Lemma simulates_settled {A : Type} (m : Comp A) (m' : Comp' A) :
  simulates eq m m' -> simulates eq (settled m) (settled m').
Proof.
  intros H s j. destruct (H s j) as (E1 & E2 & E3). unfold settled.
  cbn [final events outcome same_outcome]. auto using same_outcome_eq.
Qed.

Lemma simulates_Array_map {X X' A : Type} (g : X -> X')
    (f : X -> Comp A) (f' : X' -> Comp' A) xs :
  (forall x, simulates eq (f x) (f' (g x))) ->
  simulates eq (Array_map f xs) (Array_map f' (map g xs)).
Proof.
  intros H. induction xs as [|x xs IH]; cbn [Array_map map].
  - now apply simulates_ret.
  - apply (simulates_bind eq); [apply H | intros a ? <-].
    apply (simulates_bind eq); [apply IH | intros l ? <-].
    now apply simulates_ret.
Qed.

Lemma simulates_Promise_all_zip {X X' A B : Type} (g : X -> X')
    (h : X -> A -> Comp B) (h' : X' -> A -> Comp' B) xs (ps : list A) :
  (forall x p, simulates eq (h x p) (h' (g x) p)) ->
  simulates (fun _ _ => True) (Promise_all (zip_with h xs ps))
    (Promise_all (zip_with h' (map g xs) ps)).
Proof.
  intros H. revert ps.
  induction xs as [|x xs IH]; intros [|p ps]; cbn [zip_with map Promise_all];
    try (now apply simulates_ret).
  intros s j. destruct (H x p s j) as (E1 & E2 & E3).
  cbn [final events outcome]. rewrite E1, E2.
  destruct (IH ps (final (h x p s)) (j ++ about_components (events (h x p s))))
    as (F1 & F2 & F3).
  rewrite F1, F2, about_components_app, app_assoc.
  repeat split. unfold same_outcome in *.
  destruct (outcome (h x p s)), (outcome (h' (g x) p _)); try contradiction;
    destruct (outcome (Promise_all (zip_with h xs ps) _)),
             (outcome (Promise_all (zip_with h' (map g xs) ps) _));
    try contradiction; auto.
Qed.

(** ** The orchestrator with its components instrumented *)

Lemma Map_set_recording alias (c : Container World Instance) l :
  Map_set alias (recording Hook alias c) (recording_registry Hook l)
  = recording_registry Hook (Map_set alias c l).
Proof.
  induction l as [|[k c'] l IH]; cbn; [reflexivity|].
  destruct (String.eqb k alias) eqn:E; cbn.
  - apply String.eqb_eq in E. now subst.
  - f_equal. exact IH.
Qed.

Lemma registry_of_instrumented k (a : Atlas World Instance) :
  registry_of k (instrumented_atlas a) = recording_registry k (registry_of k a).
Proof. now destruct k. Qed.

Lemma marked_internal_instrumented k alias (a : Atlas World Instance) :
  marked_internal k alias (instrumented_atlas a) = marked_internal k alias a.
Proof.
  unfold marked_internal. rewrite registry_of_instrumented.
  induction (registry_of k a) as [|[x c] l IH]; cbn; [reflexivity|].
  now destruct (String.eqb x alias).
Qed.

Lemma exposed_instrumented k alias (i : Instance) (a : Atlas World Instance) :
  exposed k alias i (instrumented_atlas a)
  = instrumented_atlas (exposed k alias i a).
Proof.
  unfold exposed. rewrite marked_internal_instrumented.
  destruct (marked_internal k alias a); [reflexivity|]. now destruct k.
Qed.

Lemma simulates_scan x : simulates eq (scan x : Comp _) (scan (wrap Hook x)).
Proof.
  destruct x as [alias c]. unfold scan. cbn [fst snd recording Component].
  destruct (negb _); [apply simulates_throw|].
  change (observes_atlas (recording Hook alias c)) with (observes_atlas c).
  destruct (observes_atlas c); [|now apply simulates_ret].
  apply simulates_modify. intros a.
  unfold set_observers, instrumented_atlas. cbn. now rewrite Map_set_recording.
Qed.

Lemma simulates_prepare_exposed k l :
  simulates (fun _ _ => True) (prepare_exposed k l : Comp _)
    (prepare_exposed k (recording_registry k l)).
Proof.
  unfold prepare_exposed.
  apply (simulates_bind eq).
  - apply (simulates_Array_map (wrap k)). intros [alias c].
    apply simulates_settled. apply simulates_invoke.
  - intros promises ? <-. apply (simulates_Promise_all_zip (wrap k)).
    intros [alias c] [i|e]; unfold expose_awaited; cbn [fst await].
    + apply (simulates_bind eq); [now apply simulates_ret | intros ? ? <-].
      apply simulates_modify. intros a. apply exposed_instrumented.
    + apply (simulates_bind eq); [apply simulates_throw | intros ? ? <-].
      apply simulates_modify. intros a. apply exposed_instrumented.
Qed.

(** [prepare] on instrumented components: the run is the same, and the
    journal of the components gets what the orchestrator has on record of
    them. *)
Lemma prepare_instrumented :
  simulates (fun a a' => a' = instrumented_atlas a) (prepare : Comp _) prepare.
Proof.
  unfold prepare.
  apply (simulates_bind _ _ _ _ _ _ simulates_this). intros a ? ->.
  cbn [prepared catalog_services catalog_actions catalog_hooks
       instrumented_atlas].
  destruct (prepared a); [apply simulates_this|].
  eapply simulates_then; [apply simulates_for_of, simulates_scan|].
  eapply simulates_then.
  { apply (simulates_Promise_all eq (wrap Hook)). intros x.
    apply simulates_invoke. }
  eapply simulates_then; [apply simulates_prepare_exposed|].
  eapply simulates_then; [apply simulates_prepare_exposed|].
  eapply simulates_then; [now apply simulates_modify|].
  apply (simulates_bind _ _ _ _ _ _ simulates_this). intros a1 ? ->.
  apply (simulates_bind _ _ _ _ _ _ simulates_subject_this). intros v ? <-.
  eapply simulates_then; [apply simulates_dispatch|].
  apply simulates_this.
Qed.


Lemma simulates_Promise_all_list {A A' : Type} (R : A -> A' -> Prop)
    (calls : list (Comp A)) (calls' : list (Comp' A')) :
  Forall2 (simulates R) calls calls' ->
  simulates (fun _ _ => True) (Promise_all calls) (Promise_all calls').
Proof.
  induction 1 as [|c c' calls calls' Hc _ IH]; cbn [Promise_all].
  - now apply simulates_ret.
  - intros s j. destruct (Hc s j) as (E1 & E2 & E3).
    cbn [final events outcome]. rewrite E1, E2.
    destruct (IH (final (c s)) (j ++ about_components (events (c s))))
      as (F1 & F2 & F3).
    rewrite F1, F2, about_components_app, app_assoc.
    repeat split. unfold same_outcome in *.
    destruct (outcome (c s)), (outcome (c' _)); try contradiction;
      destruct (outcome (Promise_all calls _)),
               (outcome (Promise_all calls' _));
      try contradiction; auto.
Qed.

Lemma simulated_calls {A : Type} k
    (f : string * Container World Instance -> Comp A)
    (f' : string * Container (World * list (Event Instance)) Instance
          -> Comp' A) l :
  (forall x, simulates eq (f x) (f' (wrap k x))) ->
  Forall2 (simulates eq) (map f l) (map f' (recording_registry k l)).
Proof.
  intros H. induction l as [|x l IH]; cbn; constructor; auto.
Qed.

Lemma simulates_stop_container k x :
  simulates eq (stop_container k x : Comp _) (stop_container k (wrap k x)).
Proof. destruct x as [alias c]. apply simulates_invoke. Qed.

Lemma simulates_start_container k x :
  simulates eq (start_container k x : Comp _) (start_container k (wrap k x)).
Proof. destruct x as [alias c]. apply simulates_invoke. Qed.

Lemma simulates_stop_service x error :
  simulates eq (stop_service x error : Comp _)
    (stop_service (wrap Service x) error).
Proof.
  destruct x as [alias c]. unfold stop_service. cbn [fst snd].
  apply simulates_try_catch; [|intros e; now apply simulates_ret].
  apply (simulates_bind _ _ _ _ _ _ simulates_this). intros a ? ->.
  cbn [services instrumented_atlas].
  eapply simulates_then; [now apply simulates_modify|].
  eapply simulates_then; [|now apply simulates_ret].
  apply (simulates_invoke Stop Service alias
           (fun v => c_stop c v (property (services a) alias))).
Qed.

Lemma simulates_stop_services l error :
  simulates eq (stop_services l error : Comp _)
    (stop_services (recording_registry Service l) error).
Proof.
  revert error. induction l as [|x l IH]; intros error; cbn [stop_services map
    recording_registry].
  - now apply simulates_ret.
  - apply (simulates_bind eq); [apply simulates_stop_service|].
    intros error' ? <-. apply IH.
Qed.

(** [stop] on instrumented components. *)
Lemma stop_instrumented :
  simulates (fun a a' => a' = instrumented_atlas a) (stop : Comp _) stop.
Proof.
  unfold stop.
  apply (simulates_bind _ _ _ _ _ _ simulates_this). intros a ? ->.
  cbn [catalog_services catalog_actions catalog_hooks observers
       instrumented_atlas].
  apply (simulates_bind _ _ _ _ _ _ simulates_subject_this). intros v ? <-.
  eapply simulates_then; [apply simulates_dispatch|].
  eapply simulates_then.
  { apply (simulates_Promise_all_list eq), Forall2_app;
      apply simulated_calls, simulates_stop_container. }
  apply (simulates_bind eq).
  { unfold recording_registry at 1. rewrite <- map_rev.
    apply simulates_stop_services. }
  intros error ? <-.
  eapply simulates_then.
  { apply (simulates_for_of (wrap Action)). intros x.
    now apply simulates_modify. }
  eapply simulates_then; [now apply simulates_modify|].
  eapply simulates_then; [now apply simulates_modify|].
  eapply simulates_then; [apply simulates_dispatch|].
  eapply simulates_then; [apply simulates_log|].
  destruct error as [e|]; [destruct (is_truthy e)|];
    first [apply simulates_throw | apply simulates_this].
Qed.

Lemma simulates_start_service x :
  simulates eq (start_service x : Comp _) (start_service (wrap Service x)).
Proof.
  destruct x as [alias c]. unfold start_service. cbn [fst snd].
  apply simulates_try_catch.
  - apply (simulates_bind _ _ _ _ _ _ simulates_this). intros a ? ->.
    cbn [services instrumented_atlas].
    apply (simulates_invoke Start Service alias
             (fun v => c_start c v (property (services a) alias))).
  - intros err. eapply simulates_then; [|apply simulates_throw].
    apply simulates_try_catch; [|intros e; apply simulates_log].
    eapply simulates_then; [apply stop_instrumented | now apply simulates_ret].
Qed.

(** [start] on instrumented components. *)
Lemma start_instrumented :
  simulates (fun a a' => a' = instrumented_atlas a) (start : Comp _) start.
Proof.
  unfold start.
  apply (simulates_bind _ _ _ _ _ _ simulates_this). intros a ? ->.
  cbn [catalog_services catalog_actions catalog_hooks instrumented_atlas].
  eapply simulates_then; [apply prepare_instrumented|].
  apply (simulates_bind _ _ _ _ _ _ simulates_this). intros a1 ? ->.
  cbn [observers instrumented_atlas].
  apply (simulates_bind _ _ _ _ _ _ simulates_subject_this). intros v ? <-.
  eapply simulates_then; [apply simulates_dispatch|].
  eapply simulates_then.
  { apply (simulates_Promise_all_list eq), Forall2_app;
      apply simulated_calls, simulates_start_container. }
  eapply simulates_then.
  { apply (simulates_for_of (wrap Service)), simulates_start_service. }
  eapply simulates_then; [now apply simulates_modify|].
  apply (simulates_bind _ _ _ _ _ _ simulates_subject_this). intros v' ? <-.
  eapply simulates_then; [apply simulates_dispatch|].
  eapply simulates_then; [apply simulates_log|].
  apply simulates_this.
Qed.

(** ** The journal of a run *)

Lemma journal_record {A A' : Type} (R : A -> A' -> Prop)
    (m : Comp A) (m' : Comp' A') s :
  simulates R m m' -> journal m' s = about_components (events (m s)).
Proof. intros H. unfold journal. now destruct (H s []) as (-> & _). Qed.

Lemma journal_prepare s :
  journal prepare s = about_components (events (prepare s)).
Proof. apply (journal_record _ _ _ _ prepare_instrumented). Qed.

Lemma journal_start s :
  journal start s = about_components (events (start s)).
Proof. apply (journal_record _ _ _ _ start_instrumented). Qed.

Lemma journal_stop s :
  journal stop s = about_components (events (stop s)).
Proof. apply (journal_record _ _ _ _ stop_instrumented). Qed.

Lemma invoked_about p k evs : invoked p k (about_components evs) = invoked p k evs.
Proof.
  unfold invoked, about_components.
  induction evs as [|[] evs IH]; simpl; congruence.
Qed.

Lemma thrown_about p k evs : thrown p k (about_components evs) = thrown p k evs.
Proof.
  unfold thrown, about_components.
  induction evs as [|[] evs IH]; simpl; congruence.
Qed.

Lemma delivered_about event evs :
  delivered event (about_components evs) = delivered event evs.
Proof.
  unfold delivered, about_components.
  induction evs as [|[] evs IH]; simpl; congruence.
Qed.

Lemma rejected_about event evs :
  rejected event (about_components evs) = rejected event evs.
Proof.
  unfold rejected, about_components.
  induction evs as [|[] evs IH]; simpl; congruence.
Qed.

Lemma in_about_components (e : Event Instance) evs :
  In e (about_components evs) -> In e evs.
Proof. unfold about_components. intros H. now apply List.filter_In in H. Qed.

Lemma invoked_in_about p k alias (v : View Instance) err evs :
  In (Invoked p k alias v err) evs ->
  In (Invoked p k alias v err) (about_components evs).
Proof. intros H. apply List.filter_In. now split. Qed.

Lemma invoked_in p k alias evs :
  In alias (invoked p k evs) ->
  exists (v : View Instance) err, In (Invoked p k alias v err) evs.
Proof.
  unfold invoked. intros H.
  apply in_flat_map in H as ([p' k' x v err| |] & Hin & He); try now destruct He.
  destruct (Phase_eqb p p' && Kind_eqb k k') eqn:E; [|now destruct He].
  destruct He as [<-|[]]. exists v, err.
  destruct p, p', k, k'; try discriminate; exact Hin.
Qed.

Lemma completes_stop_about evs :
  completes_stop (about_components evs) <-> completes_stop evs.
Proof. unfold completes_stop. now rewrite rejected_about, !thrown_about. Qed.

Lemma about_components_id (Q : Event Instance -> bool) evs :
  Forall (fun e => Q e = true) evs ->
  (forall lvl msg err, Q (Logged lvl msg err) = false) ->
  about_components evs = evs.
Proof.
  intros H HQ. induction H as [|e evs He _ IH]; [reflexivity|].
  unfold about_components in *. cbn [List.filter].
  destruct e; try (now rewrite IH). now rewrite HQ in He.
Qed.

End Simulation.

(** * The claims *)

Section Claims.

Context {World Instance : Type} `{!Prototype Instance}.

Implicit Types (s : State World Instance) (a : Atlas World Instance).
Implicit Types (evs : list (Event Instance)) (l : Registry World Instance).

Lemma invoked_started (v : View Instance) l :
  invoked Start Service
    (map (fun x => Invoked Start Service (fst x) v None) l) = keys l.
Proof. induction l as [|x l IH]; simpl; [reflexivity | now rewrite IH]. Qed.

Lemma thrown_started p k (v : View Instance) l :
  thrown p k (map (fun x => Invoked Start Service (fst x) v None) l) = [].
Proof. induction l as [|x l IH]; simpl; [reflexivity | exact IH]. Qed.

Lemma invoked_rollback_log {A : Type} p k
    (r : Run (World := World) (Instance := Instance) A) :
  invoked p k (rollback_log r) = [].
Proof. unfold rollback_log. now destruct (outcome r). Qed.

Lemma thrown_rollback_log {A : Type} p k
    (r : Run (World := World) (Instance := Instance) A) :
  thrown p k (rollback_log r) = [].
Proof. unfold rollback_log. now destruct (outcome r). Qed.

Lemma rejected_rollback_log {A : Type} event
    (r : Run (World := World) (Instance := Instance) A) :
  rejected event (rollback_log r) = [].
Proof. unfold rollback_log. now destruct (outcome r). Qed.

(** The calls of the loop of [start]: the registration order, as far as
    the loop goes. *)
Lemma start_loop_invoked s :
  invoked Start Service (events (start_loop s))
    `prefix_of` keys (catalog_services (atlas s))
  /\ (is_ok (start_loop s) = true ->
      invoked Start Service (events (start_loop s))
      = keys (catalog_services (atlas s))).
Proof.
  unfold start_loop, is_ok.
  pose proof (start_services_run (catalog_services (atlas s))
                (final (start_actions s))) as H.
  destruct (outcome (for_of _ _ _)) as [[]|err].
  - destruct H as (_ & ->). rewrite invoked_started. now split.
  - destruct H as (pre & alias & c & post & s1 & -> & _ & -> & _).
    rewrite invoked_app, invoked_started. cbn [invoked flat_map Phase_eqb Kind_eqb andb].
    change (flat_map _ (events (stop s1) ++ rollback_log (stop s1)))
      with (invoked Start Service (events (stop s1) ++ rollback_log (stop s1))).
    rewrite invoked_app, invoked_rollback_log. quiet.
    split; [|discriminate].
    unfold keys. rewrite map_app. exists (map fst post).
    cbn. now rewrite <- app_assoc.
Qed.

Lemma start_loop_kind s :
  is_ok (start_loop s) = true ->
  Forall (fun e => is_call Start Service e = true) (events (start_loop s)).
Proof.
  unfold start_loop, is_ok.
  pose proof (start_services_run (catalog_services (atlas s))
                (final (start_actions s))) as H.
  destruct (outcome (for_of _ _ _)) as [[]|err]; [|discriminate].
  destruct H as (_ & ->). intros _. apply Forall_map, Forall_forall.
  intros x _. reflexivity.
Qed.

Lemma start_loop_atlas s :
  is_ok (start_loop s) = true ->
  atlas (final (start_loop s)) = atlas (final (prepare s)).
Proof.
  unfold start_loop, is_ok.
  pose proof (start_services_run (catalog_services (atlas s))
                (final (start_actions s))) as H.
  destruct (outcome (for_of _ _ _)) as [[]|err]; [|discriminate].
  destruct H as (-> & _). intros _.
  transitivity (atlas (final (start_hooks s))).
  { apply (preserves_Promise_all_map (fun a => a = _)); [|reflexivity].
    intros x s' H. exact H. }
  transitivity (atlas (final (start_beforeStart s))).
  { apply (preserves_Promise_all_map (fun a => a = _)); [|reflexivity].
    intros x s' H. exact H. }
  apply dispatch_atlas.
Qed.

(** A run of [start] that resolves went through every stretch. *)
Lemma start_resolved s :
  is_ok (start s) = true ->
  is_ok (prepare s) = true /\ is_ok (start_beforeStart s) = true
  /\ is_ok (start_hooks s) = true /\ is_ok (start_actions s) = true
  /\ is_ok (start_loop s) = true /\ is_ok (start_afterStart s) = true
  /\ final (start s) = final (start_afterStart s)
  /\ events (start s)
     = events (prepare s) ++ events (start_beforeStart s)
       ++ events (start_hooks s) ++ events (start_actions s)
       ++ events (start_loop s) ++ events (start_afterStart s)
       ++ [Logged Info "atlas:ready" None].
Proof.
  unfold is_ok. rewrite start_run.
  destruct (start_components_split s) as (_ & He & Ho).
  destruct (outcome (prepare s)); [|discriminate].
  destruct (outcome (start_beforeStart s)); [|discriminate].
  destruct (outcome (start_components s)); [|discriminate].
  destruct (outcome (start_loop s)); [|discriminate].
  destruct (outcome (start_afterStart s)); [|discriminate].
  cbn in Ho.
  destruct (outcome (start_hooks s)); [|discriminate].
  destruct (outcome (start_actions s)); [|discriminate].
  cbn [events final outcome]. rewrite He, <- !app_assoc. auto 10.
Qed.





(** An event of a kind that a stretch cannot record is not in its record. *)
Lemma not_of_kind (Q : Event Instance -> bool) evs e :
  Forall (fun e => Q e = true) evs -> Q e = false -> ~ In e evs.
Proof.
  intros K He H. rewrite Forall_forall in K. apply list_elem_of_In in H.
  specialize (K _ H). congruence.
Qed.

Lemma start_actions_atlas s :
  atlas (final (start_actions s)) = atlas (final (prepare s)).
Proof.
  transitivity (atlas (final (start_hooks s))).
  { apply (preserves_Promise_all_map (fun a => a = _)); [|reflexivity].
    intros x s' H. exact H. }
  transitivity (atlas (final (start_beforeStart s))).
  { apply (preserves_Promise_all_map (fun a => a = _)); [|reflexivity].
    intros x s' H. exact H. }
  apply dispatch_atlas.
Qed.

Lemma start_rolls_back_at s alias v err :
  In (Invoked Start Service alias v (Some err)) (events (start s)) ->
  outcome (start s) = Throw err
  /\ exists pre s1,
       events (start s)
       = pre ++ Invoked Start Service alias v (Some err)
                :: events (stop s1) ++ rollback_log (stop s1)
       /\ final (start s) = final (stop s1)
       /\ view (atlas s1) = v
       /\ same_catalog (atlas s) (atlas s1)
       /\ thrown Start Service pre = []
       /\ invoked Start Service (events (stop s1) ++ rollback_log (stop s1)) = [].
Proof.
  intros H.
  assert (Hloop : In (Invoked Start Service alias v (Some err))
                    (events (start_loop s))
                  /\ exists pre0, forall r e,
                       outcome (start_loop s) = Throw e ->
                       r = {| final := final (start_loop s);
                              events := pre0 ++ events (start_loop s);
                              outcome := Throw e |} ->
                       start s = r /\ thrown Start Service pre0 = []).
  { rewrite start_run in H. rewrite start_run.
    destruct (start_components_split s) as (_ & He & _).
    destruct (outcome (prepare s)); cbn [events] in H.
    2:{ now apply (not_of_kind _ _ _ (prepare_kind s)) in H. }
    destruct (outcome (start_beforeStart s)); cbn [events] in H.
    2:{ apply in_app_or in H as [H|H].
        - now apply (not_of_kind _ _ _ (prepare_kind s)) in H.
        - now apply (not_of_kind _ _ _ (start_beforeStart_kind s)) in H. }
    assert (Hc : ~ In (Invoked Start Service alias v (Some err))
                   (events (start_components s))).
    { rewrite He. intros Hc. apply in_app_or in Hc as [Hc|Hc].
      - now apply (not_of_kind _ _ _ (start_hooks_kind s)) in Hc.
      - now apply (not_of_kind _ _ _ (start_actions_kind s)) in Hc. }
    assert (Hp : ~ In (Invoked Start Service alias v (Some err))
                   (events (prepare s)))
      by now apply (not_of_kind _ _ _ (prepare_kind s)).
    assert (Hb : ~ In (Invoked Start Service alias v (Some err))
                   (events (start_beforeStart s)))
      by now apply (not_of_kind _ _ _ (start_beforeStart_kind s)).
    assert (Ha : ~ In (Invoked Start Service alias v (Some err))
                   (events (start_afterStart s)))
      by now apply (not_of_kind _ _ _ (start_afterStart_kind s)).
    assert (Hq : thrown Start Service
                   (events (prepare s) ++ events (start_beforeStart s)
                    ++ events (start_components s)) = []).
    { rewrite He. now project. }
    destruct (outcome (start_components s)); cbn [events] in H.
    2:{ rewrite !in_app_iff in H. tauto. }
    split.
    - destruct (outcome (start_loop s)); [destruct (outcome (start_afterStart s))|];
        cbn [events] in H; rewrite !in_app_iff in H; cbn [In] in H;
        intuition discriminate.
    - exists (events (prepare s) ++ events (start_beforeStart s)
              ++ events (start_components s)).
      intros r e -> ->. rewrite <- !app_assoc. auto. }
  destruct Hloop as (Hin & pre0 & Hrun).
  unfold start_loop in Hin, Hrun.
  pose proof (start_services_run (catalog_services (atlas s))
                (final (start_actions s))) as Hl.
  destruct (outcome (for_of _ _ _)) as [[]|err'] eqn:Ho.
  { destruct Hl as (_ & Hev). rewrite Hev in Hin.
    apply in_map_iff in Hin as (x & Hx & _). discriminate. }
  destruct Hl as (pre & alias' & c & post & s1 & _ & Ha & Hev & Hf).
  destruct (Hrun _ err' eq_refl eq_refl) as (-> & Hq). cbn [outcome events final].
  rewrite Hev in Hin. apply in_app_or in Hin as [Hin|Hin].
  { apply in_map_iff in Hin as (x & Hx & _). discriminate. }
  destruct Hin as [Hin|Hin].
  2:{ apply in_app_or in Hin as [Hin|Hin].
      - now apply (not_of_kind _ _ _ (stop_kind s1)) in Hin.
      - now apply (not_of_kind _ _ _ (rollback_log_kind (stop s1))) in Hin. }
  injection Hin as -> Hv ->. split; [reflexivity|].
  exists (pre0 ++ map (fun x => Invoked Start Service (fst x)
                          (view (atlas (final (start_actions s)))) None) pre), s1.
  rewrite Hev, <- app_assoc, Hv. repeat split; try assumption.
  - rewrite <- Hv. now rewrite Ha.
  - rewrite Ha, start_actions_atlas.
    destruct (prepare_catalog s) as (E1 & _). exact E1.
  - rewrite Ha, start_actions_atlas.
    destruct (prepare_catalog s) as (_ & E2 & _). exact E2.
  - rewrite Ha, start_actions_atlas.
    destruct (prepare_catalog s) as (_ & _ & E3). exact E3.
  - rewrite thrown_app, Hq, thrown_started. reflexivity.
  - rewrite invoked_app, invoked_rollback_log. now quiet.
Qed.

Lemma in_invoked p k alias (v : View Instance) err evs :
  In (Invoked p k alias v err) evs -> In alias (invoked p k evs).
Proof.
  intros H. apply in_flat_map. eexists; split; [exact H|].
  destruct p, k; simpl; now left.
Qed.


Lemma unpublish_lookup_None aliases (m : gmap string Instance) alias :
  m !! alias = None \/ In alias aliases ->
  unpublish aliases m !! alias = None.
Proof.
  revert m. induction aliases as [|x aliases IH]; intros m H; cbn.
  - destruct H as [H|[]]. exact H.
  - apply IH. destruct H as [H|[->|H]]; [left|left|now right].
    + apply lookup_delete_None. now right.
    + apply lookup_delete_eq.
Qed.

Lemma unpublish_all aliases (m : gmap string Instance) :
  (forall alias, is_Some (m !! alias) -> In alias aliases) ->
  unpublish aliases m = ∅.
Proof.
  intros H. apply map_eq. intros alias. rewrite lookup_empty.
  apply unpublish_lookup_None.
  destruct (m !! alias) eqn:E; [right; apply H; now rewrite E | now left].
Qed.

(** The orchestrator after the loops of [stop]. *)
Lemma stopped_flags a : prepared (stopped a) = false /\ started (stopped a) = false.
Proof. split; reflexivity. Qed.

Lemma stopped_services a alias :
  In alias (keys (catalog_services a)) -> services (stopped a) !! alias = None.
Proof.
  intros H. cbn. apply unpublish_lookup_None. right. now apply in_rev in H.
Qed.



Lemma stop_unpublishes_before_stopping_at s alias v err :
  In (Invoked Stop Service alias v err) (events (stop s)) ->
  v_services v !! alias = None
  /\ services (atlas (final (stop s))) !! alias = None.
Proof.
  intros H. split.
  - assert (K : Forall (fun e : Event Instance =>
                  match e with
                  | Invoked Stop Service x w _ => v_services w !! x = None
                  | _ => True
                  end) (events (stop s))) by (apply stop_emits; auto).
    rewrite Forall_forall in K. apply list_elem_of_In in H.
    apply (K _ H).
  - pose proof (stop_attempt_completes s alias v err H) as Hc.
    destruct (stop_completed_record s Hc) as (-> & _ & _ & Hi & _).
    apply in_invoked in H. rewrite Hi in H. apply in_rev in H.
    now apply stopped_services.
Qed.

Lemma prepare_resolved_prepared s :
  is_ok (prepare s) = true -> prepared (atlas (final (prepare s))) = true.
Proof.
  unfold is_ok. rewrite prepare_run.
  destruct (prepared (atlas s)) eqn:Hp; [intros _; exact Hp|].
  destruct (outcome (prepare_scan s)); [|discriminate].
  destruct (outcome (prepare_hooks s)); [|discriminate].
  destruct (outcome (prepare_actions s)); [|discriminate].
  destruct (outcome (prepare_services s)); [|discriminate].
  intros _. cbn [final]. unfold prepare_afterPrepare.
  now rewrite dispatch_atlas.
Qed.

(** C4. Once [prepare] has resolved, a second [prepare] returns at once: it
    resolves with the orchestrator, leaves the orchestrator (its public
    [services] and [actions] with it) and the components as they are, and
    calls no container. *)
Theorem prepare_twice s :
  is_ok (prepare s) = true ->
  prepare (final (prepare s))
  = {| final := final (prepare s); events := [];
       outcome := Ok (atlas (final (prepare s))) |}.
Proof.
  intros H. rewrite (prepare_run (final (prepare s))).
  now rewrite (prepare_resolved_prepared s H).
Qed.

Lemma unobserving_spec l :
  (exists alias c, In (alias, c) l /\ truthy (observes (Component c)) = false) ->
  exists alias c,
    unobserving l = Some alias
    /\ In (alias, c) l /\ truthy (observes (Component c)) = false.
Proof.
  induction l as [|[alias c] l IH]; intros (alias0 & c0 & Hin & Hc0).
  - destruct Hin.
  - cbn [unobserving].
    destruct (truthy (observes (Component c))) eqn:Hc.
    + destruct Hin as [Heq|Hin]; [injection Heq as -> ->; congruence|].
      destruct IH as (alias1 & c1 & H1 & H2 & H3); [eauto|].
      exists alias1, c1. repeat split; auto. now right.
    + exists alias, c. repeat split; auto. now left.
Qed.

(** C6. On an orchestrator that is not prepared yet, if a registered hook
    has no static [observes], [prepare] throws the framework error that
    names such a hook, the first of the registry, and it throws it from its
    loop over the hooks: no container has been called, the components and
    what the orchestrator shows are as they were. *)
Theorem prepare_rejects_unobserving_hook s :
  prepared (atlas s) = false ->
  (exists alias c, In (alias, c) (catalog_hooks (atlas s))
                   /\ observes (Component c) = None) ->
  exists alias c,
    In (alias, c) (catalog_hooks (atlas s))
    /\ truthy (observes (Component c)) = false
    /\ unobserving (catalog_hooks (atlas s)) = Some alias
    /\ outcome (prepare s)
       = Throw (FrameworkError
                  ("Hook " +:+ alias
                   +:+ " does not have static 'observes' property"))
    /\ events (prepare s) = []
    /\ world (final (prepare s)) = world s
    /\ view (atlas (final (prepare s))) = view (atlas s).
Proof.
  intros Hp (alias0 & c0 & Hin & Hobs).
  destruct (unobserving_spec (catalog_hooks (atlas s))) as (alias & c & Hu & H1 & H2).
  { exists alias0, c0. split; [exact Hin|]. now rewrite Hobs. }
  exists alias, c. repeat split; try assumption;
    rewrite prepare_run, Hp;
    destruct (scan_run (catalog_hooks (atlas s)) s) as (_ & Hw & (obs & Ha) & Ho);
    fold (prepare_scan s) in Hw, Ha, Ho; rewrite Hu in Ho; rewrite Ho;
    cbn [outcome events final]; auto.
  now rewrite Ha.
Qed.

(** A [stop] on an orchestrator that was never prepared nor started, on
    the record of the orchestrator. *)
Lemma stop_without_start_on_record s :
  prepared (atlas s) = false -> started (atlas s) = false ->
  observers (atlas s) = [] ->
  delivered "beforeStop" (events (stop s)) = []
  /\ rejected "beforeStop" (events (stop s)) = []
  /\ (forall e, outcome (stop s) = Throw e ->
        In e (thrown Stop Hook (events (stop s))
              ++ thrown Stop Action (events (stop s))
              ++ thrown Stop Service (events (stop s))
              ++ rejected "afterStop" (events (stop s))))
  /\ (is_ok (stop s) = true ->
      invoked Stop Hook (events (stop s)) = keys (catalog_hooks (atlas s))
      /\ invoked Stop Action (events (stop s)) = keys (catalog_actions (atlas s))
      /\ invoked Stop Service (events (stop s))
         = rev (keys (catalog_services (atlas s)))
      /\ prepared (atlas (final (stop s))) = false
      /\ started (atlas (final (stop s))) = false
      /\ delivered "afterStop" (events (stop s)) = keys (catalog_hooks (atlas s))
      /\ outcome (stop s) = Ok (atlas (final (stop s)))).
Proof.
  intros _ _ Hobs.
  assert (Hb : events (stop_beforeStop s) = []).
  { unfold stop_beforeStop. now rewrite Hobs. }
  assert (Hd : delivered "beforeStop" (events (stop s)) = []
               /\ rejected "beforeStop" (events (stop s)) = []).
  { assert (Ho1 : outcome (stop_beforeStop s) = Ok tt).
    { unfold stop_beforeStop. now rewrite Hobs. }
    rewrite stop_run, Ho1.
    destruct (stop_components_split s) as (_ & Hs & _).
    destruct (outcome (stop_components s)); cbn [events].
    - destruct (outcome (stop_afterStop s)); cbn [events];
        rewrite Hb, Hs; now project.
    - rewrite Hb, Hs; now project. }
  destruct Hd as (Hd1 & Hd2).
  split; [exact Hd1|]. split; [exact Hd2|].
  pose proof (dispatch_record "afterStop" None (catalog_hooks (atlas s))
                {| atlas := stopped (atlas s);
                   world := world (final (stop_loop s)) |}) as Hrec.
  fold (stop_afterStop s) in Hrec.
  split.
  - intros e He.
    destruct (stop_cases s) as [Hc | (_ & _ & e' & He' & Hin)].
    + destruct (stop_completed_record s Hc) as (_ & _ & _ & _ & _ & Ht & Hr & _).
      destruct (stop_completed s Hc) as (_ & _ & Ho & _).
      rewrite Ht, Hr. rewrite Ho in He.
      rewrite !in_app_iff. do 2 right.
      destruct (outcome (stop_afterStop s)).
      * left. unfold rethrown in He.
        destruct (last (thrown Stop Service (events (stop_loop s)))) eqn:El;
          [|discriminate].
        destruct (is_truthy _); [|discriminate].
        injection He as <-. apply last_Some in El as (l' & ->).
        apply in_or_app. right. now left.
      * right. injection He as <-. rewrite Hrec. now left.
    + rewrite He in He'. injection He' as <-. rewrite Hd2 in Hin.
      rewrite !in_app_iff in *. cbn [In] in Hin. tauto.
  - intros H. pose proof (stop_resolved_completes s H) as Hc.
    destruct (stop_completed_record s Hc)
      as (Ha & Hh & Hac & Hsv & _ & _ & _ & Hdl).
    destruct (stop_completed s Hc) as (_ & _ & Ho & _).
    unfold is_ok in H. rewrite Ho in H. rewrite Ha, Hdl, Ho.
    destruct (outcome (stop_afterStop s)); [|discriminate].
    destruct Hrec as (-> & _). unfold rethrown in *.
    destruct (last _) as [e|]; [destruct (is_truthy e); [discriminate|]|];
      now repeat split.
Qed.

(** C10. [stop] asks nothing of the state of the orchestrator. On one that
    was never prepared nor started, the components being instrumented:
    nothing observes [beforeStop]; [stop] throws only what a component has
    thrown; and when it resolves it has called [stop] on every container
    of the catalog, put both flags down, delivered [afterStop] to every
    hook of the catalog, and it resolves with the orchestrator. *)
Theorem stop_without_start s :
  prepared (atlas s) = false -> started (atlas s) = false ->
  observers (atlas s) = [] ->
  delivered "beforeStop" (journal stop s) = []
  /\ rejected "beforeStop" (journal stop s) = []
  /\ (forall e, outcome (stop s) = Throw e ->
        In e (thrown Stop Hook (journal stop s)
              ++ thrown Stop Action (journal stop s)
              ++ thrown Stop Service (journal stop s)
              ++ rejected "afterStop" (journal stop s)))
  /\ (is_ok (stop s) = true ->
      invoked Stop Hook (journal stop s) = keys (catalog_hooks (atlas s))
      /\ invoked Stop Action (journal stop s)
         = keys (catalog_actions (atlas s))
      /\ invoked Stop Service (journal stop s)
         = rev (keys (catalog_services (atlas s)))
      /\ prepared (atlas (final (stop s))) = false
      /\ started (atlas (final (stop s))) = false
      /\ delivered "afterStop" (journal stop s)
         = keys (catalog_hooks (atlas s))
      /\ outcome (stop s) = Ok (atlas (final (stop s)))).
Proof.
  rewrite journal_stop, !delivered_about, !rejected_about, !thrown_about,
    !invoked_about.
  apply stop_without_start_on_record.
Qed.

(** ** The public mappings stay within the catalog *)

Lemma Map_get_in alias l c : Map_get alias l = Some c -> In alias (keys l).
Proof.
  induction l as [|[k c'] l IH]; cbn; [discriminate|].
  destruct (String.eqb k alias) eqn:E.
  - apply String.eqb_eq in E. now left.
  - intros H. right. now apply IH.
Qed.

Lemma within_exposed a k alias i :
  In alias (keys (registry_of k a)) ->
  within_catalog a -> within_catalog (exposed k alias i a).
Proof.
  intros E (Hs & Ha). unfold exposed.
  destruct (marked_internal k alias a); [now split|].
  destruct k; [now split| |]; split; cbn; try assumption; intros x Hx.
  - destruct (decide (alias = x)) as [<-|Hne]; [exact E|].
    rewrite lookup_insert_ne in Hx by exact Hne. now apply Hs.
  - destruct (decide (alias = x)) as [<-|Hne]; [exact E|].
    rewrite lookup_insert_ne in Hx by exact Hne. now apply Ha.
Qed.

Lemma within_unpublished_service a alias :
  within_catalog a ->
  within_catalog (set_services (delete alias (services a)) a).
Proof.
  intros (Hs & Ha). split; cbn; [|exact Ha].
  intros x (i & Hx). apply lookup_delete_Some in Hx as (_ & Hx).
  apply Hs. now exists i.
Qed.

Lemma within_unpublished_action a alias :
  within_catalog a ->
  within_catalog (set_actions (delete alias (actions a)) a).
Proof.
  intros (Hs & Ha). split; cbn; [exact Hs|].
  intros x (i & Hx). apply lookup_delete_Some in Hx as (_ & Hx).
  apply Ha. now exists i.
Qed.

Lemma within_registered (P : Atlas World Instance -> Prop) alias c
    (get : Atlas World Instance -> Registry World Instance)
    (set : Registry World Instance -> Atlas World Instance -> Atlas World Instance)
    (m : State World Instance -> Run (Atlas World Instance)) s :
  (forall s, m s
     = bind this (fun a =>
         match component alias c (get a) with
         | Ok reg => bind (modify (set reg)) (fun _ => this)
         | Throw e => throw e
         end) s) ->
  (forall a, P a -> P (set (get a ++ [(alias, c)]) a)) ->
  P (atlas s) -> P (atlas (final (m s))).
Proof.
  intros Hm Hset H. rewrite Hm, bind_this. unfold component.
  destruct (Map_has alias (get (atlas s))); [exact H|].
  rewrite bind_modify. cbn. now apply Hset.
Qed.

Lemma keys_app l l' : keys (l ++ l') = keys l ++ keys l'.
Proof. apply map_app. Qed.

Lemma reachable_within_catalog s : reachable s -> within_catalog (atlas s).
Proof.
  induction 1 as [e n r a w Hc| | s alias c _ IH | s alias c _ IH
                 | s alias c _ IH | s _ IH | s _ IH | s _ IH].
  - unfold constructor in Hc.
    destruct (if truthy e then e else n); [|discriminate].
    destruct (negb _); [discriminate|]. destruct r; [|discriminate].
    injection Hc as <-. split; cbn; intros x Hx;
      rewrite lookup_empty in Hx; now destruct Hx.
  - assumption.
  - apply (within_registered within_catalog alias c catalog_services
             set_catalog_services); [reflexivity| |exact IH].
    intros a (Hs & Ha). split; cbn; [|exact Ha].
    intros x Hx. unfold keys in *. rewrite map_app. apply in_or_app. left.
    now apply Hs.
  - apply (within_registered within_catalog alias c catalog_hooks
             set_catalog_hooks); [reflexivity| |exact IH].
    intros a Hw. exact Hw.
  - apply (within_registered within_catalog alias c catalog_actions
             set_catalog_actions); [reflexivity| |exact IH].
    intros a (Hs & Ha). split; cbn; [exact Hs|].
    intros x Hx. unfold keys in *. rewrite map_app. apply in_or_app. left.
    now apply Ha.
  - apply (prepare_keeps within_catalog); auto using within_exposed.
  - apply (start_keeps within_catalog);
      auto using within_exposed, within_unpublished_service,
                 within_unpublished_action.
  - apply (stop_preserves within_catalog);
      auto using within_unpublished_service, within_unpublished_action.
Qed.

Lemma stopped_empty a :
  within_catalog a -> services (stopped a) = ∅ /\ actions (stopped a) = ∅.
Proof.
  intros (Hs & Ha). split; cbn; apply unpublish_all; [|exact Ha].
  intros x Hx. apply in_rev. rewrite rev_involutive. now apply Hs.
Qed.

(** C5. A new orchestrator is neither prepared nor started. After a [start]
    that resolves and a [stop] that gets to its end (one that is not cut
    short by an observer of [beforeStop] or by the [stop] of a hook or an
    action that throws: any [stop] that resolves is such a one) the
    orchestrator is neither prepared nor started and its public [services]
    and [actions] are empty. And every [stop] that gets to its end leaves
    the orchestrator neither prepared nor started. *)
Theorem start_then_stop :
  (forall e n r a,
     constructor (World := World) (Instance := Instance) e n r = Ok a ->
     prepared a = false /\ started a = false)
  /\ (forall s,
        reachable s ->
        is_ok (start s) = true ->
        completes_stop (events (stop (final (start s)))) ->
        prepared (atlas (final (stop (final (start s))))) = false
        /\ started (atlas (final (stop (final (start s))))) = false
        /\ services (atlas (final (stop (final (start s))))) = ∅
        /\ actions (atlas (final (stop (final (start s))))) = ∅)
  /\ (forall s, is_ok (stop s) = true -> completes_stop (events (stop s)))
  /\ (forall s, completes_stop (events (stop s)) ->
                prepared (atlas (final (stop s))) = false
                /\ started (atlas (final (stop s))) = false).
Proof.
  split; [|split; [|split]].
  - intros e n r a H. unfold constructor in H.
    destruct (if truthy e then e else n); [|discriminate].
    destruct (negb _); [discriminate|]. destruct r; [|discriminate].
    injection H as <-. split; reflexivity.
  - intros s Hr _ Hc. destruct (stop_completed_record _ Hc) as (-> & _).
    pose proof (reachable_within_catalog _ (reach_start _ Hr)) as Hw.
    destruct (stopped_empty _ Hw) as (-> & ->). repeat split.
  - apply stop_resolved_completes.
  - intros s H. destruct (stop_completed_record _ H) as (-> & _).
    split; reflexivity.
Qed.

(** ** What a run that resolves has on record *)

Lemma prepare_services_observers s :
  observers (atlas (final (prepare_services s)))
  = observers (atlas (final (prepare_scan s))).
Proof.
  unfold prepare_services, prepare_actions, prepare_hooks.
  set (P := fun a : Atlas World Instance =>
              observers a = observers (atlas (final (prepare_scan s)))).
  assert (He : forall k a alias i, P a -> P (exposed k alias i a)).
  { intros k a alias i Ha. unfold P in *.
    now destruct (exposed_flags k alias i a) as (_ & _ & ->). }
  apply (prepare_exposed_keeps P); [intros a alias i _; apply He|].
  apply (prepare_exposed_keeps P); [intros a alias i _; apply He|].
  apply (preserves_Promise_all_map P); [|reflexivity].
  intros x. apply preserves_invoke.
Qed.

Lemma prepare_resolved s :
  prepared (atlas s) = false ->
  is_ok (prepare s) = true ->
  invoked Prepare Hook (events (prepare s)) = keys (catalog_hooks (atlas s))
  /\ invoked Prepare Action (events (prepare s)) = keys (catalog_actions (atlas s))
  /\ invoked Prepare Service (events (prepare s))
     = keys (catalog_services (atlas s))
  /\ delivered "afterPrepare" (events (prepare s))
     = keys (observers (atlas (final (prepare s))))
  /\ observers (atlas (final (prepare s)))
     = observers (atlas (final (prepare_scan s))).
Proof.
  intros Hp. unfold is_ok. rewrite prepare_run, Hp.
  destruct (outcome (prepare_scan s)); [|discriminate].
  destruct (outcome (prepare_hooks s)); [|discriminate].
  destruct (outcome (prepare_actions s)); [|discriminate].
  destruct (outcome (prepare_services s)); [|discriminate].
  cbn [events final outcome].
  pose proof (dispatch_record "afterPrepare"
    (Some (view (set_prepared true (atlas (final (prepare_services s))))))
    (observers (set_prepared true (atlas (final (prepare_services s)))))
    {| atlas := set_prepared true (atlas (final (prepare_services s)));
       world := world (final (prepare_services s)) |}) as Hrec.
  fold (prepare_afterPrepare s) in Hrec.
  destruct (outcome (prepare_afterPrepare s)); [|discriminate].
  intros _. destruct Hrec as (Hd & _).
  assert (Ha : atlas (final (prepare_afterPrepare s))
               = set_prepared true (atlas (final (prepare_services s))))
    by apply dispatch_atlas.
  rewrite Ha. cbn [observers set_prepared] in *.
  project. rewrite Hd.
  repeat split;
    first [apply Promise_all_invoked, one_call_prepare_hook
          | apply prepare_exposed_invoked
          | apply prepare_services_observers].
Qed.

Lemma start_resolved_record s :
  is_ok (start s) = true ->
  atlas (final (start s)) = set_started true (atlas (final (prepare s)))
  /\ invoked Start Hook (events (start s)) = keys (catalog_hooks (atlas s))
  /\ invoked Start Action (events (start s)) = keys (catalog_actions (atlas s))
  /\ invoked Start Service (events (start s))
     = keys (catalog_services (atlas s))
  /\ delivered "beforeStart" (events (start s))
     = keys (observers (atlas (final (prepare s))))
  /\ delivered "afterStart" (events (start s))
     = keys (observers (atlas (final (prepare s))))
  /\ (forall k, invoked Prepare k (events (start s))
                = invoked Prepare k (events (prepare s)))
  /\ delivered "afterPrepare" (events (start s))
     = delivered "afterPrepare" (events (prepare s)).
Proof.
  intros H.
  destruct (start_resolved s H) as (_ & Hb & _ & _ & Hl & Ha & -> & ->).
  pose proof (start_loop_kind s Hl) as K.
  destruct (start_loop_invoked s) as (_ & Hi). specialize (Hi Hl).
  pose proof (start_loop_atlas s Hl) as Hat.
  apply dispatch_resolved in Hb as (Hb & _).
  unfold start_afterStart in Ha |- *. cbv zeta in Ha |- *.
  pose proof Ha as Ha'. apply dispatch_resolved in Ha' as (Ha' & _).
  fold (start_beforeStart s) in Hb.
  match type of Ha' with delivered _ (events ?r) = _ => set (r5 := r) in * end.
  assert (K5 : Forall (fun e : Event Instance => is_delivery "afterStart" e = true)
                 (events r5)) by apply dispatch_kind.
  split; [unfold r5; rewrite dispatch_atlas; cbn [atlas]; now rewrite Hat|].
  project.
  repeat split; try assumption;
    try (apply Promise_all_invoked, one_call_start_container).
  intros k. project. destruct k; now project.
Qed.

Lemma Map_set_in alias c l k c' :
  In (k, c') (Map_set alias c l) -> (k, c') = (alias, c) \/ In (k, c') l.
Proof.
  induction l as [|[k0 c0] l IH]; cbn.
  - intros [H|[]]. now left.
  - destruct (String.eqb k0 alias) eqn:E.
    + apply String.eqb_eq in E. subst k0. intros [H|H]; [now left|].
      right. now right.
    + intros [H|H]; [right; now left|].
      destruct (IH H) as [H'|H']; [now left | right; now right].
Qed.

(** The registry of observers only takes in hooks that observe the
    orchestrator. *)
Lemma scan_observers l s alias c :
  In (alias, c) (observers (atlas (final (for_of l scan s)))) ->
  In (alias, c) (observers (atlas s))
  \/ (In (alias, c) l /\ observes (Component c) = Some "atlas").
Proof.
  revert s. induction l as [|[k c0] l IH]; intros s; [now left|].
  cbn [for_of]. unfold scan at 1.
  destruct (truthy (observes (Component c0))); cbn [negb].
  2:{ rewrite (bind_throw _ _ _ (hook_error k)) by reflexivity. now left. }
  destruct (observes_atlas c0) eqn:Ho.
  - rewrite bind_modify. intros H. apply IH in H as [H|(H & Hc)].
    + cbn in H. apply Map_set_in in H as [H|H]; [|now left].
      injection H as -> ->. right. split; [now left|].
      unfold observes_atlas in Ho.
      destruct (observes (Component c0)) as [t|]; [|discriminate].
      apply String.eqb_eq in Ho. now subst.
    + right. split; [now right | exact Hc].
  - rewrite bind_ret. intros H. apply IH in H as [H|(H & Hc)]; [now left|].
    right. split; [now right | exact Hc].
Qed.

Lemma stop_resolved_deliveries s :
  is_ok (stop s) = true ->
  delivered "afterStop" (events (stop s)) = keys (catalog_hooks (atlas s))
  /\ delivered "beforeStop" (events (stop s)) = keys (observers (atlas s)).
Proof.
  intros H. pose proof (stop_resolved_completes s H) as Hc.
  destruct (stop_completed_record s Hc) as (_ & _ & _ & _ & Hb & _ & _ & Hdl).
  destruct (stop_completed s Hc) as (_ & _ & Ho & _).
  unfold is_ok in H. rewrite Ho in H. rewrite Hb, Hdl.
  pose proof (dispatch_record "afterStop" None (catalog_hooks (atlas s))
                {| atlas := stopped (atlas s);
                   world := world (final (stop_loop s)) |}) as Hrec.
  fold (stop_afterStop s) in Hrec.
  destruct (outcome (stop_afterStop s)); [|discriminate].
  destruct Hrec as (-> & _). now split.
Qed.

(** C8. [stop] hands [afterStop] to the hook catalog itself: whatever the
    run, it goes to the hooks of the catalog in registration order, and
    when [stop] resolves every registered hook has received it, whether it
    observes the orchestrator or not. The other lifecycle events go to the
    registry of observers: [beforeStop] in [stop], [beforeStart] and
    [afterStart] in [start], [afterPrepare] in [prepare]; and that registry
    only takes in hooks whose [observes] is ['atlas']. *)
Theorem afterStop_goes_to_every_hook :
  (forall s,
     delivered "afterStop" (events (stop s))
       `prefix_of` keys (catalog_hooks (atlas s))
     /\ delivered "beforeStop" (events (stop s))
          `prefix_of` keys (observers (atlas s)))
  /\ (forall s,
        is_ok (stop s) = true ->
        delivered "afterStop" (events (stop s)) = keys (catalog_hooks (atlas s))
        /\ delivered "beforeStop" (events (stop s)) = keys (observers (atlas s)))
  /\ (forall s,
        is_ok (start s) = true ->
        delivered "beforeStart" (events (start s))
        = keys (observers (atlas (final (start s))))
        /\ delivered "afterStart" (events (start s))
           = keys (observers (atlas (final (start s)))))
  /\ (forall s,
        prepared (atlas s) = false ->
        is_ok (prepare s) = true ->
        delivered "afterPrepare" (events (prepare s))
        = keys (observers (atlas (final (prepare s))))
        /\ forall alias c,
             In (alias, c) (observers (atlas (final (prepare s)))) ->
             In (alias, c) (observers (atlas s))
             \/ (In (alias, c) (catalog_hooks (atlas s))
                 /\ observes (Component c) = Some "atlas")).
Proof.
  split; [|split; [|split]].
  - intros s.
    pose proof (dispatch_prefix "beforeStop" (Some (view (atlas s)))
                  (observers (atlas s)) s) as Hb.
    fold (stop_beforeStop s) in Hb.
    pose proof (dispatch_prefix "afterStop" None (catalog_hooks (atlas s))
                  {| atlas := stopped (atlas s);
                     world := world (final (stop_loop s)) |}) as Ha.
    fold (stop_afterStop s) in Ha.
    destruct (stop_components_split s) as (_ & He & _).
    rewrite stop_run.
    destruct (outcome (stop_beforeStop s)); cbn [events];
      [|project; split; [apply prefix_nil | exact Hb]].
    destruct (outcome (stop_components s)); cbn [events]; rewrite He;
      [|project; split; [apply prefix_nil | exact Hb]].
    destruct (outcome (stop_afterStop s)); cbn [events]; project;
      split; assumption.
  - intros s H.
    destruct (stop_resolved_deliveries s H) as (H1 & H2). now split.
  - intros s H.
    destruct (start_resolved_record s H) as (-> & _ & _ & _ & -> & -> & _).
    now split.
  - intros s Hp H.
    destruct (prepare_resolved s Hp H) as (_ & _ & _ & -> & Ho).
    split; [reflexivity|]. intros alias c Hin. rewrite Ho in Hin.
    now apply scan_observers in Hin.
Qed.

(** A second [start], on the record of the orchestrator. *)
Lemma start_twice_on_record s :
  is_ok (start s) = true ->
  let s1 := final (start s) in
  started (atlas s1) = true
  /\ prepared (atlas s1) = true
  /\ events (prepare s1) = []
  /\ (exists rest,
        events (start s1)
        = events (dispatch "beforeStart" (Some (view (atlas s1)))
                    (observers (atlas s1)) s1) ++ rest)
  /\ (is_ok (start s1) = true ->
      let evs := events (start s1) in
      (forall k, invoked Prepare k evs = [])
      /\ delivered "afterPrepare" evs = []
      /\ delivered "beforeStart" evs = keys (observers (atlas s1))
      /\ delivered "afterStart" evs = keys (observers (atlas s1))
      /\ invoked Start Hook evs = keys (catalog_hooks (atlas s1))
      /\ invoked Start Action evs = keys (catalog_actions (atlas s1))
      /\ invoked Start Service evs = keys (catalog_services (atlas s1))).
Proof.
  intros H s1. subst s1.
  destruct (start_resolved_record s H) as (Ha & _).
  destruct (start_resolved s H) as (Hp & _).
  apply prepare_resolved_prepared in Hp.
  assert (Hp1 : prepared (atlas (final (start s))) = true)
    by (rewrite Ha; exact Hp).
  assert (Hrun : prepare (final (start s))
                 = {| final := final (start s); events := [];
                      outcome := Ok (atlas (final (start s))) |}).
  { now rewrite prepare_run, Hp1. }
  split; [now rewrite Ha|]. split; [exact Hp1|].
  split; [now rewrite Hrun|]. split.
  - assert (Hb : start_beforeStart (final (start s))
                 = dispatch "beforeStart" (Some (view (atlas (final (start s)))))
                     (observers (atlas (final (start s)))) (final (start s))).
    { unfold start_beforeStart. now rewrite Hrun. }
    rewrite <- Hb, (start_run (final (start s))), Hrun. cbn [outcome events].
    destruct (outcome (start_beforeStart _)); cbn [events];
      [|exists []; now rewrite app_nil_r].
    destruct (outcome (start_components _)); cbn [events]; [|eauto].
    destruct (outcome (start_loop _)); cbn [events]; [|eauto].
    destruct (outcome (start_afterStart _)); cbn [events]; eauto.
  - intros H1 evs. subst evs.
    destruct (start_resolved_record _ H1)
      as (_ & Hh & Hac & Hs & Hb & Haf & Hk & Hd).
    rewrite Hrun in *. cbn [final events] in *.
    repeat split; assumption.
Qed.

(** C9. [start] does not look at the [started] flag. After a [start] that
    has resolved the orchestrator is started and prepared; in a second
    [start] the [prepare] returns at once, calling nothing, and the run
    goes on with the dispatch of [beforeStart]; and, the components being
    instrumented, a second [start] that resolves has gone through it all
    again: no container has been prepared and [afterPrepare] has not been
    delivered, [beforeStart] and [afterStart] have been delivered to the
    observers, and [start] has been called on every hook, every action and
    every service. *)
Theorem start_twice s :
  is_ok (start s) = true ->
  let s1 := final (start s) in
  started (atlas s1) = true
  /\ prepared (atlas s1) = true
  /\ events (prepare s1) = []
  /\ journal prepare s1 = []
  /\ (exists rest,
        events (start s1)
        = events (dispatch "beforeStart" (Some (view (atlas s1)))
                    (observers (atlas s1)) s1) ++ rest)
  /\ (is_ok (start s1) = true ->
      let calls := journal start s1 in
      (forall k, invoked Prepare k calls = [])
      /\ delivered "afterPrepare" calls = []
      /\ delivered "beforeStart" calls = keys (observers (atlas s1))
      /\ delivered "afterStart" calls = keys (observers (atlas s1))
      /\ invoked Start Hook calls = keys (catalog_hooks (atlas s1))
      /\ invoked Start Action calls = keys (catalog_actions (atlas s1))
      /\ invoked Start Service calls = keys (catalog_services (atlas s1))).
Proof.
  intros H s1.
  destruct (start_twice_on_record s H) as (H1 & H2 & H3 & H4 & H5). fold s1 in H1, H2, H3, H4, H5.
  split; [exact H1|]. split; [exact H2|]. split; [exact H3|].
  split; [now rewrite journal_prepare, H3|]. split; [exact H4|].
  intros Hok calls. subst calls. rewrite journal_start.
  rewrite !delivered_about, !invoked_about.
  destruct (H5 Hok) as (K1 & K2 & K3 & K4 & K5 & K6 & K7).
  repeat split; try assumption. intros k. rewrite invoked_about. apply K1.
Qed.

Lemma thrown_in p k err evs :
  In err (thrown p k evs) ->
  exists alias (v : View Instance), In (Invoked p k alias v (Some err)) evs.
Proof.
  intros H. apply in_flat_map in H as ([p' k' alias v [e|]| |] & Hin & He);
    cbn in He; try (now destruct He).
  destruct (Phase_eqb p p' && Kind_eqb k k') eqn:E; [|now destruct He].
  destruct He as [->|[]].
  destruct p, p'; try discriminate; destruct k, k'; try discriminate; eauto.
Qed.

(** C2. If the [start] of a service throws during [start]: no other service
    is started, [stop] runs on the orchestrator as it is then (the catalog
    of the [start], the public mappings that the service saw), an error of
    that [stop] goes to the log at fatal level and nowhere else, and [start]
    throws the error of the service, whatever the outcome of the [stop]. *)
Theorem start_rolls_back s err :
  In err (thrown Start Service (events (start s))) ->
  outcome (start s) = Throw err
  /\ exists pre alias v s1,
       events (start s)
       = pre ++ Invoked Start Service alias v (Some err)
                :: events (stop s1) ++ rollback_log (stop s1)
       /\ final (start s) = final (stop s1)
       /\ view (atlas s1) = v
       /\ same_catalog (atlas s) (atlas s1)
       /\ thrown Start Service pre = []
       /\ invoked Start Service (events (stop s1) ++ rollback_log (stop s1)) = [].
Proof.
  intros H. apply thrown_in in H as (alias & v & H).
  destruct (start_rolls_back_at s alias v err H) as (Ho & pre & s1 & Hrest).
  split; [exact Ho|]. now exists pre, alias, v, s1.
Qed.



(** C7. During [stop], the components being instrumented: a service whose
    [stop] is called finds its alias off the public [services] already,
    and the alias is off at the end of the [stop], whatever the call does;
    and in a [stop] that gets to its loop over the services that is so of
    every service of the catalog: each one has its [stop] called, and its
    alias is off the public [services] at the end. *)
Theorem stop_unpublishes_before_stopping s :
  (forall alias v err,
     In (Invoked Stop Service alias v err) (journal stop s) ->
     v_services v !! alias = None
     /\ services (atlas (final (stop s))) !! alias = None)
  /\ (completes_stop (journal stop s) ->
      forall alias, In alias (keys (catalog_services (atlas s))) ->
        (exists v err, In (Invoked Stop Service alias v err) (journal stop s))
        /\ services (atlas (final (stop s))) !! alias = None).
Proof.
  rewrite journal_stop. split.
  - intros alias v err H. apply in_about_components in H.
    exact (stop_unpublishes_before_stopping_at s alias v err H).
  - intros Hc alias Hin. apply (proj1 (completes_stop_about _)) in Hc.
    destruct (stop_completed_record s Hc) as (-> & _ & _ & Hi & _). split.
    + assert (Hin' : In alias (invoked Stop Service (events (stop s)))).
      { rewrite Hi. now apply in_rev in Hin. }
      apply invoked_in in Hin' as (v & err & Hin').
      exists v, err. now apply invoked_in_about.
    + now apply stopped_services.
Qed.

End Claims.

(** * Further properties of the lifecycle *)

Section Further.

Context {World Instance : Type} `{!Prototype Instance}.

Implicit Types (s : State World Instance) (a : Atlas World Instance).
Implicit Types (evs : list (Event Instance)) (l : Registry World Instance).

Local Abbreviation Comp := (@M World Instance).

(** ** What the stretches of [prepare] keep *)

Lemma prepare_stages_keep (P : Atlas World Instance -> Prop) s :
  (forall a alias c, observes_atlas c = true -> P a ->
     P (set_observers (Map_set alias c (observers a)) a)) ->
  (forall a k alias i, P a -> P (exposed k alias i a)) ->
  P (atlas s) ->
  P (atlas (final (prepare_scan s)))
  /\ P (atlas (final (prepare_hooks s)))
  /\ P (atlas (final (prepare_actions s)))
  /\ P (atlas (final (prepare_services s))).
Proof.
  intros Hobs Hexp H.
  assert (H0 : P (atlas (final (prepare_scan s)))).
  { revert H. apply preserves_for_of. intros [alias c]. unfold scan.
    destruct (negb _); [apply preserves_throw|].
    destruct (observes_atlas c) eqn:Ho; [|apply preserves_ret].
    apply preserves_modify. intros a0. now apply Hobs. }
  assert (H1 : P (atlas (final (prepare_hooks s)))).
  { revert H0. apply preserves_Promise_all_map. intros x. apply preserves_invoke. }
  assert (H2 : P (atlas (final (prepare_actions s)))).
  { revert H1. apply prepare_exposed_keeps. intros a alias i _. apply Hexp. }
  assert (H3 : P (atlas (final (prepare_services s)))).
  { revert H2. apply prepare_exposed_keeps. intros a alias i _. apply Hexp. }
  auto.
Qed.

Lemma prepare_services_flags s :
  prepared (atlas (final (prepare_scan s))) = prepared (atlas s)
  /\ prepared (atlas (final (prepare_hooks s))) = prepared (atlas s)
  /\ prepared (atlas (final (prepare_actions s))) = prepared (atlas s)
  /\ prepared (atlas (final (prepare_services s))) = prepared (atlas s).
Proof.
  apply (prepare_stages_keep (fun a => prepared a = prepared (atlas s)));
    auto.
  intros a k alias i H. now destruct (exposed_flags k alias i a) as (-> & _).
Qed.

Lemma prepare_stage_records s :
  match outcome (prepare_hooks s) with
  | Ok _ => thrown Prepare Hook (events (prepare_hooks s)) = []
  | Throw e => exists rest, thrown Prepare Hook (events (prepare_hooks s)) = e :: rest
  end
  /\ match outcome (prepare_actions s) with
     | Ok _ => thrown Prepare Action (events (prepare_actions s)) = []
     | Throw e =>
         exists rest, thrown Prepare Action (events (prepare_actions s)) = e :: rest
     end
  /\ match outcome (prepare_services s) with
     | Ok _ => thrown Prepare Service (events (prepare_services s)) = []
     | Throw e =>
         exists rest,
           thrown Prepare Service (events (prepare_services s)) = e :: rest
     end.
Proof.
  repeat split;
    first [apply Promise_all_thrown, one_call_prepare_hook
          | apply prepare_exposed_thrown].
Qed.

(** X1. [prepare] raises the [prepared] flag exactly when the loop over the
    hooks and the three joined preparations have gone through: what the
    observers of [afterPrepare] do comes too late to matter. *)
Theorem prepared_after_prepare s :
  prepared (atlas s) = false ->
  (prepared (atlas (final (prepare s))) = true
   <-> unobserving (catalog_hooks (atlas s)) = None
       /\ thrown Prepare Hook (events (prepare s)) = []
       /\ thrown Prepare Action (events (prepare s)) = []
       /\ thrown Prepare Service (events (prepare s)) = []).
Proof.
  intros Hp. rewrite prepare_run, Hp.
  destruct (scan_run (catalog_hooks (atlas s)) s) as (_ & _ & _ & Ho).
  fold (prepare_scan s) in Ho.
  destruct (prepare_services_flags s) as (F0 & F1 & F2 & F3).
  destruct (prepare_stage_records s) as (R1 & R2 & R3).
  rewrite Hp in *.
  destruct (outcome (prepare_scan s)); cbn [final events].
  2:{ rewrite F0. split; [discriminate|]. intros (Hu & _).
      rewrite Hu in Ho. discriminate. }
  assert (Hu : unobserving (catalog_hooks (atlas s)) = None).
  { destruct (unobserving _); [discriminate | reflexivity]. }
  destruct (outcome (prepare_hooks s)); cbn [final events].
  2:{ rewrite F1. destruct R1 as (rest & ->). split; [discriminate|].
      intros (_ & H & _). discriminate. }
  destruct (outcome (prepare_actions s)); cbn [final events].
  2:{ rewrite F2. project. rewrite R1. destruct R2 as (rest & ->).
      split; [discriminate|]. intros (_ & _ & H & _). discriminate. }
  destruct (outcome (prepare_services s)); cbn [final events].
  2:{ rewrite F3. project. rewrite R1, R2. destruct R3 as (rest & ->).
      split; [discriminate|]. intros (_ & _ & _ & H). discriminate. }
  assert (Ha : atlas (final (prepare_afterPrepare s))
               = set_prepared true (atlas (final (prepare_services s))))
    by apply dispatch_atlas.
  rewrite Ha. cbn [prepared set_prepared].
  project. rewrite R1, R2, R3. tauto.
Qed.

(** X2. An observer that throws at [afterPrepare] makes [prepare] throw, but
    the orchestrator is prepared by then: the next [prepare] resolves at
    once, without calling anything. *)
Theorem afterPrepare_failure_leaves_prepared s :
  prepared (atlas s) = false ->
  rejected "afterPrepare" (events (prepare s)) <> [] ->
  is_ok (prepare s) = false
  /\ prepared (atlas (final (prepare s))) = true
  /\ is_ok (prepare (final (prepare s))) = true
  /\ events (prepare (final (prepare s))) = [].
Proof.
  intros Hp Hr.
  assert (H : is_ok (prepare s) = false
              /\ prepared (atlas (final (prepare s))) = true).
  { revert Hr. unfold is_ok. rewrite prepare_run, Hp.
    destruct (outcome (prepare_scan s)); cbn [events final outcome];
      [|intros H; now destruct H].
    destruct (outcome (prepare_hooks s)); cbn [events final outcome];
      [|project; intros H; now destruct H].
    destruct (outcome (prepare_actions s)); cbn [events final outcome];
      [|project; intros H; now destruct H].
    destruct (outcome (prepare_services s)); cbn [events final outcome];
      [|project; intros H; now destruct H].
    project.
    pose proof (dispatch_record "afterPrepare"
      (Some (view (set_prepared true (atlas (final (prepare_services s))))))
      (observers (set_prepared true (atlas (final (prepare_services s)))))
      {| atlas := set_prepared true (atlas (final (prepare_services s)));
         world := world (final (prepare_services s)) |}) as Hrec.
    fold (prepare_afterPrepare s) in Hrec.
    assert (Ha : atlas (final (prepare_afterPrepare s))
                 = set_prepared true (atlas (final (prepare_services s))))
      by apply dispatch_atlas.
    rewrite Ha.
    destruct (outcome (prepare_afterPrepare s)).
    - destruct Hrec as (_ & ->). intros H; now destruct H.
    - intros _. split; reflexivity. }
  destruct H as (H1 & H2). repeat split; try assumption.
  - unfold is_ok. now rewrite (prepare_run (final (prepare s))), H2.
  - now rewrite (prepare_run (final (prepare s))), H2.
Qed.

(** ** What the stretches of [start] leave on record *)

Lemma start_hooks_record s :
  invoked Start Hook (events (start_hooks s)) = keys (catalog_hooks (atlas s))
  /\ match outcome (start_hooks s) with
     | Ok _ => thrown Start Hook (events (start_hooks s)) = []
     | Throw e => exists rest, thrown Start Hook (events (start_hooks s)) = e :: rest
     end.
Proof.
  split; [apply Promise_all_invoked | apply Promise_all_thrown];
    apply one_call_start_container.
Qed.

Lemma start_actions_record s :
  invoked Start Action (events (start_actions s))
  = keys (catalog_actions (atlas s))
  /\ match outcome (start_actions s) with
     | Ok _ => thrown Start Action (events (start_actions s)) = []
     | Throw e =>
         exists rest, thrown Start Action (events (start_actions s)) = e :: rest
     end.
Proof.
  split; [apply Promise_all_invoked | apply Promise_all_thrown];
    apply one_call_start_container.
Qed.

(** The loop of [start] records calls of [start] on services and, when it
    rolls back, what [stop] records. *)
Lemma start_loop_of s :
  Forall (fun e => is_call Start Service e || of_stop e = true)
    (events (start_loop s)).
Proof.
  unfold start_loop.
  pose proof (start_services_run (catalog_services (atlas s))
                (final (start_actions s))) as H.
  destruct (outcome (for_of _ _ _)) as [[]|err].
  - destruct H as (_ & ->). apply Forall_map, Forall_forall. now intros x _.
  - destruct H as (pre & alias & c & post & s1 & _ & _ & -> & _).
    apply Forall_app. split.
    + apply Forall_map, Forall_forall. now intros x _.
    + constructor; [reflexivity|]. apply Forall_app. split.
      * eapply Forall_impl; [apply stop_kind|]. intros e ->.
        apply orb_true_r.
      * eapply Forall_impl; [apply rollback_log_kind|]. intros e ->.
        apply orb_true_r.
Qed.

Lemma start_loop_thrown s :
  is_ok (start_loop s) = true ->
  thrown Start Service (events (start_loop s)) = [].
Proof.
  unfold start_loop, is_ok.
  pose proof (start_services_run (catalog_services (atlas s))
                (final (start_actions s))) as H.
  destruct (outcome (for_of _ _ _)) as [[]|err]; [|discriminate].
  destruct H as (_ & ->). intros _. apply thrown_started.
Qed.

(** X3. A hook or an action whose [start] throws makes [start] throw, after
    every hook and every action has had its [start] called; no service is
    started and nothing is stopped: the orchestrator stays as [prepare] has
    left it. *)
Theorem hook_start_failure_is_not_rolled_back s :
  thrown Start Hook (events (start s)) <> []
  \/ thrown Start Action (events (start s)) <> [] ->
  is_ok (start s) = false
  /\ invoked Start Hook (events (start s)) = keys (catalog_hooks (atlas s))
  /\ invoked Start Action (events (start s)) = keys (catalog_actions (atlas s))
  /\ invoked Start Service (events (start s)) = []
  /\ (forall k, invoked Stop k (events (start s)) = [])
  /\ atlas (final (start s)) = atlas (final (prepare s)).
Proof.
  unfold is_ok. rewrite start_run.
  destruct (start_components_split s) as (Hf & He & Ho).
  destruct (start_hooks_record s) as (Hih & Hth).
  destruct (start_actions_record s) as (Hia & Hta).
  pose proof (start_loop_of s) as K.
  destruct (outcome (prepare s)); cbn [events final outcome].
  2:{ quiet. intros [H|H]; now destruct H. }
  destruct (outcome (start_beforeStart s)); cbn [events final outcome].
  2:{ project. intros [H|H]; now destruct H. }
  destruct (outcome (start_components s)); cbn [events final outcome];
    rewrite He.
  - cbn in Ho.
    destruct (outcome (start_hooks s)); [|discriminate].
    destruct (outcome (start_actions s)); [|discriminate].
    destruct (outcome (start_loop s)); [destruct (outcome (start_afterStart s))|];
      cbn [events final outcome]; project; rewrite Hth, Hta;
      intros [H|H]; now destruct H.
  - intros _. rewrite Hf, start_actions_atlas. project.
    rewrite Hih, Hia. repeat split. intros k. project. reflexivity.
Qed.

(** X4. An observer that throws at [afterStart] makes [start] throw, with every
    service started and the orchestrator marked as started; nothing is
    stopped. *)
Theorem afterStart_failure_leaves_started s :
  rejected "afterStart" (events (start s)) <> [] ->
  is_ok (start s) = false
  /\ started (atlas (final (start s))) = true
  /\ prepared (atlas (final (start s))) = true
  /\ invoked Start Service (events (start s))
     = keys (catalog_services (atlas s))
  /\ (forall k, invoked Stop k (events (start s)) = []).
Proof.
  unfold is_ok. rewrite start_run.
  destruct (start_components_split s) as (Hf & He & Ho).
  pose proof (start_loop_of s) as K.
  pose proof (prepare_resolved_prepared s) as Hpp. unfold is_ok in Hpp.
  destruct (outcome (prepare s)); cbn [events final outcome].
  2:{ quiet. intros H; now destruct H. }
  destruct (outcome (start_beforeStart s)); cbn [events final outcome].
  2:{ project. intros H; now destruct H. }
  destruct (outcome (start_components s)); cbn [events final outcome];
    rewrite He.
  2:{ project. intros H; now destruct H. }
  pose proof (start_loop_kind s) as Kl.
  pose proof (start_loop_atlas s) as Hla.
  destruct (start_loop_invoked s) as (_ & Hli).
  unfold is_ok in Kl, Hla, Hli.
  destruct (outcome (start_loop s)); cbn [events final outcome].
  2:{ project. intros H; now destruct H. }
  clear K. specialize (Kl eq_refl). specialize (Hla eq_refl).
  specialize (Hli eq_refl).
  assert (Ha : atlas (final (start_afterStart s))
               = set_started true (atlas (final (start_loop s))))
    by apply dispatch_atlas.
  pose proof (dispatch_record "afterStart"
    (Some (view (set_started true (atlas (final (start_loop s))))))
    (observers (atlas (final (prepare s))))
    {| atlas := set_started true (atlas (final (start_loop s)));
       world := world (final (start_loop s)) |}) as Hrec.
  fold (start_afterStart s) in Hrec.
  destruct (outcome (start_afterStart s)); cbn [events final outcome].
  { project. destruct Hrec as (_ & ->). intros H; now destruct H. }
  intros _. rewrite Ha, Hla. cbn [started prepared set_started].
  project. rewrite Hli. repeat split; auto. intros k. project. reflexivity.
Qed.

(** X5. A hook or an action whose [stop] throws makes [stop] throw, after every
    hook and every action has had its [stop] called; no service is stopped,
    [afterStop] is not delivered, and the orchestrator is left as it was,
    flags and public mappings included. *)
Theorem hook_stop_failure_cuts_stop_short s :
  thrown Stop Hook (events (stop s)) <> []
  \/ thrown Stop Action (events (stop s)) <> [] ->
  is_ok (stop s) = false
  /\ invoked Stop Hook (events (stop s)) = keys (catalog_hooks (atlas s))
  /\ invoked Stop Action (events (stop s)) = keys (catalog_actions (atlas s))
  /\ invoked Stop Service (events (stop s)) = []
  /\ delivered "afterStop" (events (stop s)) = []
  /\ atlas (final (stop s)) = atlas s.
Proof.
  unfold is_ok. rewrite stop_run.
  destruct (stop_components_split s) as (Hf & He & Ho).
  destruct (stop_hooks_record s) as (Hih & Hth).
  destruct (stop_actions_record s) as (Hia & Hta).
  destruct (outcome (stop_beforeStop s)); cbn [events final outcome].
  2:{ quiet. intros [H|H]; now destruct H. }
  destruct (outcome (stop_components s)); cbn [events final outcome];
    rewrite He.
  - cbn in Ho.
    destruct (outcome (stop_hooks s)); [|discriminate].
    destruct (outcome (stop_actions s)); [|discriminate].
    destruct (outcome (stop_afterStop s)); cbn [events final outcome];
      project; rewrite Hth, Hta; intros [H|H]; now destruct H.
  - intros _. rewrite stop_components_atlas. project.
    rewrite Hih, Hia. repeat split.
Qed.

Lemma rejected_started event (v : View Instance) l :
  rejected event (map (fun x => Invoked Start Service (fst x) v None) l) = [].
Proof. induction l as [|x l IH]; simpl; [reflexivity | exact IH]. Qed.

Lemma invoked_started_stop k (v : View Instance) l :
  invoked Stop k (map (fun x => Invoked Start Service (fst x) v None) l) = [].
Proof. induction l as [|x l IH]; simpl; [reflexivity | exact IH]. Qed.

(** The rollback of a [start], on the record of the orchestrator. *)
Lemma rollback_stops_every_service_on_record s :
  thrown Start Service (events (start s)) <> [] ->
  completes_stop (events (start s)) ->
  invoked Stop Service (events (start s))
  = rev (keys (catalog_services (atlas s)))
  /\ invoked Stop Hook (events (start s)) = keys (catalog_hooks (atlas s))
  /\ invoked Stop Action (events (start s)) = keys (catalog_actions (atlas s))
  /\ prepared (atlas (final (start s))) = false
  /\ started (atlas (final (start s))) = false
  /\ (reachable s ->
      services (atlas (final (start s))) = ∅
      /\ actions (atlas (final (start s))) = ∅).
Proof.
  unfold completes_stop. rewrite start_run.
  destruct (start_components_split s) as (Hf & He & Ho).
  destruct (outcome (prepare s)); cbn [events final outcome].
  2:{ quiet. intros H; now destruct H. }
  destruct (outcome (start_beforeStart s)); cbn [events final outcome].
  2:{ project. intros H; now destruct H. }
  destruct (outcome (start_components s)); cbn [events final outcome];
    rewrite He.
  2:{ project. intros H; now destruct H. }
  pose proof (start_loop_thrown s) as Hlt. unfold is_ok in Hlt.
  destruct (outcome (start_loop s)) eqn:El; cbn [events final outcome].
  { destruct (outcome (start_afterStart s)); cbn [events final outcome];
      project; rewrite Hlt by reflexivity; intros H; now destruct H. }
  clear Hlt. intros _.
  unfold start_loop in El |- *.
  pose proof (start_services_run (catalog_services (atlas s))
                (final (start_actions s))) as Hl.
  rewrite El in Hl.
  destruct Hl as (pre & alias & c & post & s1 & _ & Ha & Hev & ->).
  rewrite start_actions_atlas in Ha.
  destruct (prepare_catalog s) as (C1 & C2 & C3).
  set (failed := Invoked Start Service alias
                   (view (atlas (final (start_actions s)))) (Some e)) in Hev.
  assert (Hev' : events (for_of (catalog_services (atlas s)) start_service
                           (final (start_actions s)))
                 = map (fun x => Invoked Start Service (fst x)
                                   (view (atlas (final (start_actions s)))) None)
                     pre
                   ++ [failed] ++ events (stop s1) ++ rollback_log (stop s1))
    by exact Hev.
  rewrite Hev'. clear Hev Hev'.
  assert (F1 : rejected "beforeStop" [failed] = []) by reflexivity.
  assert (F2 : forall k, thrown Stop k [failed] = []) by reflexivity.
  assert (F3 : forall k, invoked Stop k [failed] = []) by reflexivity.
  rewrite !rejected_app, !thrown_app, !invoked_app, F1, !F2, !F3,
    !rejected_started, !thrown_started, !invoked_started_stop,
    !rejected_rollback_log, !thrown_rollback_log, !invoked_rollback_log.
  quiet. cbn [app]. rewrite !app_nil_r.
  intros Hc. change (completes_stop (events (stop s1))) in Hc.
  destruct (stop_completed_record s1 Hc) as (-> & -> & -> & -> & _).
  rewrite Ha, C1, C2, C3. repeat split.
  - apply stopped_empty. rewrite <- Ha.
    assert (Hr : reachable (final (prepare s))) by now apply reach_prepare.
    apply reachable_within_catalog in Hr. now rewrite Ha.
  - apply stopped_empty. rewrite <- Ha.
    assert (Hr : reachable (final (prepare s))) by now apply reach_prepare.
    apply reachable_within_catalog in Hr. now rewrite Ha.
Qed.

(** X6. The components being instrumented: when the [start] of a service
    throws and the [stop] that follows gets to its loops, every hook, every
    action and every service of the catalog has its [stop] called, the
    services that were never started with the others; the orchestrator is
    left neither prepared nor started, and with nothing published if it
    was one that a program can get. *)
Theorem rollback_stops_every_service s :
  thrown Start Service (journal start s) <> [] ->
  completes_stop (journal start s) ->
  invoked Stop Service (journal start s)
  = rev (keys (catalog_services (atlas s)))
  /\ invoked Stop Hook (journal start s) = keys (catalog_hooks (atlas s))
  /\ invoked Stop Action (journal start s) = keys (catalog_actions (atlas s))
  /\ prepared (atlas (final (start s))) = false
  /\ started (atlas (final (start s))) = false
  /\ (reachable s ->
      services (atlas (final (start s))) = ∅
      /\ actions (atlas (final (start s))) = ∅).
Proof.
  rewrite journal_start, thrown_about, !invoked_about.
  intros Ht Hc. apply (proj1 (completes_stop_about _)) in Hc.
  now apply rollback_stops_every_service_on_record.
Qed.

(** The phases of a [start] that resolves, on the record of the
    orchestrator. *)
Lemma start_in_phases_on_record s :
  is_ok (start s) = true ->
  exists before after,
    events (start s)
    = events (prepare s) ++ before
      ++ map (fun x => Invoked Start Service (fst x)
                         (view (atlas (final (prepare s)))) None)
           (catalog_services (atlas s))
      ++ after ++ [Logged Info "atlas:ready" None]
    /\ Forall (fun e => of_prepare e = true) (events (prepare s))
    /\ Forall (fun e => is_delivery "beforeStart" e || is_call Start Hook e
                        || is_call Start Action e = true) before
    /\ Forall (fun e => is_delivery "afterStart" e = true) after
    /\ prepared (atlas (final (prepare s))) = true.
Proof.
  intros H.
  destruct (start_resolved s H) as (Hp & _ & _ & _ & Hl & _ & _ & ->).
  exists (events (start_beforeStart s) ++ events (start_hooks s)
          ++ events (start_actions s)), (events (start_afterStart s)).
  assert (Hev : events (start_loop s)
                = map (fun x => Invoked Start Service (fst x)
                                  (view (atlas (final (prepare s)))) None)
                    (catalog_services (atlas s))).
  { unfold start_loop, is_ok in *.
    pose proof (start_services_run (catalog_services (atlas s))
                  (final (start_actions s))) as Hr.
    destruct (outcome (for_of _ _ _)); [|discriminate].
    destruct Hr as (_ & ->). now rewrite start_actions_atlas. }
  rewrite Hev, <- !app_assoc. split; [reflexivity|].
  split; [apply prepare_kind|]. split; [|split].
  - rewrite !Forall_app. repeat split.
    + eapply Forall_impl; [apply start_beforeStart_kind|]. now intros e ->.
    + eapply Forall_impl; [apply start_hooks_kind|]. intros e ->.
      now rewrite orb_true_r.
    + eapply Forall_impl; [apply start_actions_kind|]. intros e ->.
      now rewrite orb_true_r.
  - apply start_afterStart_kind.
  - now apply prepare_resolved_prepared.
Qed.

(** X7. The components being instrumented: in a [start] that resolves
    everything is prepared before anything is started, the hooks and the
    actions are started before any service, the services are started in
    registration order, each one seeing the orchestrator as [prepare] has
    left it (prepared, with its public mappings filled), [afterStart] comes
    after the last service, and the log line is written last. *)
Theorem start_in_phases s :
  is_ok (start s) = true ->
  exists before after,
    journal start s
    = journal prepare s ++ before
      ++ map (fun x => Invoked Start Service (fst x)
                         (view (atlas (final (prepare s)))) None)
           (catalog_services (atlas s))
      ++ after
    /\ Forall (fun e => of_prepare e = true) (journal prepare s)
    /\ Forall (fun e => is_delivery "beforeStart" e || is_call Start Hook e
                        || is_call Start Action e = true) before
    /\ Forall (fun e => is_delivery "afterStart" e = true) after
    /\ prepared (atlas (final (prepare s))) = true
    /\ last (events (start s)) = Some (Logged Info "atlas:ready" None).
Proof.
  intros H.
  destruct (start_in_phases_on_record s H) as (before & after & E & K1 & K2 & K3 & Hp).
  exists before, after.
  rewrite journal_start, journal_prepare, E, !about_components_app.
  rewrite (about_components_id _ _ K1) by reflexivity.
  rewrite (about_components_id _ _ K2) by reflexivity.
  rewrite (about_components_id _ _ K3) by reflexivity.
  rewrite (about_components_id (is_call Start Service)
             (map _ (catalog_services (atlas s)))).
  - cbn. rewrite app_nil_r. repeat split; try assumption.
    rewrite !app_assoc. apply last_snoc.
  - apply Forall_map, Forall_forall. reflexivity.
  - reflexivity.
Qed.

(** A [start] after a [stop], on the record of the orchestrator. *)
Lemma stop_then_start_prepares_again_on_record s :
  completes_stop (events (stop s)) ->
  is_ok (start (final (stop s))) = true ->
  invoked Prepare Hook (events (start (final (stop s))))
  = keys (catalog_hooks (atlas s))
  /\ invoked Prepare Action (events (start (final (stop s))))
     = keys (catalog_actions (atlas s))
  /\ invoked Prepare Service (events (start (final (stop s))))
     = keys (catalog_services (atlas s))
  /\ invoked Start Service (events (start (final (stop s))))
     = keys (catalog_services (atlas s)).
Proof.
  intros Hc H.
  destruct (stop_completed_record s Hc) as (Ha & _).
  destruct (start_resolved_record _ H) as (_ & _ & _ & Hs & _ & _ & Hk & _).
  destruct (start_resolved _ H) as (Hp & _).
  assert (Hu : prepared (atlas (final (stop s))) = false) by now rewrite Ha.
  destruct (prepare_resolved _ Hu Hp) as (P1 & P2 & P3 & _).
  rewrite !Hk, P1, P2, P3, Hs, Ha. repeat split.
Qed.

(** X8. The components being instrumented: after a [stop] that has got to
    its loops the next [start] that resolves prepares every container of
    the catalog again, and starts every service. *)
Theorem stop_then_start_prepares_again s :
  completes_stop (journal stop s) ->
  is_ok (start (final (stop s))) = true ->
  invoked Prepare Hook (journal start (final (stop s)))
  = keys (catalog_hooks (atlas s))
  /\ invoked Prepare Action (journal start (final (stop s)))
     = keys (catalog_actions (atlas s))
  /\ invoked Prepare Service (journal start (final (stop s)))
     = keys (catalog_services (atlas s))
  /\ invoked Start Service (journal start (final (stop s)))
     = keys (catalog_services (atlas s)).
Proof.
  rewrite journal_stop, journal_start, !invoked_about.
  intros Hc. apply (proj1 (completes_stop_about _)) in Hc.
  now apply stop_then_start_prepares_again_on_record.
Qed.

(** ** The registry of observers *)

Lemma Map_set_keys_in alias (c : Container World Instance) l x :
  In x (keys (Map_set alias c l)) -> x = alias \/ In x (keys l).
Proof.
  induction l as [|[k c'] l IH]; cbn.
  - intros [H|[]]. now left.
  - destruct (String.eqb k alias) eqn:E; cbn.
    + intros [H|H]; right; [now left | now right].
    + intros [H|H]; [right; now left|].
      destruct (IH H) as [H'|H']; [now left | right; now right].
Qed.

Lemma Map_set_NoDup alias (c : Container World Instance) l :
  NoDup (keys l) -> NoDup (keys (Map_set alias c l)).
Proof.
  induction l as [|[k c'] l IH]; cbn.
  - intros _. apply NoDup_singleton.
  - intros H. apply NoDup_cons in H as (Hk & Hl).
    destruct (String.eqb k alias) eqn:E; cbn.
    + apply NoDup_cons. now split.
    + apply String.eqb_neq in E. apply NoDup_cons. split; [|now apply IH].
      intros Hin. apply list_elem_of_In, Map_set_keys_in in Hin as [Hin|Hin].
      * congruence.
      * apply Hk. now apply list_elem_of_In.
Qed.

Lemma observers_sound_set a alias c :
  observes_atlas c = true ->
  observers_sound a ->
  observers_sound (set_observers (Map_set alias c (observers a)) a).
Proof.
  intros Ho (Hn & Hall). split; cbn.
  - now apply Map_set_NoDup.
  - intros k c' Hin. apply Map_set_in in Hin as [Heq|Hin]; [|eauto].
    injection Heq as -> ->. unfold observes_atlas in Ho.
    destruct (observes (Component c)) as [t|]; [|discriminate].
    apply String.eqb_eq in Ho. now subst.
Qed.

Lemma observers_sound_exposed a k alias (i : Instance) :
  observers_sound a -> observers_sound (exposed k alias i a).
Proof.
  unfold observers_sound.
  now destruct (exposed_flags k alias i a) as (_ & _ & ->).
Qed.

(** X10. Whatever a program does with an orchestrator, the registry of observers
    never lists an alias twice, and it lists nothing but hooks whose
    [observes] is ['atlas']. *)
Theorem observers_stay_sound s :
  reachable s ->
  NoDup (keys (observers (atlas s)))
  /\ forall alias c, In (alias, c) (observers (atlas s)) ->
                     observes (Component c) = Some "atlas".
Proof.
  change (reachable s -> observers_sound (atlas s)).
  induction 1 as [e n r a w Hc| | s alias c _ IH | s alias c _ IH
                 | s alias c _ IH | s _ IH | s _ IH | s _ IH].
  - unfold constructor in Hc.
    destruct (if truthy e then e else n); [|discriminate].
    destruct (negb _); [discriminate|]. destruct r; [|discriminate].
    injection Hc as <-. split; cbn; [constructor | now intros ? ? []].
  - assumption.
  - apply (within_registered observers_sound alias c catalog_services
             set_catalog_services); [reflexivity| |exact IH]. now intros a H.
  - apply (within_registered observers_sound alias c catalog_hooks
             set_catalog_hooks); [reflexivity| |exact IH]. now intros a H.
  - apply (within_registered observers_sound alias c catalog_actions
             set_catalog_actions); [reflexivity| |exact IH]. now intros a H.
  - apply (prepare_keeps observers_sound); auto.
    + intros a alias c _. apply observers_sound_set.
    + intros a k alias i _. apply observers_sound_exposed.
  - apply (start_keeps observers_sound); auto.
    + intros a alias c _. apply observers_sound_set.
    + intros a k alias i _. apply observers_sound_exposed.
  - apply (stop_preserves observers_sound); auto.
Qed.

(** X11. What is published is registered: at any time, an alias of the public
    [services] is an alias of the service catalog, and an alias of the
    public [actions] one of the action catalog. *)
Theorem published_is_registered s :
  reachable s ->
  (forall alias, is_Some (services (atlas s) !! alias) ->
                 In alias (keys (catalog_services (atlas s))))
  /\ (forall alias, is_Some (actions (atlas s) !! alias) ->
                    In alias (keys (catalog_actions (atlas s)))).
Proof. apply reachable_within_catalog. Qed.

(** ** Construction *)

(** X12. The constructor takes its environment from the options and, when they
    give none (or an empty one), from [NODE_ENV]; it throws when both are
    missing or empty, and then when no root is given, in that order; an
    empty root is a root. The orchestrator it makes has nothing registered,
    nothing published, and is neither prepared nor started. *)
Theorem constructor_checks (e n r : option string) :
  (truthy e = false -> truthy n = false ->
   constructor (World := World) (Instance := Instance) e n r
   = Throw (FrameworkError "env not specified and NODE_ENV was not set"))
  /\ (truthy e = true \/ truthy n = true -> r = None ->
      constructor (World := World) (Instance := Instance) e n r
      = Throw (FrameworkError
                 "root must be explicitly specified, got undefined"))
  /\ (truthy e = true \/ truthy n = true -> forall dir, r = Some dir ->
      exists a : Atlas World Instance,
        constructor e n r = Ok a
        /\ Some (env a) = (if truthy e then e else n) /\ root a = dir
        /\ prepared a = false /\ started a = false
        /\ catalog_hooks a = [] /\ catalog_services a = []
        /\ catalog_actions a = [] /\ observers a = []
        /\ services a = ∅ /\ actions a = ∅).
Proof.
  unfold constructor. repeat split.
  - intros He Hn. rewrite He. destruct n as [x|]; [|reflexivity].
    now rewrite Hn.
  - intros H ->. destruct (truthy e) eqn:He.
    + destruct e as [x|]; [|discriminate]. now rewrite He.
    + destruct H as [H|H]; [discriminate|].
      destruct n as [x|]; [|discriminate]. now rewrite H.
  - intros H dir ->. destruct (truthy e) eqn:He.
    + destruct e as [x|]; [|discriminate]. rewrite He. cbn.
      eexists. split; [reflexivity|]. cbn. auto 12.
    + destruct H as [H|H]; [discriminate|].
      destruct n as [x|]; [|discriminate]. rewrite H. cbn.
      eexists. split; [reflexivity|]. cbn. auto 12.
Qed.

(** ** init *)

Lemma Map_has_fresh alias l : ~ In alias (keys l) -> Map_has alias l = false.
Proof.
  unfold Map_has. induction l as [|[k c] l IH]; cbn; [reflexivity|].
  intros H. destruct (String.eqb k alias) eqn:E.
  - apply String.eqb_eq in E. destruct H. now left.
  - apply IH. intros Hin. apply H. now right.
Qed.

Lemma register_module_run
    (get : Atlas World Instance -> Registry World Instance)
    (set : Registry World Instance -> Atlas World Instance -> Atlas World Instance)
    (register : string -> Container World Instance -> M (Atlas World Instance))
    module s :
  (forall alias c s, register alias c s
     = bind this (fun a =>
         match component alias c (get a) with
         | Ok reg => bind (modify (set reg)) (fun _ => this)
         | Throw e => throw e
         end) s) ->
  (forall reg a, get (set reg a) = reg) ->
  (forall reg reg' a, set reg (set reg' a) = set reg a) ->
  (forall a, set (get a) a = a) ->
  NoDup (keys (get (atlas s) ++ module)) ->
  register_module register module s
  = {| final := {| atlas := set (get (atlas s) ++ module) (atlas s);
                   world := world s |};
       events := []; outcome := Ok tt |}.
Proof.
  intros Hreg Hgs Hss Hsg. unfold register_module.
  revert s. induction module as [|[alias c] module IH]; intros s Hn.
  - cbn. rewrite app_nil_r, Hsg. now destruct s.
  - cbn [for_of fst snd].
    assert (Hfresh : ~ In alias (keys (get (atlas s)))).
    { unfold keys in *. rewrite map_app in Hn.
      apply NoDup_app in Hn as (_ & Hn & _).
      intros Hin. apply list_elem_of_In in Hin. apply (Hn _ Hin).
      apply list_elem_of_In. now left. }
    unfold bind at 1 2. rewrite Hreg, bind_this. unfold component.
    rewrite (Map_has_fresh _ _ Hfresh), bind_modify.
    cbn [this outcome final events ret app].
    rewrite IH; cbn [atlas world].
    + now rewrite Hgs, Hss, <- app_assoc.
    + now rewrite Hgs, <- app_assoc.
Qed.

(** X13. [init] throws what the constructor throws. When the constructor accepts
    the options, [init] gives the new orchestrator with the entries of the
    three modules for its three registries, in the order of the modules
    (the keys of a module, a JavaScript object, are distinct); it writes one
    line of debug log and calls no component. *)
Theorem init_registers_the_modules (e n r : option string)
    (hooks services actions : Registry World Instance) (w : World) :
  NoDup (keys hooks) -> NoDup (keys services) -> NoDup (keys actions) ->
  (forall err, constructor (World := World) (Instance := Instance) e n r
               = Throw err ->
               init e n r hooks services actions w = Throw err)
  /\ (forall fresh, constructor e n r = Ok fresh ->
      exists run,
        init e n r hooks services actions w = Ok run
        /\ outcome run = Ok (atlas (final run))
        /\ events run = [Logged Debug "atlas:init" None]
        /\ world (final run) = w
        /\ atlas (final run)
           = set_catalog_actions actions
               (set_catalog_services services
                  (set_catalog_hooks hooks fresh))).
Proof.
  intros Hh Hs Ha. unfold init. split.
  { intros err ->. reflexivity. }
  intros fresh Hc. rewrite Hc.
  eexists. split; [reflexivity|].
  assert (Hf : catalog_hooks fresh = [] /\ catalog_services fresh = []
               /\ catalog_actions fresh = []).
  { unfold constructor in Hc.
    destruct (if truthy e then e else n); [|discriminate].
    destruct (negb _); [discriminate|]. destruct r; [|discriminate].
    injection Hc as <-. auto. }
  destruct Hf as (F1 & F2 & F3).
  rewrite bind_log.
  rewrite (bind_ok (register_module hook hooks) _ _ tt);
    rewrite (register_module_run catalog_hooks set_catalog_hooks hook);
    try reflexivity; cbn [atlas final events outcome world];
    try (now destruct a); try (rewrite F1; exact Hh).
  rewrite (bind_ok (register_module service services) _ _ tt);
    rewrite (register_module_run catalog_services set_catalog_services service);
    try reflexivity; cbn [atlas final events outcome world];
    try (now destruct a);
    try (cbn [catalog_services set_catalog_hooks]; rewrite F2; exact Hs).
  rewrite (bind_ok (register_module action actions) _ _ tt);
    rewrite (register_module_run catalog_actions set_catalog_actions action);
    try reflexivity; cbn [atlas final events outcome world];
    try (now destruct a);
    try (cbn [catalog_actions set_catalog_services set_catalog_hooks];
         rewrite F3; exact Ha).
  cbn [this final events outcome atlas world app].
  cbn [catalog_hooks catalog_services catalog_actions set_catalog_hooks
       set_catalog_services].
  rewrite F1, F2, F3. repeat split.
Qed.

(** ** Observers that throw before anything is done *)

(** X14. An observer that throws at [beforeStart] makes [start] throw with the
    orchestrator prepared and nothing else done: no [start] is called, and
    nothing is stopped. *)
Theorem beforeStart_failure_starts_nothing s :
  rejected "beforeStart" (events (start s)) <> [] ->
  is_ok (start s) = false
  /\ (forall k, invoked Start k (events (start s)) = [])
  /\ (forall k, invoked Stop k (events (start s)) = [])
  /\ prepared (atlas (final (start s))) = true
  /\ atlas (final (start s)) = atlas (final (prepare s)).
Proof.
  unfold is_ok. rewrite start_run.
  destruct (start_components_split s) as (Hf & He & Ho).
  pose proof (start_loop_of s) as K.
  pose proof (prepare_resolved_prepared s) as Hpp. unfold is_ok in Hpp.
  pose proof (dispatch_record "beforeStart"
    (Some (view (atlas (final (prepare s)))))
    (observers (atlas (final (prepare s)))) (final (prepare s))) as Hrec.
  fold (start_beforeStart s) in Hrec.
  assert (Ha : atlas (final (start_beforeStart s)) = atlas (final (prepare s)))
    by apply dispatch_atlas.
  destruct (outcome (prepare s)); cbn [events final outcome].
  2:{ quiet. intros H; now destruct H. }
  destruct (outcome (start_beforeStart s)); cbn [events final outcome].
  - destruct Hrec as (_ & Hrec).
    destruct (outcome (start_components s)); cbn [events final outcome];
      rewrite ?He;
      [destruct (outcome (start_loop s));
         [destruct (outcome (start_afterStart s))|]|];
      cbn [events final outcome]; project; rewrite Hrec;
      intros H; now destruct H.
  - intros _. rewrite Ha. split; [reflexivity|].
    split; [intros k; project; reflexivity|].
    split; [intros k; project; reflexivity|]. auto.
Qed.

(** X15. An observer that throws at [beforeStop] makes [stop] throw with nothing
    done: no [stop] is called, [afterStop] is not delivered, and the
    orchestrator is left as it was. *)
Theorem beforeStop_failure_stops_nothing s :
  rejected "beforeStop" (events (stop s)) <> [] ->
  is_ok (stop s) = false
  /\ (forall k, invoked Stop k (events (stop s)) = [])
  /\ delivered "afterStop" (events (stop s)) = []
  /\ atlas (final (stop s)) = atlas s.
Proof.
  unfold is_ok. rewrite stop_run.
  destruct (stop_components_split s) as (Hf & He & Ho).
  pose proof (dispatch_record "beforeStop" (Some (view (atlas s)))
                (observers (atlas s)) s) as Hrec.
  fold (stop_beforeStop s) in Hrec.
  assert (Ha : atlas (final (stop_beforeStop s)) = atlas s)
    by apply dispatch_atlas.
  destruct (outcome (stop_beforeStop s)); cbn [events final outcome].
  - destruct Hrec as (_ & Hrec).
    destruct (outcome (stop_components s)); cbn [events final outcome];
      rewrite ?He; [destruct (outcome (stop_afterStop s))|];
      cbn [events final outcome]; project; rewrite Hrec;
      intros H; now destruct H.
  - intros _. rewrite Ha. split; [reflexivity|].
    split; [intros k; project; reflexivity|].
    split; [project; reflexivity | reflexivity].
Qed.

(** ** A hook that throws at [afterStop] *)

(** X16. A hook that throws at [afterStop] makes [stop] throw what the hook has
    thrown, whatever the services have thrown before: their error is lost.
    By then every service has had its [stop] called and the orchestrator is
    as a [stop] leaves it; the log line of [stop] is not written. *)
Theorem afterStop_failure_hides_service_failure s :
  rejected "afterStop" (events (stop s)) <> [] ->
  (exists e, outcome (stop s) = Throw e
             /\ rejected "afterStop" (events (stop s)) = [e])
  /\ invoked Stop Service (events (stop s))
     = rev (keys (catalog_services (atlas s)))
  /\ atlas (final (stop s)) = stopped (atlas s)
  /\ Forall (fun e => is_delivery "beforeStop" e || is_call Stop Hook e
                      || is_call Stop Action e || is_call Stop Service e
                      || is_delivery "afterStop" e = true) (events (stop s)).
Proof.
  intros Hr.
  destruct (stop_cases s) as [Hc|(_ & Hk & _)].
  2:{ destruct Hr. apply (quiet_rejected _ _ _ Hk). reflexivity. }
  destruct (stop_completed s Hc) as (_ & He & Ho & _).
  destruct (stop_completed_record s Hc) as (Ha & _ & _ & Hi & _ & _ & Hj & _).
  pose proof (dispatch_record "afterStop" None (catalog_hooks (atlas s))
                {| atlas := stopped (atlas s);
                   world := world (final (stop_loop s)) |}) as Hrec.
  fold (stop_afterStop s) in Hrec.
  rewrite Hj in Hr |- *.
  unfold is_ok in He.
  destruct (outcome (stop_afterStop s)) as [?|e].
  { destruct Hrec as (_ & Hrec). now destruct Hr. }
  split; [now exists e|]. split; [exact Hi|]. split; [exact Ha|].
  rewrite He, app_nil_r.
  repeat (apply Forall_app; split).
  - eapply Forall_impl; [apply stop_beforeStop_kind|].
    intros x Hx. cbn beta in *. now rewrite Hx.
  - eapply Forall_impl; [apply stop_hooks_kind|].
    intros x Hx. cbn beta in *. rewrite Hx. now rewrite ?orb_true_r.
  - eapply Forall_impl; [apply stop_actions_kind|].
    intros x Hx. cbn beta in *. rewrite Hx. now rewrite ?orb_true_r.
  - eapply Forall_impl; [apply stop_loop_kind|].
    intros x Hx. cbn beta in *. rewrite Hx. now rewrite ?orb_true_r.
  - eapply Forall_impl; [apply stop_afterStop_kind|].
    intros x Hx. cbn beta in *. rewrite Hx. now rewrite ?orb_true_r.
Qed.

(** ** Registration on a prepared orchestrator *)

Lemma registered
    (get : Atlas World Instance -> Registry World Instance)
    (set : Registry World Instance -> Atlas World Instance -> Atlas World Instance)
    (m : State World Instance -> Run (Atlas World Instance)) alias c s :
  (forall s, m s
     = bind this (fun a =>
         match component alias c (get a) with
         | Ok reg => bind (modify (set reg)) (fun _ => this)
         | Throw e => throw e
         end) s) ->
  is_ok (m s) = true ->
  final (m s)
  = {| atlas := set (get (atlas s) ++ [(alias, c)]) (atlas s);
       world := world s |}.
Proof.
  intros Hm. unfold is_ok. rewrite Hm, bind_this. unfold component.
  destruct (Map_has alias (get (atlas s))); [discriminate|].
  now rewrite bind_modify.
Qed.

Lemma start_prepared s :
  prepared (atlas s) = true ->
  is_ok (start s) = true ->
  atlas (final (start s)) = set_started true (atlas s)
  /\ (forall k, invoked Prepare k (events (start s)) = [])
  /\ invoked Start Hook (events (start s)) = keys (catalog_hooks (atlas s))
  /\ invoked Start Service (events (start s))
     = keys (catalog_services (atlas s))
  /\ delivered "beforeStart" (events (start s)) = keys (observers (atlas s))
  /\ delivered "afterStart" (events (start s)) = keys (observers (atlas s)).
Proof.
  intros Hp H.
  destruct (start_resolved_record s H) as (Ha & Hh & _ & Hs & Hb & Hf & Hk & _).
  assert (E : prepare s = {| final := s; events := []; outcome := Ok (atlas s) |})
    by now rewrite prepare_run, Hp.
  rewrite E in *. cbn [final events] in *.
  repeat split; auto.
Qed.

(** A [start] after a late registration, on the record of the
    orchestrator. *)
Lemma late_service_is_started_unprepared_on_record s alias c :
  prepared (atlas s) = true ->
  is_ok (service alias c s) = true ->
  is_ok (start (final (service alias c s))) = true ->
  (forall k, invoked Prepare k (events (start (final (service alias c s)))) = [])
  /\ invoked Start Service (events (start (final (service alias c s))))
     = keys (catalog_services (atlas s)) ++ [alias]
  /\ services (atlas (final (start (final (service alias c s)))))
     = services (atlas s).
Proof.
  intros Hp Hr H.
  pose proof (registered catalog_services set_catalog_services
                (service alias c) alias c s (fun _ => eq_refl) Hr) as E.
  destruct (start_prepared (final (service alias c s))) as (Ha & Hk & _ & Hs & _);
    [now rewrite E | exact H |].
  split; [exact Hk|]. rewrite Hs, Ha, E.
  split; [apply keys_app | reflexivity].
Qed.

(** X17. The components being instrumented: a service registered on a
    prepared orchestrator is started by the next [start] with the others,
    last, without having been prepared: that [start] prepares nothing and
    publishes nothing. *)
Theorem late_service_is_started_unprepared s alias c :
  prepared (atlas s) = true ->
  is_ok (service alias c s) = true ->
  is_ok (start (final (service alias c s))) = true ->
  (forall k, invoked Prepare k (journal start (final (service alias c s))) = [])
  /\ invoked Start Service (journal start (final (service alias c s)))
     = keys (catalog_services (atlas s)) ++ [alias]
  /\ services (atlas (final (start (final (service alias c s)))))
     = services (atlas s).
Proof.
  intros Hp Hr H. rewrite journal_start, invoked_about.
  destruct (late_service_is_started_unprepared_on_record s alias c Hp Hr H)
    as (H1 & H2 & H3).
  repeat split; try assumption. intros k. rewrite invoked_about. apply H1.
Qed.

(** X18. A hook registered on a prepared orchestrator is started by the next
    [start] with the others, but it is no observer, whatever it observes:
    [beforeStart] and [afterStart] go to the observers that [prepare] had
    found. *)
Theorem late_hook_is_no_observer s alias c :
  prepared (atlas s) = true ->
  is_ok (hook alias c s) = true ->
  is_ok (start (final (hook alias c s))) = true ->
  invoked Start Hook (events (start (final (hook alias c s))))
  = keys (catalog_hooks (atlas s)) ++ [alias]
  /\ delivered "beforeStart" (events (start (final (hook alias c s))))
     = keys (observers (atlas s))
  /\ delivered "afterStart" (events (start (final (hook alias c s))))
     = keys (observers (atlas s))
  /\ observers (atlas (final (start (final (hook alias c s)))))
     = observers (atlas s).
Proof.
  intros Hp Hr H.
  pose proof (registered catalog_hooks set_catalog_hooks
                (hook alias c) alias c s (fun _ => eq_refl) Hr) as E.
  destruct (start_prepared (final (hook alias c s)))
    as (Ha & _ & Hh & _ & Hb & Hf); [now rewrite E | exact H |].
  rewrite Hh, Hb, Hf, Ha, E.
  split; [apply keys_app | repeat split].
Qed.

End Further.

(** * The claims on the sample application *)

(** Closing an equation between closed terms by evaluation, from an
    instance of a theorem whose left-hand side is the same term. *)
Ltac evaluated H := etransitivity; [exact H | vm_compute; reflexivity].


Lemma start_rolls_back_witness :
  outcome (start Sample.broken) = Throw (ComponentError "http cannot start").
Proof.
  apply (start_rolls_back Sample.broken (ComponentError "http cannot start")).
  vm_compute. left. reflexivity.
Defined.



Lemma prepare_twice_witness :
  events (prepare (final (prepare Sample.app))) = [].
Proof.
  assert (H : is_ok (prepare Sample.app) = true) by (vm_compute; reflexivity).
  pose proof (f_equal events (prepare_twice Sample.app H)) as E.
  cbn [events] in E. exact E.
Defined.

Lemma sample_reachable : reachable Sample.app.
Proof.
  unfold Sample.app, Sample.after.
  apply reach_action, reach_service, reach_service, reach_hook, reach_hook.
  now apply (reach_new (Some "test") None (Some "/srv/app")).
Qed.

Lemma start_then_stop_witness :
  prepared (atlas (final (stop (final (start Sample.app))))) = false
  /\ started (atlas (final (stop (final (start Sample.app))))) = false
  /\ services (atlas (final (stop (final (start Sample.app))))) = ∅
  /\ actions (atlas (final (stop (final (start Sample.app))))) = ∅.
Proof.
  apply (proj1 (proj2 start_then_stop) Sample.app).
  - exact sample_reachable.
  - vm_compute. reflexivity.
  - repeat split; vm_compute; reflexivity.
Defined.

Lemma prepare_rejects_unobserving_hook_witness :
  outcome (prepare Sample.careless)
  = Throw (FrameworkError "Hook blind does not have static 'observes' property")
  /\ events (prepare Sample.careless) = [].
Proof.
  destruct (prepare_rejects_unobserving_hook Sample.careless)
    as (alias & c & _ & _ & Hu & Ho & He & _).
  - vm_compute. reflexivity.
  - exists "blind", (Sample.plain "blind" None). split; [|reflexivity].
    vm_compute. right. left. reflexivity.
  - assert (Hu' : unobserving (catalog_hooks (atlas Sample.careless))
                  = Some "blind") by (vm_compute; reflexivity).
    assert (Ha : alias = "blind") by congruence. subst alias.
    split; [exact Ho | exact He].
Defined.


Lemma afterStop_goes_to_every_hook_witness :
  delivered "afterStop" (events (stop Sample.running)) = ["watch"; "audit"]
  /\ delivered "beforeStop" (events (stop Sample.running)) = ["watch"].
Proof.
  assert (H : is_ok (stop Sample.running) = true) by (vm_compute; reflexivity).
  destruct (proj1 (proj2 afterStop_goes_to_every_hook) Sample.running H)
    as (Ha & Hb).
  split; [evaluated Ha | evaluated Hb].
Defined.

Lemma start_twice_witness :
  started (atlas (final (start Sample.app))) = true
  /\ invoked Start Service (journal start (final (start Sample.app)))
     = ["db"; "http"]
  /\ delivered "beforeStart" (journal start (final (start Sample.app)))
     = ["watch"].
Proof.
  assert (H : is_ok (start Sample.app) = true) by (vm_compute; reflexivity).
  assert (H' : is_ok (start (final (start Sample.app))) = true)
    by (vm_compute; reflexivity).
  destruct (start_twice Sample.app H) as (H1 & _ & _ & _ & _ & H2).
  destruct (H2 H') as (_ & _ & Hb & _ & _ & _ & Hs).
  split; [exact H1|]. split; [evaluated Hs | evaluated Hb].
Defined.

Lemma stop_without_start_witness :
  outcome (stop Sample.app) = Ok (atlas (final (stop Sample.app)))
  /\ invoked Stop Hook (journal stop Sample.app) = ["watch"; "audit"]
  /\ invoked Stop Action (journal stop Sample.app) = ["mail"]
  /\ invoked Stop Service (journal stop Sample.app) = ["http"; "db"]
  /\ delivered "beforeStop" (journal stop Sample.app) = []
  /\ delivered "afterStop" (journal stop Sample.app) = ["watch"; "audit"].
Proof.
  assert (Hp : prepared (atlas Sample.app) = false) by (vm_compute; reflexivity).
  assert (Hs : started (atlas Sample.app) = false) by (vm_compute; reflexivity).
  assert (Ho : observers (atlas Sample.app) = []) by (vm_compute; reflexivity).
  assert (H : is_ok (stop Sample.app) = true) by (vm_compute; reflexivity).
  destruct (stop_without_start Sample.app Hp Hs Ho) as (Hb & _ & _ & Hr).
  destruct (Hr H) as (Hh & Hac & Hsv & _ & _ & Ha & Hout).
  split; [exact Hout|]. split; [evaluated Hh|]. split; [evaluated Hac|].
  split; [evaluated Hsv|]. split; [exact Hb | evaluated Ha].
Defined.

Lemma stop_unpublishes_before_stopping_witness :
  (exists v err,
     In (Invoked Stop Service "db" v err) (journal stop Sample.running))
  /\ services (atlas Sample.running) !! "db" = Some "db"
  /\ services (atlas (final (stop Sample.running))) !! "db" = None.
Proof.
  assert (Hc : completes_stop (journal stop Sample.running))
    by (repeat split; vm_compute; reflexivity).
  assert (Hin : In "db" (keys (catalog_services (atlas Sample.running))))
    by (vm_compute; left; reflexivity).
  destruct (proj2 (stop_unpublishes_before_stopping Sample.running) Hc "db" Hin)
    as (Hcall & Hoff).
  split; [exact Hcall|]. split; [vm_compute; reflexivity | exact Hoff].
Defined.

(** * The further properties on the sample application *)

Lemma prepared_after_prepare_witness :
  prepared (atlas (final (prepare Sample.app))) = true.
Proof.
  assert (Hp : prepared (atlas Sample.app) = false) by (vm_compute; reflexivity).
  apply (proj2 (prepared_after_prepare Sample.app Hp)).
  repeat split; vm_compute; reflexivity.
Defined.

Lemma afterPrepare_failure_leaves_prepared_witness :
  is_ok (prepare (Sample.touchy "afterPrepare")) = false
  /\ prepared (atlas (final (prepare (Sample.touchy "afterPrepare")))) = true
  /\ is_ok (prepare (final (prepare (Sample.touchy "afterPrepare")))) = true
  /\ events (prepare (final (prepare (Sample.touchy "afterPrepare")))) = [].
Proof.
  apply (afterPrepare_failure_leaves_prepared (Sample.touchy "afterPrepare")).
  - vm_compute. reflexivity.
  - vm_compute. discriminate.
Defined.

Lemma hook_start_failure_is_not_rolled_back_witness :
  invoked Start Hook (events (start (Sample.touchy "start")))
  = ["watch"; "audit"]
  /\ invoked Start Action (events (start (Sample.touchy "start"))) = ["mail"]
  /\ invoked Start Service (events (start (Sample.touchy "start"))) = []
  /\ invoked Stop Hook (events (start (Sample.touchy "start"))) = [].
Proof.
  assert (H : thrown Start Hook (events (start (Sample.touchy "start"))) <> []
              \/ thrown Start Action (events (start (Sample.touchy "start")))
                 <> [])
    by (left; vm_compute; discriminate).
  destruct (hook_start_failure_is_not_rolled_back (Sample.touchy "start") H)
    as (_ & Hh & Ha & Hs & Hk & _).
  split; [evaluated Hh|]. split; [evaluated Ha|].
  split; [exact Hs | exact (Hk Hook)].
Defined.

Lemma afterStart_failure_leaves_started_witness :
  is_ok (start (Sample.touchy "afterStart")) = false
  /\ started (atlas (final (start (Sample.touchy "afterStart")))) = true
  /\ invoked Start Service (events (start (Sample.touchy "afterStart")))
     = ["db"; "http"].
Proof.
  assert (H : rejected "afterStart"
                (events (start (Sample.touchy "afterStart"))) <> [])
    by (vm_compute; discriminate).
  destruct (afterStart_failure_leaves_started (Sample.touchy "afterStart") H)
    as (Ho & Hs & _ & Hi & _).
  split; [exact Ho|]. split; [exact Hs | evaluated Hi].
Defined.

Lemma hook_stop_failure_cuts_stop_short_witness :
  is_ok (stop (Sample.running_touchy "stop")) = false
  /\ invoked Stop Hook (events (stop (Sample.running_touchy "stop")))
     = ["watch"; "audit"]
  /\ invoked Stop Service (events (stop (Sample.running_touchy "stop"))) = []
  /\ delivered "afterStop" (events (stop (Sample.running_touchy "stop"))) = []
  /\ started (atlas (final (stop (Sample.running_touchy "stop")))) = true.
Proof.
  assert (H : thrown Stop Hook (events (stop (Sample.running_touchy "stop")))
              <> []
              \/ thrown Stop Action
                   (events (stop (Sample.running_touchy "stop"))) <> [])
    by (left; vm_compute; discriminate).
  destruct (hook_stop_failure_cuts_stop_short (Sample.running_touchy "stop") H)
    as (Ho & Hh & _ & Hs & Hd & Ha).
  split; [exact Ho|]. split; [evaluated Hh|]. split; [exact Hs|].
  split; [exact Hd|].
  pose proof (f_equal started Ha) as E. evaluated E.
Defined.

Lemma rollback_stops_every_service_witness :
  invoked Start Service (journal start Sample.broken) = ["db"; "http"]
  /\ invoked Stop Service (journal start Sample.broken)
     = ["queue"; "http"; "db"]
  /\ started (atlas (final (start Sample.broken))) = false.
Proof.
  assert (H : thrown Start Service (journal start Sample.broken) <> [])
    by (vm_compute; discriminate).
  assert (Hc : completes_stop (journal start Sample.broken))
    by (repeat split; vm_compute; reflexivity).
  destruct (rollback_stops_every_service Sample.broken H Hc)
    as (Hs & _ & _ & _ & Hf & _).
  split; [vm_compute; reflexivity|]. split; [evaluated Hs | exact Hf].
Defined.

Lemma start_in_phases_witness :
  exists before after,
    journal start Sample.app
    = journal prepare Sample.app ++ before
      ++ map (fun x => Invoked Start Service (fst x)
                         (view (atlas (final (prepare Sample.app)))) None)
           (catalog_services (atlas Sample.app))
      ++ after
    /\ Forall (fun e => of_prepare e = true) (journal prepare Sample.app)
    /\ Forall (fun e => is_delivery "beforeStart" e || is_call Start Hook e
                        || is_call Start Action e = true) before
    /\ Forall (fun e => is_delivery "afterStart" e = true) after
    /\ prepared (atlas (final (prepare Sample.app))) = true
    /\ last (events (start Sample.app))
       = Some (Logged Info "atlas:ready" None).
Proof.
  apply (start_in_phases Sample.app). vm_compute. reflexivity.
Defined.

Lemma stop_then_start_prepares_again_witness :
  invoked Prepare Service (journal start (final (stop Sample.running)))
  = ["db"; "http"]
  /\ invoked Start Service (journal start (final (stop Sample.running)))
     = ["db"; "http"].
Proof.
  assert (Hc : completes_stop (journal stop Sample.running))
    by (repeat split; vm_compute; reflexivity).
  assert (H : is_ok (start (final (stop Sample.running))) = true)
    by (vm_compute; reflexivity).
  destruct (stop_then_start_prepares_again Sample.running Hc H)
    as (_ & _ & Hp & Hs).
  split; [evaluated Hp | evaluated Hs].
Defined.

Lemma sample_ready_reachable : reachable Sample.ready.
Proof.
  unfold Sample.ready, Sample.after. apply reach_prepare, sample_reachable.
Qed.

Lemma observers_stay_sound_witness :
  NoDup (keys (observers (atlas Sample.ready)))
  /\ forall alias c, In (alias, c) (observers (atlas Sample.ready)) ->
                     observes (Component c) = Some "atlas".
Proof. apply (observers_stay_sound Sample.ready), sample_ready_reachable. Defined.

Lemma published_is_registered_witness :
  (forall alias, is_Some (services (atlas Sample.ready) !! alias) ->
                 In alias (keys (catalog_services (atlas Sample.ready))))
  /\ (forall alias, is_Some (actions (atlas Sample.ready) !! alias) ->
                    In alias (keys (catalog_actions (atlas Sample.ready)))).
Proof. apply (published_is_registered Sample.ready), sample_ready_reachable. Defined.

Lemma constructor_checks_witness :
  constructor (World := Sample.Journal) (Instance := string)
    None (Some "") (Some "/srv/app")
  = Throw (FrameworkError "env not specified and NODE_ENV was not set")
  /\ constructor (World := Sample.Journal) (Instance := string)
       (Some "") (Some "production") None
     = Throw (FrameworkError "root must be explicitly specified, got undefined")
  /\ exists a : Atlas Sample.Journal string,
       constructor (Some "") (Some "production") (Some "") = Ok a
       /\ env a = "production".
Proof.
  split; [|split].
  - apply (proj1 (constructor_checks None (Some "") (Some "/srv/app")));
      reflexivity.
  - apply (proj1 (proj2 (constructor_checks (Some "") (Some "production") None)));
      [right; reflexivity | reflexivity].
  - destruct (proj2 (proj2 (constructor_checks (World := Sample.Journal)
                              (Instance := string)
                              (Some "") (Some "production") (Some "")))
                (or_intror eq_refl) "" eq_refl) as (a & Hc & He & _).
    exists a. split; [exact Hc|]. cbn in He. now injection He.
Defined.

Lemma init_registers_the_modules_witness :
  exists run,
    init (Some "test") None (Some "/srv/app") Sample.module_hooks
      Sample.module_services Sample.module_actions [] = Ok run
    /\ outcome run = Ok (atlas (final run))
    /\ events run = [Logged Debug "atlas:init" None]
    /\ world (final run) = []
    /\ atlas (final run)
       = set_catalog_actions Sample.module_actions
           (set_catalog_services Sample.module_services
              (set_catalog_hooks Sample.module_hooks Sample.fresh)).
Proof.
  apply (init_registers_the_modules (Some "test") None (Some "/srv/app")
           Sample.module_hooks Sample.module_services Sample.module_actions []).
  - apply (bool_decide_unpack _). vm_compute. exact I.
  - apply (bool_decide_unpack _). vm_compute. exact I.
  - apply (bool_decide_unpack _). vm_compute. exact I.
  - vm_compute. reflexivity.
Defined.

Lemma beforeStart_failure_starts_nothing_witness :
  is_ok (start (Sample.touchy "beforeStart")) = false
  /\ invoked Start Hook (events (start (Sample.touchy "beforeStart"))) = []
  /\ prepared (atlas (final (start (Sample.touchy "beforeStart")))) = true.
Proof.
  assert (H : rejected "beforeStart"
                (events (start (Sample.touchy "beforeStart"))) <> [])
    by (vm_compute; discriminate).
  destruct (beforeStart_failure_starts_nothing (Sample.touchy "beforeStart") H)
    as (Ho & Hi & _ & Hp & _).
  split; [exact Ho|]. split; [exact (Hi Hook) | exact Hp].
Defined.

Lemma beforeStop_failure_stops_nothing_witness :
  is_ok (stop (Sample.running_touchy "beforeStop")) = false
  /\ invoked Stop Service (events (stop (Sample.running_touchy "beforeStop")))
     = []
  /\ delivered "afterStop" (events (stop (Sample.running_touchy "beforeStop")))
     = [].
Proof.
  assert (H : rejected "beforeStop"
                (events (stop (Sample.running_touchy "beforeStop"))) <> [])
    by (vm_compute; discriminate).
  destruct (beforeStop_failure_stops_nothing
              (Sample.running_touchy "beforeStop") H) as (Ho & Hi & Hd & _).
  split; [exact Ho|]. split; [exact (Hi Service) | exact Hd].
Defined.

Lemma afterStop_failure_hides_service_failure_witness :
  thrown Stop Service (events (stop Sample.running_doomed))
  = [ComponentError "http cannot stop"; ComponentError "db cannot stop"]
  /\ outcome (stop Sample.running_doomed)
     = Throw (ComponentError "watch fails at afterStop").
Proof.
  split; [vm_compute; reflexivity|].
  assert (H : rejected "afterStop" (events (stop Sample.running_doomed)) <> [])
    by (vm_compute; discriminate).
  destruct (afterStop_failure_hides_service_failure Sample.running_doomed H)
    as ((e & Ho & Hr) & _).
  assert (Hr' : rejected "afterStop" (events (stop Sample.running_doomed))
                = [ComponentError "watch fails at afterStop"])
    by (vm_compute; reflexivity).
  injection (eq_trans (eq_sym Hr) Hr') as ->. exact Ho.
Defined.

Lemma late_service_is_started_unprepared_witness :
  invoked Prepare Service
    (journal start (final (service "cache" (Sample.plain "cache" None)
                             Sample.ready))) = []
  /\ invoked Start Service
       (journal start (final (service "cache" (Sample.plain "cache" None)
                                Sample.ready)))
     = ["db"; "http"; "cache"].
Proof.
  assert (Hp : prepared (atlas Sample.ready) = true) by (vm_compute; reflexivity).
  assert (Hr : is_ok (service "cache" (Sample.plain "cache" None) Sample.ready)
               = true) by (vm_compute; reflexivity).
  assert (H : is_ok (start (final (service "cache" (Sample.plain "cache" None)
                                     Sample.ready))) = true)
    by (vm_compute; reflexivity).
  destruct (late_service_is_started_unprepared Sample.ready "cache"
              (Sample.plain "cache" None) Hp Hr H) as (Hk & Hs & _).
  split; [exact (Hk Service) | evaluated Hs].
Defined.

Lemma late_hook_is_no_observer_witness :
  invoked Start Hook
    (events (start (final (hook "late" (Sample.plain "late" (Some "atlas"))
                             Sample.ready))))
  = ["watch"; "audit"; "late"]
  /\ delivered "beforeStart"
       (events (start (final (hook "late" (Sample.plain "late" (Some "atlas"))
                                Sample.ready))))
     = ["watch"].
Proof.
  assert (Hp : prepared (atlas Sample.ready) = true) by (vm_compute; reflexivity).
  assert (Hr : is_ok (hook "late" (Sample.plain "late" (Some "atlas"))
                        Sample.ready) = true) by (vm_compute; reflexivity).
  assert (H : is_ok (start (final (hook "late"
                                     (Sample.plain "late" (Some "atlas"))
                                     Sample.ready))) = true)
    by (vm_compute; reflexivity).
  destruct (late_hook_is_no_observer Sample.ready "late"
              (Sample.plain "late" (Some "atlas")) Hp Hr H) as (Hh & Hb & _).
  split; [evaluated Hh | evaluated Hb].
Defined.
